(** * A shallow embedding of the BIT interpreter (Main.cpp)

    The development follows the layout of the source: the value types, the
    AST node classes, the global interpreter state, the evaluator
    ([...Node::value], [...Node::run], [memory_read], [memory_write]), the
    scanner helpers ([skip_whitespace], [consume], [check]) and the part of
    the recursive-descent parser that reads bit strings and gotos.

    Conventions.
    - A C++ [int] is a [Z]; the two places where the source does arithmetic
      that can leave the 32-bit range ([bits << 1] in [parse_bits] and
      [value + 1] in [Expression3Node::value]) wrap explicitly with [wrap].
    - [show_parser_error] and [show_runtime_error] print and call [exit(1)];
      they are modelled as the error constructors of [result].
    - [std::string::at] and [std::map::at] throw [std::out_of_range]; nothing
      in the source catches it, so it is a third way to stop: [OutOfRange].
      A call through a null node pointer is [NullPointer].
    - The globals [jump_register], [memory], [output_buffer] and the two
      standard streams are threaded through as a [State]. *)

From Stdlib Require Import Ascii.
From stdpp Require Import base gmap list strings pretty.

Open Scope Z_scope.

Abbreviation char := Ascii.ascii.

(** ** Results *)

Inductive Error : Type :=
| ParseError (message : string) (position : nat)
| RuntimeError (message : string)
| OutOfRange
| NullPointer
| EndOfInput.

Inductive result (A : Type) : Type :=
| Ok (a : A)
| Err (e : Error).
Arguments Ok {A} a.
Arguments Err {A} e.

Definition bind {A B : Type} (m : result A) (k : A -> result B) : result B :=
  match m with
  | Ok a => k a
  | Err e => Err e
  end.

Notation "'do' x <- m ; k" := (bind m (fun x => k))
  (at level 10, x pattern, m at level 100, k at level 200).

Definition is_ok {A : Type} (r : result A) : bool :=
  match r with Ok _ => true | Err _ => false end.

Definition is_runtime_error {A : Type} (r : result A) : bool :=
  match r with Err (RuntimeError _) => true | _ => false end.

Definition is_parse_error {A : Type} (r : result A) : bool :=
  match r with Err (ParseError _ _) => true | _ => false end.

(** ** Machine integers *)

Definition INT_MIN : Z := - 2 ^ 31.

(** Reduction of a mathematical integer into the 32-bit two's complement
    range, as the hardware does on overflow. *)
Definition wrap (z : Z) : Z := (z + 2 ^ 31) mod 2 ^ 32 - 2 ^ 31.

Definition to_string (z : Z) : string := pretty z.

(** ** Types (region Types) *)

Inductive ValueType : Type :=
| UNDEFINED
| BIT
| ADDRESS_OF_A_BIT.

(** The enumerators' integer encodings: the source compares [int] payloads
    with them. *)
Definition ValueType_code (t : ValueType) : Z :=
  match t with
  | UNDEFINED => 0
  | BIT => 1
  | ADDRESS_OF_A_BIT => 2
  end.

Definition ValueType_eqb (a b : ValueType) : bool :=
  ValueType_code a =? ValueType_code b.

Record Value : Type := mkValue { value : Z; type : ValueType }.

(** ** AST (region Declarations) *)

#[warnings="-register-all"]
Inductive ExpressionNode : Type :=
| Expression1Node (left : ExpressionNode) (right : option ExpressionNode)
| Expression2Node (child : ExpressionNode)
| Expression3Node (child : ExpressionNode)
| Expression4Node (child : ExpressionNode)
| Expression5Node (constant : Z)
| VariableNode (address : Z).

(** [print_value] is the bit to print, and -1, what the constructor sets,
    for READ. *)
Record CommandNode : Type := mkCommand { print_value : Z }.

(** [address] is [INT_MIN], what the constructor sets, when the target is an
    expression; [address_expression] is the null pointer when it is a
    variable.  [parse_assignment] always sets [expression]. *)
Record AssignmentNode : Type := mkAssignment {
  address : Z;
  address_expression : option ExpressionNode;
  expression : ExpressionNode
}.

Inductive InstructionNode : Type :=
| Command (c : CommandNode)
| Assignment (a : AssignmentNode).

Record GotoNode : Type := mkGoto {
  next : Value;
  next_if_zero : Z;
  next_if_one : Z
}.

(** [GotoNode()] *)
Definition GotoNode_new : GotoNode :=
  {| next := {| value := -1; type := BIT |}; next_if_zero := -1; next_if_one := -1 |}.

Record LineNode : Type := mkLine {
  line_number : Z;
  instruction : InstructionNode;
  go : option GotoNode
}.

Record CodeNode : Type := mkCode {
  lines : gmap Z LineNode;
  first_line_number : Z
}.

(** ** Variables (region Variables) *)

Definition jump_register_address : Z := -1.
Definition print_ascii : bool := false.

Inductive Output : Type :=
| OutInt (n : Z)
| OutChar (c : Z).

Record State : Type := mkState {
  jump_register : Z;
  memory : gmap Z Value;
  output_buffer : list Z;
  cin : list Z;
  cout : list Output
}.

Definition set_jump_register (j : Z) (s : State) : State :=
  {| jump_register := j; memory := memory s; output_buffer := output_buffer s;
     cin := cin s; cout := cout s |}.

Definition set_memory (m : gmap Z Value) (s : State) : State :=
  {| jump_register := jump_register s; memory := m; output_buffer := output_buffer s;
     cin := cin s; cout := cout s |}.

Definition set_output (b : list Z) (o : list Output) (s : State) : State :=
  {| jump_register := jump_register s; memory := memory s; output_buffer := b;
     cin := cin s; cout := o |}.

Definition set_cin (i : list Z) (s : State) : State :=
  {| jump_register := jump_register s; memory := memory s; output_buffer := output_buffer s;
     cin := i; cout := cout s |}.

(** The state [parse] leaves behind: [memory.clear(); jump_register = 0]. *)
Definition initial_state (stdin : list Z) : State :=
  {| jump_register := 0; memory := ∅; output_buffer := []; cin := stdin; cout := [] |}.

(** ** Interpreter (region Interpreter) *)

(** The 8-bit truncation of [character |= ...] on a [char]. *)
Definition wrap8 (z : Z) : Z := (z + 2 ^ 7) mod 2 ^ 8 - 2 ^ 7.

(** The body of the reverse iteration in [print_bit]: [l] is the buffer from
    its last element to its first. *)
Fixpoint pack_bits (l : list Z) (pos : Z) (character : Z) : Z :=
  match l with
  | [] => character
  | b :: l' => pack_bits l' (pos + 1) (wrap8 (Z.lor character (Z.shiftl b pos)))
  end.

Definition print_bit (v : Z) (s : State) : State :=
  if print_ascii then
    let buffer := output_buffer s ++ [v] in
    if (length buffer =? 8)%nat
    then set_output [] (cout s ++ [OutChar (pack_bits (rev buffer) 0 0)]) s
    else set_output buffer (cout s) s
  else set_output (output_buffer s) (cout s ++ [OutInt v]) s.

(** [cin >> value]: the standard input is a sequence of already extracted
    integers.  What the extraction does on an exhausted stream is outside
    the model; it is reported as [EndOfInput]. *)
Definition read_bit (s : State) : result (Z * State) :=
  match cin s with
  | [] => Err EndOfInput
  | v :: rest =>
      if negb (v =? 0) && negb (v =? 1)
      then Err (RuntimeError "Invalid value read.")
      else Ok (v, set_cin rest s)
  end.

Definition memory_read (address : Z) (s : State) : result (Value * State) :=
  if address =? jump_register_address then
    Ok ({| value := jump_register s; type := BIT |}, s)
  else if address >? jump_register_address then
    match memory s !! address with
    | None =>
        let v := {| value := 0; type := UNDEFINED |} in
        Ok (v, set_memory (<[address := v]> (memory s)) s)
    | Some v => Ok (v, s)
    end
  else Err (RuntimeError ("Invalid memory address: " +:+ to_string address +:+ ".")).

Definition memory_write (address : Z) (v : Value) (s : State) : result State :=
  if ValueType_eqb (type v) BIT && negb (value v =? 0) && negb (value v =? 1) then
    Err (RuntimeError ("Illegal value: " +:+ to_string (value v)))
  else if address =? jump_register_address then
    if ValueType_eqb (type v) ADDRESS_OF_A_BIT
    then Err (RuntimeError "The jump register can't store address-of-a-bit values.")
    else Ok (set_jump_register (value v) s)
  else if address >? jump_register_address then
    Ok (set_memory (<[address := v]> (memory s)) s)
  else Err (RuntimeError ("Invalid memory address: " +:+ to_string address +:+ ".")).

(** ** Implementations (region Implementations) *)

(** An evaluation in progress: the virtual call [child->value()]. *)
Definition Eval : Type := State -> result (Value * State).

Definition Expression1Node_value (left_ : Eval) (right_ : option Eval) : Eval :=
  fun s =>
    do (value_left, s1) <- left_ s;
    match right_ with
    | Some right_value =>
        do (value_right, s2) <- right_value s1;
        if (value value_left =? ValueType_code ADDRESS_OF_A_BIT)
           || (value value_right =? ValueType_code ADDRESS_OF_A_BIT)
        then Err (RuntimeError "The NAND operator requires bit values.")
        else Ok ({| value := Z.lnot (Z.land (value value_left) (value value_right));
                    type := BIT |}, s2)
    | None => Ok (value_left, s1)
    end.

Definition Expression2Node_value (child : Eval) : Eval :=
  fun s =>
    do (v, s1) <- child s;
    if value v =? ValueType_code ADDRESS_OF_A_BIT then
      Err (RuntimeError "The THE ADDRESS OF operator requires a bit value.")
    else if value v <? jump_register_address then
      Err (RuntimeError ("Invalid memory address: " +:+ to_string (value v) +:+ "."))
    else if value v =? jump_register_address then
      Err (RuntimeError "The THE ADDRESS OF operator can't be used with the jump register.")
    else Ok ({| value := value v; type := ADDRESS_OF_A_BIT |}, s1).

Definition Expression3Node_value (child : Eval) : Eval :=
  fun s =>
    do (v, s1) <- child s;
    if value v =? ValueType_code BIT then
      Err (RuntimeError "The THE VALUE BEYOND operator requires an address-of-a-bit value.")
    else if value v <? 0 then
      Err (RuntimeError ("Invalid memory address: " +:+ to_string (value v) +:+ "."))
    else
      do (result, s2) <- memory_read (wrap (value v + 1)) s1;
      if value result =? ValueType_code ADDRESS_OF_A_BIT
      then Err (RuntimeError "Variable must contain a bit value.")
      else Ok (result, s2).

Definition Expression4Node_value (child : Eval) : Eval :=
  fun s =>
    do (v, s1) <- child s;
    if value v =? ValueType_code BIT then
      Err (RuntimeError "The THE VALUE BEYOND operator requires an address-of-a-bit value.")
    else if value v <? 0 then
      Err (RuntimeError ("Invalid memory address: " +:+ to_string (value v) +:+ "."))
    else
      do (result, s2) <- memory_read (value v) s1;
      if value result =? ValueType_code ADDRESS_OF_A_BIT
      then Err (RuntimeError "Variable must contain a bit value.")
      else Ok (result, s2).

Definition Expression5Node_value (constant : Z) : Eval :=
  fun s => Ok ({| value := constant; type := UNDEFINED |}, s).

Definition VariableNode_value (address : Z) : Eval :=
  fun s =>
    if address >=? jump_register_address then memory_read address s
    else Err (RuntimeError ("Illegal address: " +:+ to_string address +:+ ".")).

(** Virtual dispatch of [ExpressionNode::value]. *)
Fixpoint ExpressionNode_value (e : ExpressionNode) : Eval :=
  match e with
  | Expression1Node l r =>
      Expression1Node_value (ExpressionNode_value l) (option_map ExpressionNode_value r)
  | Expression2Node c => Expression2Node_value (ExpressionNode_value c)
  | Expression3Node c => Expression3Node_value (ExpressionNode_value c)
  | Expression4Node c => Expression4Node_value (ExpressionNode_value c)
  | Expression5Node k => Expression5Node_value k
  | VariableNode a => VariableNode_value a
  end.

Definition CommandNode_run (c : CommandNode) (s : State) : result State :=
  if (print_value c =? 0) || (print_value c =? 1) then
    Ok (print_bit (print_value c) s)
  else
    do (v, s1) <- read_bit s;
    memory_write jump_register_address {| value := v; type := BIT |} s1.

(** C++ leaves the order in which the two arguments of a call are evaluated
    to the compiler; [AssignmentNode::run] evaluates two expressions as
    arguments of one call, so the order is a parameter of the model. *)
Inductive ArgumentOrder : Type :=
| LeftToRight
| RightToLeft.

Definition AssignmentNode_arguments (order : ArgumentOrder)
    (address_expression expression : ExpressionNode) (s : State)
  : result (Value * Value * State) :=
  match order with
  | LeftToRight =>
      do (a, s1) <- ExpressionNode_value address_expression s;
      do (v, s2) <- ExpressionNode_value expression s1;
      Ok (a, v, s2)
  | RightToLeft =>
      do (v, s1) <- ExpressionNode_value expression s;
      do (a, s2) <- ExpressionNode_value address_expression s1;
      Ok (a, v, s2)
  end.

Definition AssignmentNode_run (order : ArgumentOrder) (a : AssignmentNode) (s : State)
  : result State :=
  if address a >=? jump_register_address then
    do (v, s1) <- ExpressionNode_value (expression a) s;
    memory_write (address a) v s1
  else
    match address_expression a with
    | None => Err NullPointer
    | Some e =>
        do (t, v, s1) <- AssignmentNode_arguments order e (expression a) s;
        memory_write (value t) v s1
    end.

(** Virtual dispatch of [InstructionNode::run]. *)
Definition InstructionNode_run (order : ArgumentOrder) (i : InstructionNode) (s : State)
  : result State :=
  match i with
  | Command c => CommandNode_run c s
  | Assignment a => AssignmentNode_run order a s
  end.

Definition GotoNode_next_line_number (g : GotoNode) (s : State) : result (Z * State) :=
  if value (next g) >? -1 then
    if ValueType_eqb (type (next g)) ADDRESS_OF_A_BIT then
      do (v, s1) <- memory_read (value (next g)) s;
      Ok (value v, s1)
    else Ok (value (next g), s)
  else if (next_if_zero g >? -1) && (jump_register s =? 0) then Ok (next_if_zero g, s)
  else if (next_if_one g >? -1) && (jump_register s =? 1) then Ok (next_if_one g, s)
  else Ok (-1, s).

(** [CodeNode::run] has no bound on the number of lines it executes.  The
    loop is unrolled [fuel] times; [Unfinished] reports the line the loop is
    about to execute when the fuel is used up. *)
Inductive Run : Type :=
| Finished (s : State)
| Aborted (e : Error)
| Unfinished (next_line_number : Z) (s : State).

(** The [while (next_line_number >= 0)] loop. *)
Fixpoint CodeNode_run_loop (fuel : nat) (order : ArgumentOrder)
    (lines : gmap Z LineNode) (next_line_number : Z) (s : State) : Run :=
  if next_line_number >=? 0 then
    match fuel with
    | O => Unfinished next_line_number s
    | S fuel' =>
        match lines !! next_line_number with
        | None =>
            Aborted (RuntimeError
              ("No line exists with number " +:+ to_string next_line_number +:+ "."))
        | Some line =>
            match InstructionNode_run order (instruction line) s with
            | Err e => Aborted e
            | Ok s1 =>
                match go line with
                | None => Finished s1
                | Some g =>
                    match GotoNode_next_line_number g s1 with
                    | Err e => Aborted e
                    | Ok (n, s2) => CodeNode_run_loop fuel' order lines n s2
                    end
                end
            end
        end
    end
  else Finished s.

Definition CodeNode_run (fuel : nat) (order : ArgumentOrder) (code : CodeNode) (s : State)
  : Run :=
  match lines code !! first_line_number code with
  | None => Aborted OutOfRange
  | Some line =>
      match InstructionNode_run order (instruction line) s with
      | Err e => Aborted e
      | Ok s1 =>
          match go line with
          | None => Finished s1
          | Some g =>
              match GotoNode_next_line_number g s1 with
              | Err e => Aborted e
              | Ok (n, s2) => CodeNode_run_loop fuel order (lines code) n s2
              end
          end
      end
  end.

(** ** Helpers (region Helpers)

    The scanner works on the global [input] with the cursor [position]; the
    functions below take both and return the new cursor.  A position is an
    index into the input, a [nat]. *)

Definition is_whitespace (character : char) : bool := Ascii.is_space character.

(** [skip_whitespace]: the loop runs while [position < length], so the
    distance to the end of the input bounds its iterations. *)
Fixpoint skip_whitespace_loop (fuel : nat) (input : list char) (position : nat) : nat :=
  match fuel with
  | O => position
  | S fuel' =>
      match input !! position with
      | Some c =>
          if is_whitespace c
          then skip_whitespace_loop fuel' input (S position)
          else position
      | None => position
      end
  end.

Definition skip_whitespace (input : list char) (position : nat) : nat :=
  skip_whitespace_loop (length input - position) input position.

(** [bool consume(char character)] *)
Definition consume_char (character : char) (input : list char) (position : nat)
  : bool * nat :=
  match input !! position with
  | Some c => if Ascii.eqb c character then (true, S position) else (false, position)
  | None => (false, position)
  end.

(** [void consume(string symbol)]: [characters] is what is left of the
    symbol. *)
Fixpoint consume_loop (symbol : string) (characters : list char)
    (input : list char) (position : nat) : result nat :=
  match characters with
  | [] => Ok position
  | character :: rest =>
      let p := skip_whitespace input position in
      match consume_char character input p with
      | (true, p') => consume_loop symbol rest input p'
      | (false, p') =>
          Err (ParseError ("Illegal symbol found. " +:+ symbol +:+ " was expected.") p')
      end
  end.

Definition consume (symbol : string) (input : list char) (position : nat) : result nat :=
  consume_loop symbol (String.list_ascii_of_string symbol) input position.

(** The inner [while (is_whitespace(input->at(positionTemp)))] of [check]:
    [Ok None] is its [return false], [Ok (Some p)] the position of the first
    character that is no whitespace.  [input->at] throws at the end of the
    input, which is where the fuel, the distance to the end, runs out. *)
Fixpoint check_whitespace (fuel : nat) (input : list char) (positionTemp : nat)
  : result (option nat) :=
  match fuel with
  | O => Err OutOfRange
  | S fuel' =>
      match input !! positionTemp with
      | None => Err OutOfRange
      | Some c =>
          if is_whitespace c then
            if (length input <=? S positionTemp)%nat then Ok None
            else check_whitespace fuel' input (S positionTemp)
          else Ok (Some positionTemp)
      end
  end.

Fixpoint check_loop (characters : list char) (input : list char) (positionTemp : nat)
  : result bool :=
  match characters with
  | [] => Ok true
  | character :: rest =>
      do r <- check_whitespace (length input - positionTemp) input positionTemp;
      match r with
      | None => Ok false
      | Some p =>
          match input !! p with
          | None => Err OutOfRange
          | Some c =>
              if negb (Ascii.eqb c character) then Ok false
              else check_loop rest input (S p)
          end
      end
  end.

Definition check (symbol : string) (input : list char) (position : nat) : result bool :=
  if (length input <=? position)%nat then Ok false
  else check_loop (String.list_ascii_of_string symbol) input position.

(** ** Symbols (region Symbols) *)

Definition LINE_NUMBER : string := "LINENUMBER".
Definition CODE : string := "CODE".
Definition GOTO : string := "GOTO".
Definition IF_THE_JUMP_REGISTER_IS : string := "IFTHEJUMPREGISTERIS".
Definition EQUAL_TO : string := "EQUALTO".
Definition PRINT : string := "PRINT".
Definition READ : string := "READ".
Definition EQUALS : string := "EQUALS".
Definition VARIABLE : string := "VARIABLE".
Definition THE_JUMP_REGISTER : string := "THEJUMPREGISTER".
Definition NAND : string := "NAND".
Definition THE_ADDRESS_OF : string := "THEADDRESSOF".
Definition THE_VALUE_BEYOND : string := "THEVALUEBEYOND".
Definition THE_VALUE_AT : string := "THEVALUEAT".
Definition OPEN_PARENTHESIS : string := "OPENPARENTHESIS".
Definition CLOSE_PARENTHESIS : string := "CLOSEPARENTHESIS".
Definition ZERO : string := "ZERO".
Definition ONE : string := "ONE".

(** ** Parser (region Parser) *)

Definition parse_bit (input : list char) (position : nat) : result (Z * nat) :=
  let p := skip_whitespace input position in
  do zero <- check ZERO input p;
  if zero then
    do p' <- consume ZERO input p;
    Ok (0, p')
  else
    do one <- check ONE input p;
    if one then
      do p' <- consume ONE input p;
      Ok (1, p')
    else Err (ParseError "Illegal symbol found. Bit constant was expected." p).

(** The [while (check(ZERO) || check(ONE))] loop of [parse_bits].  Every
    iteration consumes input, and at the end of the input both checks
    answer [false]: the distance to the end bounds the iterations. *)
Fixpoint parse_bits_loop (fuel : nat) (input : list char) (position : nat) (bits : Z)
  : result (Z * nat) :=
  match fuel with
  | O => Ok (bits, position)
  | S fuel' =>
      do zero <- check ZERO input position;
      do more <- (if zero then Ok true else check ONE input position);
      if more then
        do (bit, p) <- parse_bit input position;
        parse_bits_loop fuel' input p (Z.lor (wrap (Z.shiftl bits 1)) bit)
      else Ok (bits, position)
  end.

Definition parse_bits (input : list char) (position : nat) : result (Z * nat) :=
  let p := skip_whitespace input position in
  do (bit, p1) <- parse_bit input p;
  parse_bits_loop (length input - p1) input p1 bit.

Definition set_next_value (v : Z) (node : GotoNode) : GotoNode :=
  {| next := {| value := v; type := type (next node) |};
     next_if_zero := next_if_zero node; next_if_one := next_if_one node |}.

Definition set_next_if_zero (v : Z) (node : GotoNode) : GotoNode :=
  {| next := next node; next_if_zero := v; next_if_one := next_if_one node |}.

Definition set_next_if_one (v : Z) (node : GotoNode) : GotoNode :=
  {| next := next node; next_if_zero := next_if_zero node; next_if_one := v |}.

(** [if (check(EQUAL_TO)) consume(EQUAL_TO);] *)
Definition optional_EQUAL_TO (input : list char) (position : nat) : result nat :=
  do e <- check EQUAL_TO input position;
  if e then consume EQUAL_TO input position else Ok position.

Definition parse_goto (input : list char) (position : nat) : result (GotoNode * nat) :=
  let node := GotoNode_new in
  do p <- consume GOTO input position;
  do variable <- check VARIABLE input p;
  do p <- (if variable then
             do p' <- consume VARIABLE input p;
             (* node->next.type == ADDRESS_OF_A_BIT;  a comparison whose
                result is dropped: the node is not changed *)
             let _ := ValueType_eqb (type (next node)) ADDRESS_OF_A_BIT in
             Ok p'
           else Ok p);
  do (address1, p) <- parse_bits input p;
  do conditional <- check IF_THE_JUMP_REGISTER_IS input p;
  if conditional then
    do p <- consume IF_THE_JUMP_REGISTER_IS input p;
    do p <- optional_EQUAL_TO input p;
    do (bit1, p) <- parse_bit input p;
    let node :=
      if bit1 =? 0 then set_next_if_zero address1 node else set_next_if_one address1 node in
    do second <- check GOTO input p;
    if second then
      do p <- consume GOTO input p;
      do (address2, p) <- parse_bits input p;
      do p <- consume IF_THE_JUMP_REGISTER_IS input p;
      do p <- optional_EQUAL_TO input p;
      do (bit2, p) <- parse_bit input p;
      if bit1 =? bit2 then
        Err (ParseError
          "Illegal symbol found. Conditional goto with different bit constant was expected." p)
      else
        Ok ((if bit2 =? 0 then set_next_if_zero address2 node
             else set_next_if_one address2 node), p)
    else Ok (node, p)
  else Ok (set_next_value address1 node, p).

Definition text (s : string) : list char := String.list_ascii_of_string s.

(** * Vocabulary of the statements

    Texts, bit strings and sample programs that the properties below are
    stated on. *)

(** [spells symbol t]: the text [t] is the symbol with whitespace allowed
    before each of its characters, and nothing else. *)
Fixpoint spells (symbol : list char) (t : list char) : bool :=
  match t with
  | [] => match symbol with [] => true | _ :: _ => false end
  | c :: t' =>
      match symbol with
      | [] => false
      | k :: symbol' =>
          if is_whitespace c then spells symbol t'
          else Ascii.eqb c k && spells symbol' t'
      end
  end.

(** The first character of a text that is no whitespace. *)
Fixpoint next_character (t : list char) : option char :=
  match t with
  | [] => None
  | c :: t' => if is_whitespace c then next_character t' else Some c
  end.

(** The cursor [position] of [input] stands before [suffix]. *)
Definition At (input : list char) (position : nat) (suffix : list char) : Prop :=
  exists pre, input = pre ++ suffix /\ length pre = position.

(** The token of a bit and the symbol of a bit string, most significant bit
    first. *)
Definition word (b : bool) : string := if b then ONE else ZERO.

Definition bits_symbol (bs : list bool) : list char := flat_map (fun b => text (word b)) bs.

(** One round of the loop of [parse_bits] on the accumulator. *)
Definition shift_in (bits : Z) (b : bool) : Z := Z.lor (wrap (Z.shiftl bits 1)) (Z.b2z b).

(** What follows a bit string does not start another bit. *)
Definition bit_string_ends (rest : list char) : bool :=
  match next_character rest with
  | Some c => negb (Ascii.eqb c "Z"%char) && negb (Ascii.eqb c "O"%char)
  | None => true
  end.

(** The binary value of a bit string, most significant bit first. *)
Definition binary_value (bs : list bool) : Z :=
  fold_left (fun acc b => 2 * acc + Z.b2z b) bs 0.

(** What follows an unconditional goto starts neither a bit nor the
    condition. *)
Definition goto_ends (rest : list char) : bool :=
  match next_character rest with
  | Some c => negb (Ascii.eqb c "Z"%char) && negb (Ascii.eqb c "O"%char)
              && negb (Ascii.eqb c "I"%char)
  | None => true
  end.

(** One arm of a conditional goto behind its GOTO: the target, the
    condition, the optional EQUAL TO and the guard bit. *)
Definition arm_symbol (target : list bool) (equal_to : bool) (guard : bool) : list char :=
  bits_symbol target ++ text IF_THE_JUMP_REGISTER_IS
  ++ (if equal_to then text EQUAL_TO else []) ++ text (word guard).

(** Line 0 prints ZERO and goes to line 1, which prints ONE. *)
Definition print_zero_one : CodeNode :=
  {| lines :=
       <[0 := {| line_number := 0; instruction := Command {| print_value := 0 |};
                 go := Some (set_next_value 1 GotoNode_new) |}]>
       (<[1 := {| line_number := 1; instruction := Command {| print_value := 1 |};
                  go := None |}]> ∅);
     first_line_number := 0 |}.

(** Line 0 reads a bit and branches on it to line 2 or to line 3; line 3 is
    missing. *)
Definition read_and_branch : CodeNode :=
  {| lines :=
       <[0 := {| line_number := 0; instruction := Command {| print_value := -1 |};
                 go := Some (set_next_if_zero 3 (set_next_if_one 2 GotoNode_new)) |}]>
       (<[2 := {| line_number := 2; instruction := Command {| print_value := 1 |};
                  go := None |}]> ∅);
     first_line_number := 0 |}.

(** Where a run stands: at its start, before the first line, or in the
    loop of [CodeNode::run], before the line with the number [n]. *)
Inductive Place : Type :=
| AtStart
| AtLine (n : Z).

(** The run from a place on.  [CodeNode::run] executes the first line
    before its loop; the loop executes a line in each round. *)
Definition run_from (fuel : nat) (order : ArgumentOrder) (code : CodeNode)
    (place : Place) (s : State) : Run :=
  match place with
  | AtStart => CodeNode_run fuel order code s
  | AtLine n => CodeNode_run_loop (S fuel) order (lines code) n s
  end.

(** The line that is executed at a place: at the start the first line,
    whatever its number; in the loop the line of a number that is not
    negative. *)
Definition line_at (code : CodeNode) (place : Place) : option LineNode :=
  match place with
  | AtStart => lines code !! first_line_number code
  | AtLine n => if n >=? 0 then lines code !! n else None
  end.

(** The optional VARIABLE behind GOTO. *)
Definition marker_symbol (variable : bool) : list char :=
  if variable then text VARIABLE else [].

(** A line whose number is written with thirty-two ONE tokens, with a goto
    to the same number: both parse to -1. *)
Definition wrapped_goto_program : list char :=
  text "LINE NUMBER " ++ text (String.concat " " (replicate 32 ONE))
  ++ text " CODE PRINT ZERO GOTO VARIABLE " ++ text (String.concat " " (replicate 32 ONE)).

Definition wrapped_goto_code : CodeNode :=
  {| lines :=
       <[-1 := {| line_number := -1; instruction := Command {| print_value := 0 |};
                  go := Some GotoNode_new |}]> ∅;
     first_line_number := -1 |}.

(** * Vocabulary of the further properties *)

(** The content of a cell as [memory_read] reports it. *)
Definition content (s : State) (x : Z) : Value :=
  default {| value := 0; type := UNDEFINED |} (memory s !! x).

(** The state in which the cells of [R] that were never written have been
    entered into the map with [{0, UNDEFINED}]: all that a read changes. *)
Definition materialize (R : gset Z) (s : State) : State :=
  set_memory (memory s ∪ gset_to_gmap {| value := 0; type := UNDEFINED |} R) s.

(** A result with the function [f] applied to the state it carries. *)
Definition on_state {A : Type} (f : State -> State) (r : result (A * State))
  : result (A * State) :=
  match r with
  | Ok (a, s) => Ok (a, f s)
  | Err e => Err e
  end.

(** Two runs end alike: in the same state, at the same line with the same
    state, or both with an error. *)
Definition same_outcome (r1 r2 : Run) : Prop :=
  match r1, r2 with
  | Finished s1, Finished s2 => s1 = s2
  | Unfinished n1 s1, Unfinished n2 s2 => n1 = n2 /\ s1 = s2
  | Aborted _, Aborted _ => True
  | _, _ => False
  end.

(** The memory map holds ordinary addresses only, and every cell of kind
    Bit holds 0 or 1. *)
Definition memory_sound (s : State) : Prop :=
  forall (x : Z) (v : Value),
    memory s !! x = Some v ->
    0 <= x /\ (type v = BIT -> value v = 0 \/ value v = 1).

(** * The rest of the parser (region Parser)

    [parse_expression] calls itself through [parse_expression5] when it
    meets a parenthesis, and [parse_code] loops over the lines, so both are
    unrolled a bounded number of times.  A parser of this part returns
    [None] when the bound was reached before the parser came to an end,
    and [Some] of the result otherwise. *)

Definition Fueled (A : Type) : Type := option (result A).

Definition bindF {A B : Type} (m : Fueled A) (k : A -> Fueled B) : Fueled B :=
  match m with
  | Some (Ok a) => k a
  | Some (Err e) => Some (Err e)
  | None => None
  end.

(** [sub]: a step that may run out of fuel; [ask]: one that cannot. *)
Notation "'sub' x <- m ; k" := (bindF m (fun x => k))
  (at level 10, x pattern, m at level 100, k at level 200).
Notation "'ask' x <- m ; k" := (bindF (Some m) (fun x => k))
  (at level 10, x pattern, m at level 100, k at level 200).

(** [check(a) || check(b)] *)
Definition check_or (a b : string) (input : list char) (position : nat) : result bool :=
  do first <- check a input position;
  if first then Ok true else check b input position.

(** [parse_variable] returns a [VariableNode], a node with the one field
    [address]; the model returns the address. *)
Definition parse_variable (input : list char) (position : nat) : result (Z * nat) :=
  do variable <- check VARIABLE input position;
  if variable then
    do p <- consume VARIABLE input position;
    parse_bits input p
  else
    do register <- check THE_JUMP_REGISTER input position;
    if register then
      do p <- consume THE_JUMP_REGISTER input position;
      Ok (jump_register_address, p)
    else Err (ParseError "Illegal symbol found. Variable was expected." position).

Definition parse_command (input : list char) (position : nat) : result (CommandNode * nat) :=
  let p := skip_whitespace input position in
  do print <- check PRINT input p;
  if print then
    do p1 <- consume PRINT input p;
    do (bit, p2) <- parse_bit input p1;
    Ok ({| print_value := bit |}, p2)
  else
    do read <- check READ input p;
    if read then
      do p1 <- consume READ input p;
      Ok ({| print_value := -1 |}, p1)
    else Err (ParseError "Illegal symbol found. Command was expected." p).

Section Expressions.

(** The call of [parse_expression] inside the parentheses. *)
Variable parse_expression : list char -> nat -> Fueled (ExpressionNode * nat).

Definition parse_expression5 (input : list char) (position : nat)
  : Fueled (ExpressionNode * nat) :=
  let p := skip_whitespace input position in
  ask variable <- check_or VARIABLE THE_JUMP_REGISTER input p;
  if variable then
    ask (a, p1) <- parse_variable input p;
    Some (Ok (VariableNode a, p1))
  else
    ask bit <- check_or ZERO ONE input p;
    if bit then
      ask (constant, p1) <- parse_bits input p;
      Some (Ok (Expression5Node constant, p1))
    else
      ask parenthesis <- check OPEN_PARENTHESIS input p;
      if parenthesis then
        ask p1 <- consume OPEN_PARENTHESIS input p;
        sub (node, p2) <- parse_expression input p1;
        ask p3 <- consume CLOSE_PARENTHESIS input p2;
        Some (Ok (node, p3))
      else Some (Err (ParseError "Illegal symbol found. Expression was expected." p)).

Definition parse_expression4 (input : list char) (position : nat)
  : Fueled (ExpressionNode * nat) :=
  let p := skip_whitespace input position in
  ask at_ <- check THE_VALUE_AT input p;
  if at_ then
    ask p1 <- consume THE_VALUE_AT input p;
    sub (child, p2) <- parse_expression5 input p1;
    Some (Ok (Expression4Node child, p2))
  else parse_expression5 input p.

Definition parse_expression3 (input : list char) (position : nat)
  : Fueled (ExpressionNode * nat) :=
  let p := skip_whitespace input position in
  ask beyond <- check THE_VALUE_BEYOND input p;
  if beyond then
    ask p1 <- consume THE_VALUE_BEYOND input p;
    sub (child, p2) <- parse_expression4 input p1;
    Some (Ok (Expression3Node child, p2))
  else parse_expression4 input p.

Definition parse_expression2 (input : list char) (position : nat)
  : Fueled (ExpressionNode * nat) :=
  let p := skip_whitespace input position in
  ask address_of <- check THE_ADDRESS_OF input p;
  if address_of then
    ask p1 <- consume THE_ADDRESS_OF input p;
    sub (child, p2) <- parse_expression3 input p1;
    Some (Ok (Expression2Node child, p2))
  else parse_expression3 input p.

(** The body of [parse_expression]. *)
Definition parse_expression1 (input : list char) (position : nat)
  : Fueled (ExpressionNode * nat) :=
  let p := skip_whitespace input position in
  sub (left_, p1) <- parse_expression2 input p;
  ask nand <- check NAND input p1;
  if nand then
    ask p2 <- consume NAND input p1;
    sub (right_, p3) <- parse_expression2 input p2;
    Some (Ok (Expression1Node left_ (Some right_), p3))
  else Some (Ok (Expression1Node left_ None, p1)).

End Expressions.

(** [parse_expression], with [fuel] bounding the depth of the parentheses. *)
Fixpoint parse_expression (fuel : nat) (input : list char) (position : nat)
  : Fueled (ExpressionNode * nat) :=
  match fuel with
  | O => None
  | S fuel' => parse_expression1 (parse_expression fuel') input position
  end.

Definition parse_assignment (fuel : nat) (input : list char) (position : nat)
  : Fueled (AssignmentNode * nat) :=
  let p := skip_whitespace input position in
  ask variable <- check_or VARIABLE THE_JUMP_REGISTER input p;
  sub (target, p1) <-
    (if variable then
       ask (a, q) <- parse_variable input p;
       Some (Ok ((a, None), q))
     else
       sub (e, q) <- parse_expression fuel input p;
       Some (Ok ((INT_MIN, Some e), q)));
  ask p2 <- consume EQUALS input p1;
  sub (e, p3) <- parse_expression fuel input p2;
  Some (Ok ({| address := fst target; address_expression := snd target;
               expression := e |}, p3)).

Definition parse_instruction (fuel : nat) (input : list char) (position : nat)
  : Fueled (InstructionNode * nat) :=
  let p := skip_whitespace input position in
  ask command <- check_or PRINT READ input p;
  if command then
    ask (c, q) <- parse_command input p;
    Some (Ok (Command c, q))
  else
    sub (a, q) <- parse_assignment fuel input p;
    Some (Ok (Assignment a, q)).

Definition parse_line (fuel : nat) (input : list char) (position : nat)
  : Fueled (LineNode * nat) :=
  ask p1 <- consume LINE_NUMBER input position;
  ask (n, p2) <- parse_bits input p1;
  ask p3 <- consume CODE input p2;
  sub (i, p4) <- parse_instruction fuel input p3;
  ask goto <- check GOTO input p4;
  if goto then
    ask (g, p5) <- parse_goto input p4;
    Some (Ok ({| line_number := n; instruction := i; go := Some g |}, p5))
  else Some (Ok ({| line_number := n; instruction := i; go := None |}, p4)).

(** [node->lines[line->line_number] = *line;] *)
Definition add_line (line : LineNode) (node : CodeNode) : CodeNode :=
  {| lines := <[line_number line := line]> (lines node);
     first_line_number := first_line_number node |}.

(** The [while (check(LINE_NUMBER))] loop of [parse_code], unrolled at most
    [rounds] times. *)
Fixpoint parse_code_loop (rounds fuel : nat) (input : list char) (position : nat)
    (node : CodeNode) : Fueled (CodeNode * nat) :=
  ask more <- check LINE_NUMBER input position;
  if more then
    match rounds with
    | O => None
    | S rounds' =>
        sub (line, p) <- parse_line fuel input position;
        match lines node !! line_number line with
        | Some _ =>
            Some (Err (ParseError
              ("Line number is " +:+ to_string (line_number line) +:+ " already defined.")
              p))
        | None => parse_code_loop rounds' fuel input p (add_line line node)
        end
    end
  else Some (Ok (node, position)).

Definition parse_code (fuel : nat) (input : list char) (position : nat)
  : Fueled (CodeNode * nat) :=
  sub (line, p) <- parse_line fuel input position;
  let node :=
    {| lines := <[line_number line := line]> ∅; first_line_number := line_number line |} in
  parse_code_loop fuel fuel input (skip_whitespace input p) node.

(** [parse]: the cursor starts at 0; the memory it clears and the jump
    register it resets are [initial_state]. *)
Definition parse (fuel : nat) (input : list char) : Fueled CodeNode :=
  sub (code, p) <- parse_code fuel input 0;
  Some (Ok code).

(** What [parse_goto] can return: the target keeps its tag Bit, and the node
    is either unconditional, with no arm, or conditional, with no direct
    target. *)
Definition GotoNode_parsed (g : GotoNode) : Prop :=
  type (next g) = BIT
  /\ (value (next g) = -1 \/ (next_if_zero g = -1 /\ next_if_one g = -1)).

(** What [parse_instruction] can return: a command prints 0 or 1 or reads,
    and an assignment with a target expression has the address [INT_MIN]. *)
Definition InstructionNode_parsed (i : InstructionNode) : Prop :=
  match i with
  | Command c => print_value c = -1 \/ print_value c = 0 \/ print_value c = 1
  | Assignment a =>
      match address_expression a with
      | Some _ => address a = INT_MIN
      | None => True
      end
  end.

Definition LineNode_parsed (l : LineNode) : Prop :=
  InstructionNode_parsed (instruction l)
  /\ match go l with
     | Some g => GotoNode_parsed g
     | None => True
     end.

(** What [parse_code] can return: the first line is a line of the program,
    and every line is stored under its own number. *)
Definition CodeNode_parsed (code : CodeNode) : Prop :=
  is_Some (lines code !! first_line_number code)
  /\ forall (n : Z) (l : LineNode),
       lines code !! n = Some l -> line_number l = n /\ LineNode_parsed l.

(** ** The syntax of expressions

    The grammar of the header comment of the source, as data: an operand is
    a leaf behind up to three prefixes, in the order the parser looks for
    them, and an expression is one operand or two with NAND between them.
    A leaf is a variable, the jump register, a bit string or an expression
    in parentheses. *)

Record Prefixes : Type := mkPrefixes {
  with_address_of : bool;
  with_value_beyond : bool;
  with_value_at : bool
}.

Inductive Leaf : Type :=
| LVariable (b : bool) (bs : list bool)
| LJumpRegister
| LConstant (b : bool) (bs : list bool)
| LParenthesis (prefixes : Prefixes) (leaf : Leaf)
| LNand (prefixes_left : Prefixes) (leaf_left : Leaf)
        (prefixes_right : Prefixes) (leaf_right : Leaf).

Definition prefixes_symbol (f : Prefixes) : list char :=
  (if with_address_of f then text THE_ADDRESS_OF else [])
  ++ (if with_value_beyond f then text THE_VALUE_BEYOND else [])
  ++ (if with_value_at f then text THE_VALUE_AT else []).

(** The characters of a leaf, without any whitespace. *)
Fixpoint leaf_symbol (l : Leaf) : list char :=
  match l with
  | LVariable b bs => text VARIABLE ++ bits_symbol (b :: bs)
  | LJumpRegister => text THE_JUMP_REGISTER
  | LConstant b bs => bits_symbol (b :: bs)
  | LParenthesis f l' =>
      text OPEN_PARENTHESIS ++ (prefixes_symbol f ++ leaf_symbol l')
      ++ text CLOSE_PARENTHESIS
  | LNand f1 l1 f2 l2 =>
      text OPEN_PARENTHESIS
      ++ ((prefixes_symbol f1 ++ leaf_symbol l1) ++ text NAND
          ++ (prefixes_symbol f2 ++ leaf_symbol l2))
      ++ text CLOSE_PARENTHESIS
  end.

Definition operand_symbol (f : Prefixes) (l : Leaf) : list char :=
  prefixes_symbol f ++ leaf_symbol l.

(** The node that the prefixes build around the node of their leaf. *)
Definition prefixes_node (f : Prefixes) (n : ExpressionNode) : ExpressionNode :=
  let n4 := if with_value_at f then Expression4Node n else n in
  let n3 := if with_value_beyond f then Expression3Node n4 else n4 in
  if with_address_of f then Expression2Node n3 else n3.

Fixpoint leaf_node (l : Leaf) : ExpressionNode :=
  match l with
  | LVariable b bs => VariableNode (fold_left shift_in bs (Z.b2z b))
  | LJumpRegister => VariableNode jump_register_address
  | LConstant b bs => Expression5Node (fold_left shift_in bs (Z.b2z b))
  | LParenthesis f l' => Expression1Node (prefixes_node f (leaf_node l')) None
  | LNand f1 l1 f2 l2 =>
      Expression1Node (prefixes_node f1 (leaf_node l1))
                      (Some (prefixes_node f2 (leaf_node l2)))
  end.

Definition operand_node (f : Prefixes) (l : Leaf) : ExpressionNode :=
  prefixes_node f (leaf_node l).

(** The depth of the parentheses. *)
Fixpoint leaf_depth (l : Leaf) : nat :=
  match l with
  | LVariable _ _ | LJumpRegister | LConstant _ _ => O
  | LParenthesis _ l' => S (leaf_depth l')
  | LNand _ l1 _ l2 => S (Nat.max (leaf_depth l1) (leaf_depth l2))
  end.

(** What follows an expression starts neither a bit nor NAND. *)
Definition expression_ends (rest : list char) : bool :=
  match next_character rest with
  | Some c => negb (Ascii.eqb c "Z"%char) && negb (Ascii.eqb c "O"%char)
              && negb (Ascii.eqb c "N"%char)
  | None => true
  end.

(** The symbol [actual] parts from the symbol [expected] at a character
    that both have. *)
Fixpoint mismatch (expected actual : list char) : bool :=
  match expected, actual with
  | x :: expected', y :: actual' =>
      if Ascii.eqb y x then mismatch expected' actual' else true
  | _, _ => false
  end.

(** An expression: an operand, and a second one behind NAND. *)
Definition expression_symbol (f1 : Prefixes) (l1 : Leaf) (right : option (Prefixes * Leaf))
  : list char :=
  match right with
  | None => operand_symbol f1 l1
  | Some (f2, l2) => operand_symbol f1 l1 ++ text NAND ++ operand_symbol f2 l2
  end.

Definition expression_node (f1 : Prefixes) (l1 : Leaf) (right : option (Prefixes * Leaf))
  : ExpressionNode :=
  match right with
  | None => Expression1Node (operand_node f1 l1) None
  | Some (f2, l2) => Expression1Node (operand_node f1 l1) (Some (operand_node f2 l2))
  end.

Definition expression_depth (l1 : Leaf) (right : option (Prefixes * Leaf)) : nat :=
  match right with
  | None => leaf_depth l1
  | Some (_, l2) => Nat.max (leaf_depth l1) (leaf_depth l2)
  end.

(** The shape that [parse_expression2], [parse_expression3] and
    [parse_expression4] share: an optional keyword in front of the next
    level. *)
Definition prefix_level (keyword : string) (node : ExpressionNode -> ExpressionNode)
    (next_level : list char -> nat -> Fueled (ExpressionNode * nat))
    (input : list char) (position : nat) : Fueled (ExpressionNode * nat) :=
  let p := skip_whitespace input position in
  ask present <- check keyword input p;
  if present then
    ask p1 <- consume keyword input p;
    sub (child, p2) <- next_level input p1;
    Some (Ok (node child, p2))
  else next_level input p.

(** The parser [parser] reads every text of [symbol] in front of [rest] and
    returns [node]. *)
Definition reads {A : Type} (parser : list char -> nat -> Fueled (A * nat))
    (symbol : list char) (node : A) (input rest : list char) : Prop :=
  forall (t : list char) (p : nat),
    spells symbol t = true -> At input p (t ++ rest) ->
    parser input p = Some (Ok (node, (p + length t)%nat)).




(** The target of a goto as the parser builds it, read off the jump
    register. *)
Definition resolved (g : GotoNode) (register : Z) : Z :=
  if value (next g) >? -1 then value (next g)
  else if (next_if_zero g >? -1) && (register =? 0) then next_if_zero g
  else if (next_if_one g >? -1) && (register =? 1) then next_if_one g
  else -1.

(** Two lines, the second one without a goto. *)
Definition two_lines : list char :=
  text "LINE NUMBER ZERO CODE PRINT ZERO GOTO ONE LINE NUMBER ONE CODE PRINT ONE".

(** ** The syntax of programs

    The rest of the grammar as data.  An expression is one operand, or two
    with NAND between them. *)

Record Expression : Type := mkExpression {
  left_prefixes : Prefixes;
  left_leaf : Leaf;
  right_operand : option (Prefixes * Leaf)
}.

Definition Expression_symbol (e : Expression) : list char :=
  expression_symbol (left_prefixes e) (left_leaf e) (right_operand e).

Definition Expression_node (e : Expression) : ExpressionNode :=
  expression_node (left_prefixes e) (left_leaf e) (right_operand e).

Definition Expression_depth (e : Expression) : nat :=
  expression_depth (left_leaf e) (right_operand e).

(** A bit string that is not empty, and the number [parse_bits] returns
    for it. *)
Definition Bits : Type := (bool * list bool)%type.

Definition Bits_symbol (n : Bits) : list char := bits_symbol (fst n :: snd n).

Definition Bits_value (n : Bits) : Z := fold_left shift_in (snd n) (Z.b2z (fst n)).

(** The target of an assignment.  [parse_assignment] takes a target that
    starts with VARIABLE or THE JUMP REGISTER for a variable: a computed
    target is an expression that starts with a prefix, a bit or a
    parenthesis. *)
Inductive Target : Type :=
| TVariable (n : Bits)
| TJumpRegister
| TComputed (e : Expression).

Definition starts_with_variable (e : Expression) : bool :=
  negb (with_address_of (left_prefixes e))
  && negb (with_value_beyond (left_prefixes e))
  && negb (with_value_at (left_prefixes e))
  && match left_leaf e with
     | LVariable _ _ | LJumpRegister => true
     | _ => false
     end.

Inductive Instruction : Type :=
| IPrint (b : bool)
| IRead
| IAssignment (target : Target) (e : Expression).

(** A goto: a target, a target with a condition, or two targets with
    opposite conditions.  Only the first target can carry VARIABLE. *)
Inductive Goto : Type :=
| GDirect (variable : bool) (n : Bits)
| GOneArm (variable : bool) (n : Bits) (equal_to guard : bool)
| GTwoArms (variable : bool) (n1 : Bits) (equal_to1 guard : bool)
           (n2 : Bits) (equal_to2 : bool).

Record Line : Type := mkSyntaxLine {
  number : Bits;
  body : Instruction;
  jump : option Goto
}.

Definition Line_number (l : Line) : Z := Bits_value (number l).

Definition Target_symbol (target : Target) : list char :=
  match target with
  | TVariable n => text VARIABLE ++ Bits_symbol n
  | TJumpRegister => text THE_JUMP_REGISTER
  | TComputed e => Expression_symbol e
  end.

Definition Instruction_symbol (i : Instruction) : list char :=
  match i with
  | IPrint b => text PRINT ++ text (word b)
  | IRead => text READ
  | IAssignment target e => Target_symbol target ++ text EQUALS ++ Expression_symbol e
  end.

Definition Goto_symbol (g : Goto) : list char :=
  match g with
  | GDirect variable n => text GOTO ++ marker_symbol variable ++ Bits_symbol n
  | GOneArm variable n equal_to guard =>
      text GOTO ++ marker_symbol variable ++ arm_symbol (fst n :: snd n) equal_to guard
  | GTwoArms variable n1 equal_to1 guard n2 equal_to2 =>
      text GOTO ++ marker_symbol variable ++ arm_symbol (fst n1 :: snd n1) equal_to1 guard
      ++ text GOTO ++ arm_symbol (fst n2 :: snd n2) equal_to2 (negb guard)
  end.

Definition Line_symbol (l : Line) : list char :=
  text LINE_NUMBER ++ Bits_symbol (number l) ++ text CODE ++ Instruction_symbol (body l)
  ++ match jump l with
     | Some g => Goto_symbol g
     | None => []
     end.

Definition program_symbol (ls : list Line) : list char := flat_map Line_symbol ls.

Definition Instruction_node (i : Instruction) : InstructionNode :=
  match i with
  | IPrint b => Command {| print_value := Z.b2z b |}
  | IRead => Command {| print_value := -1 |}
  | IAssignment (TVariable n) e =>
      Assignment {| address := Bits_value n; address_expression := None;
                    expression := Expression_node e |}
  | IAssignment TJumpRegister e =>
      Assignment {| address := jump_register_address; address_expression := None;
                    expression := Expression_node e |}
  | IAssignment (TComputed target) e =>
      Assignment {| address := INT_MIN; address_expression := Some (Expression_node target);
                    expression := Expression_node e |}
  end.

Definition arm_node (guard : bool) (target : Z) (node : GotoNode) : GotoNode :=
  if guard then set_next_if_one target node else set_next_if_zero target node.

Definition Goto_node (g : Goto) : GotoNode :=
  match g with
  | GDirect _ n => set_next_value (Bits_value n) GotoNode_new
  | GOneArm _ n _ guard => arm_node guard (Bits_value n) GotoNode_new
  | GTwoArms _ n1 _ guard n2 _ =>
      arm_node (negb guard) (Bits_value n2) (arm_node guard (Bits_value n1) GotoNode_new)
  end.

Definition Line_node (l : Line) : LineNode :=
  {| line_number := Bits_value (number l);
     instruction := Instruction_node (body l);
     go := option_map Goto_node (jump l) |}.

(** The program of the lines [first :: others], built as [parse_code]
    builds it. *)
Definition program_node (first : Line) (others : list Line) : CodeNode :=
  fold_left (fun node l => add_line (Line_node l) node) others
    {| lines := <[Bits_value (number first) := Line_node first]> ∅;
       first_line_number := Bits_value (number first) |}.

(** What the parser needs of a line besides its text: a computed target
    does not start like a variable, and the bound on the calls of
    [parse_expression] in progress is above the depth of the parentheses. *)
Definition Instruction_fits (fuel : nat) (i : Instruction) : bool :=
  match i with
  | IPrint _ | IRead => true
  | IAssignment target e =>
      (Expression_depth e <? fuel)%nat
      && match target with
         | TComputed e' => negb (starts_with_variable e') && (Expression_depth e' <? fuel)%nat
         | _ => true
         end
  end.

(** What follows a line starts nothing that continues it. *)
Definition line_ends (rest : list char) : bool :=
  match next_character rest with
  | Some c => negb (Ascii.eqb c "Z"%char) && negb (Ascii.eqb c "O"%char)
              && negb (Ascii.eqb c "N"%char) && negb (Ascii.eqb c "G"%char)
              && negb (Ascii.eqb c "I"%char)
  | None => true
  end.

(** What follows a program starts neither a continuation of its last line
    nor another line. *)
Definition program_ends (rest : list char) : bool :=
  line_ends rest
  && match next_character rest with
     | Some c => negb (Ascii.eqb c "L"%char)
     | None => true
     end.

(** * Properties of the evaluator *)

Section Evaluator.

Implicit Types (s : State) (v : Value) (e : ExpressionNode).

Lemma memory_read_jump_register s :
  memory_read jump_register_address s = Ok ({| value := jump_register s; type := BIT |}, s).
Proof. reflexivity. Qed.

(** What a read of an ordinary cell returns: the stored value, or
    [{0, UNDEFINED}] for a cell that was never written. *)
Lemma memory_read_ordinary (x : Z) s :
  0 <= x ->
  exists s', memory_read x s = Ok (default {| value := 0; type := UNDEFINED |} (memory s !! x), s')
             /\ jump_register s' = jump_register s.
Proof.
  intros Hx. unfold memory_read, jump_register_address.
  destruct (x =? -1) eqn:E1; [lia|].
  destruct (x >? -1) eqn:E2; [|lia].
  destruct (memory s !! x) as [w|]; simpl; eauto.
Qed.

Lemma memory_write_jump_register v s s' :
  memory_write jump_register_address v s = Ok s' ->
  jump_register s' = value v /\ memory s' = memory s /\ type v <> ADDRESS_OF_A_BIT
  /\ (type v = BIT -> value v = 0 \/ value v = 1).
Proof.
  unfold memory_write, jump_register_address. destruct v as [n t]; simpl.
  destruct t; simpl; repeat case_match; intros; simplify_eq; simpl;
    repeat split; try done; intros; lia.
Qed.

Lemma memory_write_accepts (a : Z) v s :
  ~ (type v = BIT /\ value v <> 0 /\ value v <> 1) ->
  ~ (a = jump_register_address /\ type v = ADDRESS_OF_A_BIT) ->
  (jump_register_address <= a -> is_ok (memory_write a v s) = true)
  /\ (a < jump_register_address -> is_runtime_error (memory_write a v s) = true).
Proof.
  unfold memory_write, jump_register_address, ValueType_eqb.
  destruct v as [n t]; simpl. intros Hbit Haob.
  split; intros Ha; destruct t; simpl; repeat (case_match; simpl);
    try done; try lia;
    try (exfalso; apply Hbit; repeat split; (done || lia));
    try (exfalso; apply Haob; split; (done || lia)).
Qed.

(** ** NAND *)

Lemma Expression1Node_value_pair l r s vl s1 vr s2 :
  ExpressionNode_value l s = Ok (vl, s1) ->
  ExpressionNode_value r s1 = Ok (vr, s2) ->
  ExpressionNode_value (Expression1Node l (Some r)) s =
    if (value vl =? 2) || (value vr =? 2)
    then Err (RuntimeError "The NAND operator requires bit values.")
    else Ok ({| value := Z.lnot (Z.land (value vl) (value vr)); type := BIT |}, s2).
Proof.
  intros Hl Hr. simpl. unfold Expression1Node_value. by rewrite Hl; simpl; rewrite Hr.
Qed.

Lemma Expression1Node_value_single l s :
  ExpressionNode_value (Expression1Node l None) s = ExpressionNode_value l s.
Proof.
  simpl. unfold Expression1Node_value.
  by destruct (ExpressionNode_value l s) as [[w s1]|err].
Qed.

(** C1, as the code computes it: a NAND node over two operands of kind Bit
    with payloads [a] and [b] returns the complement of [a AND b] taken on the
    whole [int], tagged Bit.  That is -1 for the pairs (0,0), (0,1), (1,0)
    and -2 for (1,1), and not [1 - (a AND b)]. *)
Theorem Expression1Node_value_of_bits l r s s1 s2 (a b : bool) :
  ExpressionNode_value l s = Ok ({| value := Z.b2z a; type := BIT |}, s1) ->
  ExpressionNode_value r s1 = Ok ({| value := Z.b2z b; type := BIT |}, s2) ->
  ExpressionNode_value (Expression1Node l (Some r)) s =
    Ok ({| value := - 1 - Z.b2z (a && b); type := BIT |}, s2).
Proof.
  intros Hl Hr. rewrite (Expression1Node_value_pair _ _ _ _ _ _ _ Hl Hr). simpl.
  by destruct a, b.
Qed.

Lemma Expression1Node_value_of_bits_witness :
  ExpressionNode_value
    (Expression1Node (VariableNode jump_register_address)
                     (Some (VariableNode jump_register_address)))
    (initial_state []) =
  Ok ({| value := -1; type := BIT |}, initial_state []).
Proof.
  apply (Expression1Node_value_of_bits _ _ _ (initial_state []) _ false false);
    reflexivity.
Defined.

(** The four rows of the table the code produces, with the operands read
    from two cells that hold bits. *)
Example nand_table_as_coded (a b : bool) :
  let s := set_memory (<[0 := mkValue (Z.b2z a) BIT]> (<[1 := mkValue (Z.b2z b) BIT]> ∅))
                      (initial_state []) in
  ExpressionNode_value (Expression1Node (VariableNode 0) (Some (VariableNode 1))) s =
  Ok ({| value := if a && b then -2 else -1; type := BIT |}, s).
Proof. by destruct a, b. Qed.

(** The result of a single NAND is a Bit that [memory_write] refuses. *)
Example nand_result_is_refused (order : ArgumentOrder) :
  AssignmentNode_run order
    {| address := jump_register_address; address_expression := None;
       expression := Expression1Node (VariableNode jump_register_address)
                                     (Some (VariableNode jump_register_address)) |}
    (initial_state []) =
  Err (RuntimeError "Illegal value: -1").
Proof. reflexivity. Qed.

(** C6, amended: a NAND node with a right operand is evaluated without an
    error when each operand is a Bit (payload 0 or 1) or a value of kind
    Undefined with a payload other than 2; an operand whose kind is not Bit
    does not make the evaluation fail. *)
Theorem Expression1Node_value_succeeds l r s vl s1 vr s2 :
  ExpressionNode_value l s = Ok (vl, s1) ->
  ExpressionNode_value r s1 = Ok (vr, s2) ->
  (type vl = BIT /\ (value vl = 0 \/ value vl = 1)) \/ (type vl = UNDEFINED /\ value vl <> 2) ->
  (type vr = BIT /\ (value vr = 0 \/ value vr = 1)) \/ (type vr = UNDEFINED /\ value vr <> 2) ->
  ExpressionNode_value (Expression1Node l (Some r)) s =
    Ok ({| value := Z.lnot (Z.land (value vl) (value vr)); type := BIT |}, s2).
Proof.
  intros Hl Hr Al Ar. rewrite (Expression1Node_value_pair _ _ _ _ _ _ _ Hl Hr).
  assert (value vl <> 2) by (destruct Al as [[_ [?|?]]|[_ ?]]; lia).
  assert (value vr <> 2) by (destruct Ar as [[_ [?|?]]|[_ ?]]; lia).
  destruct (value vl =? 2) eqn:E1; [lia|].
  destruct (value vr =? 2) eqn:E2; [lia|]. done.
Qed.

Lemma Expression1Node_value_succeeds_witness :
  ExpressionNode_value
    (Expression1Node (VariableNode jump_register_address) (Some (Expression5Node 1)))
    (initial_state []) =
  Ok ({| value := -1; type := BIT |}, initial_state []).
Proof.
  apply (Expression1Node_value_succeeds _ _ _
           {| value := 0; type := BIT |} (initial_state [])
           {| value := 1; type := UNDEFINED |} (initial_state []));
    [reflexivity | reflexivity | left; split; [reflexivity | left; reflexivity]
    | right; split; [reflexivity | simpl; lia]].
Defined.

(** C6, as stated, fails: both operands of [ZERO NAND ZERO] have kind
    Undefined, not Bit, and the node is evaluated without an error. *)
Lemma nand_of_constants_succeeds :
  ExpressionNode_value (Expression5Node 0) (initial_state []) =
    Ok ({| value := 0; type := UNDEFINED |}, initial_state [])
  /\ is_runtime_error
       (ExpressionNode_value (Expression1Node (Expression5Node 0) (Some (Expression5Node 0)))
          (initial_state [])) = false
  /\ is_ok
       (ExpressionNode_value (Expression1Node (Expression5Node 0) (Some (Expression5Node 0)))
          (initial_state [])) = true.
Proof. done. Qed.

(** ** THE ADDRESS OF *)

Lemma Expression2Node_value_after c s v s1 :
  ExpressionNode_value c s = Ok (v, s1) ->
  ExpressionNode_value (Expression2Node c) s =
    if value v =? 2 then
      Err (RuntimeError "The THE ADDRESS OF operator requires a bit value.")
    else if value v <? -1 then
      Err (RuntimeError ("Invalid memory address: " +:+ to_string (value v) +:+ "."))
    else if value v =? -1 then
      Err (RuntimeError "The THE ADDRESS OF operator can't be used with the jump register.")
    else Ok ({| value := value v; type := ADDRESS_OF_A_BIT |}, s1).
Proof. intros Hc. simpl. unfold Expression2Node_value. by rewrite Hc. Qed.

(** C2, as the code evaluates it: THE ADDRESS OF fails on an operand that
    evaluates to the jump register's address, returns the operand's payload
    tagged AddressOfBit for every non-negative payload except 2, and fails
    on the payload 2, which it takes for the type tag of an address. *)
Theorem Expression2Node_value_cases c s v s1 :
  ExpressionNode_value c s = Ok (v, s1) ->
  (value v = jump_register_address ->
     ExpressionNode_value (Expression2Node c) s =
     Err (RuntimeError "The THE ADDRESS OF operator can't be used with the jump register."))
  /\ (0 <= value v -> value v <> 2 ->
     ExpressionNode_value (Expression2Node c) s =
     Ok ({| value := value v; type := ADDRESS_OF_A_BIT |}, s1))
  /\ (value v = 2 ->
     ExpressionNode_value (Expression2Node c) s =
     Err (RuntimeError "The THE ADDRESS OF operator requires a bit value.")).
Proof.
  intros Hc. rewrite (Expression2Node_value_after _ _ _ _ Hc).
  unfold jump_register_address.
  repeat split; intros; by repeat case_match; try lia.
Qed.

Lemma Expression2Node_value_cases_witness :
  ExpressionNode_value (Expression2Node (Expression5Node 2)) (initial_state []) =
  Err (RuntimeError "The THE ADDRESS OF operator requires a bit value.").
Proof.
  apply (Expression2Node_value_cases (Expression5Node 2) (initial_state [])
           {| value := 2; type := UNDEFINED |} (initial_state []));
    reflexivity.
Defined.

(** ** THE VALUE AT over THE ADDRESS OF *)

(** C3, amended: for an operand that evaluates to an ordinary address [x >= 0]
    other than 1 and 2 whose cell does not hold the payload 2, THE VALUE AT
    applied to THE ADDRESS OF the operand returns the current content of
    cell [x], which is [{0, UNDEFINED}] for a cell never written; this holds
    with and without the parentheses around the inner expression.  At the
    jump register's address the evaluation fails with a runtime error. *)
Theorem value_at_address_of c s v s1 :
  ExpressionNode_value c s = Ok (v, s1) ->
  (value v = jump_register_address ->
     is_runtime_error (ExpressionNode_value (Expression4Node (Expression2Node c)) s) = true)
  /\ (0 <= value v -> value v <> 1 -> value v <> 2 ->
      value (default {| value := 0; type := UNDEFINED |} (memory s1 !! value v)) <> 2 ->
      exists s2,
        memory_read (value v) s1 =
          Ok (default {| value := 0; type := UNDEFINED |} (memory s1 !! value v), s2)
        /\ ExpressionNode_value (Expression4Node (Expression2Node c)) s =
             memory_read (value v) s1
        /\ ExpressionNode_value (Expression4Node (Expression1Node (Expression2Node c) None)) s =
             memory_read (value v) s1).
Proof.
  intros Hc. pose proof (Expression2Node_value_after c s v s1 Hc) as Haddress.
  unfold jump_register_address. split.
  - intros Hv. simpl in *. unfold Expression4Node_value.
    rewrite Haddress, Hv. done.
  - intros H0 H1 H2 Hcell.
    assert (Hord : ExpressionNode_value (Expression2Node c) s =
                   Ok ({| value := value v; type := ADDRESS_OF_A_BIT |}, s1)).
    { rewrite Haddress. by repeat case_match; try lia. }
    destruct (memory_read_ordinary (value v) s1 H0) as (s2 & Hread & _).
    exists s2. split; [done|].
    assert (Hat : forall inner,
      ExpressionNode_value inner s =
        Ok ({| value := value v; type := ADDRESS_OF_A_BIT |}, s1) ->
      ExpressionNode_value (Expression4Node inner) s = memory_read (value v) s1).
    { intros inner Hinner. simpl. unfold Expression4Node_value.
      rewrite Hinner; simpl.
      destruct (value v =? 1) eqn:E1; [lia|].
      destruct (value v <? 0) eqn:E0; [lia|].
      rewrite Hread; simpl.
      by destruct (value (default _ _) =? 2) eqn:E2; [lia|]. }
    split; apply Hat.
    + done.
    + by rewrite Expression1Node_value_single.
Qed.

Lemma value_at_address_of_witness :
  ExpressionNode_value (Expression4Node (Expression2Node (Expression5Node 5)))
    (set_memory (<[5 := {| value := 1; type := BIT |}]> ∅) (initial_state [])) =
  Ok ({| value := 1; type := BIT |},
      set_memory (<[5 := {| value := 1; type := BIT |}]> ∅) (initial_state [])).
Proof.
  destruct (value_at_address_of (Expression5Node 5)
              (set_memory (<[5 := {| value := 1; type := BIT |}]> ∅) (initial_state []))
              {| value := 5; type := UNDEFINED |}
              (set_memory (<[5 := {| value := 1; type := BIT |}]> ∅) (initial_state []))
              eq_refl) as [_ H].
  destruct H as (s2 & _ & H & _); [simpl; lia | simpl; lia | simpl; lia | vm_compute; lia |].
  rewrite H. reflexivity.
Defined.

(** C3, as stated, fails at the reserved minimum, the jump register's
    address: the cell has a content, and the round trip raises a runtime
    error. *)
Lemma value_at_address_of_jump_register_fails :
  memory_read jump_register_address (initial_state []) =
    Ok ({| value := 0; type := BIT |}, initial_state [])
  /\ ExpressionNode_value (Expression5Node jump_register_address) (initial_state []) =
    Ok ({| value := jump_register_address; type := UNDEFINED |}, initial_state [])
  /\ ExpressionNode_value
       (Expression4Node (Expression2Node (Expression5Node jump_register_address)))
       (initial_state []) =
     Err (RuntimeError "The THE ADDRESS OF operator can't be used with the jump register.").
Proof. done. Qed.

(** THE ADDRESS OF a variable node takes the content of the variable for
    the address: the variable node is evaluated like any other operand. *)
Example address_of_variable_reads_the_variable (x : Z) s w :
  0 <= x -> memory s !! x = Some w -> 0 <= value w -> value w <> 2 ->
  ExpressionNode_value (Expression2Node (VariableNode x)) s =
  Ok ({| value := value w; type := ADDRESS_OF_A_BIT |}, s).
Proof.
  intros Hx Hw H0 H2.
  rewrite (Expression2Node_value_after (VariableNode x) s w s).
  - by repeat case_match; try lia.
  - simpl. unfold VariableNode_value, memory_read, jump_register_address.
    destruct (x >=? -1) eqn:E; [|lia].
    destruct (x =? -1) eqn:E1; [lia|].
    destruct (x >? -1) eqn:E2; [|lia]. by rewrite Hw.
Qed.

(** Where the round trip stops for another reason: at the addresses 1 and
    2, which the two operators take for type tags, and at a cell that holds
    the payload 2. *)
Example value_at_address_of_tag_values :
  ExpressionNode_value (Expression4Node (Expression2Node (Expression5Node 1)))
    (initial_state []) =
  Err (RuntimeError "The THE VALUE BEYOND operator requires an address-of-a-bit value.")
  /\ ExpressionNode_value (Expression4Node (Expression2Node (Expression5Node 2)))
    (initial_state []) =
  Err (RuntimeError "The THE ADDRESS OF operator requires a bit value.")
  /\ ExpressionNode_value (Expression4Node (Expression2Node (Expression5Node 0)))
    (set_memory (<[0 := {| value := 2; type := UNDEFINED |}]> ∅) (initial_state [])) =
  Err (RuntimeError "Variable must contain a bit value.").
Proof. done. Qed.

(** ** Writes to the jump register *)

(** C4, as the code runs it: an assignment of a bit-string constant to the
    jump register stores the constant's payload whatever it is, since the
    constant has kind Undefined and [memory_write] checks the payload of Bit
    values only. *)
Theorem jump_register_stores_any_constant (order : ArgumentOrder) (n : Z) s :
  AssignmentNode_run order
    {| address := jump_register_address; address_expression := None;
       expression := Expression1Node (Expression5Node n) None |} s =
  Ok (set_jump_register n s).
Proof. reflexivity. Qed.

(** After [THE JUMP REGISTER EQUALS ONE ZERO] the register holds 2, reads
    back as the Bit 2, and [memory_write] refuses to copy it. *)
Example jump_register_two (order : ArgumentOrder) :
  exists s,
    AssignmentNode_run order
      {| address := jump_register_address; address_expression := None;
         expression := Expression1Node (Expression5Node 2) None |} (initial_state []) = Ok s
    /\ jump_register s = 2
    /\ memory_read jump_register_address s = Ok ({| value := 2; type := BIT |}, s)
    /\ AssignmentNode_run order
         {| address := 0; address_expression := None;
            expression := Expression1Node (VariableNode jump_register_address) None |} s =
       Err (RuntimeError "Illegal value: 2").
Proof. eexists. repeat split. Qed.

(** ** Assignments to a computed address *)

(** C10, amended: an assignment whose target is an expression writes to the
    payload of the target's value, whatever the kind of that value.  When
    [memory_write] accepts the written value at that address (not a Bit with
    a payload outside 0 and 1, not an address-of-a-bit for the jump
    register), the write succeeds from the jump register's address upwards
    and raises a runtime error below it. *)
Theorem AssignmentNode_run_computed_target (order : ArgumentOrder) a e s t v s1 :
  address a < jump_register_address ->
  address_expression a = Some e ->
  AssignmentNode_arguments order e (expression a) s = Ok (t, v, s1) ->
  AssignmentNode_run order a s = memory_write (value t) v s1
  /\ (~ (type v = BIT /\ value v <> 0 /\ value v <> 1) ->
      ~ (value t = jump_register_address /\ type v = ADDRESS_OF_A_BIT) ->
      (jump_register_address <= value t -> is_ok (AssignmentNode_run order a s) = true)
      /\ (value t < jump_register_address ->
          is_runtime_error (AssignmentNode_run order a s) = true)).
Proof.
  intros Ha He Hargs.
  assert (Hrun : AssignmentNode_run order a s = memory_write (value t) v s1).
  { unfold AssignmentNode_run. destruct (address a >=? jump_register_address) eqn:E; [lia|].
    by rewrite He, Hargs. }
  split; [done|].
  intros Hbit Haob. rewrite Hrun. by apply memory_write_accepts.
Qed.

Lemma AssignmentNode_run_computed_target_witness :
  AssignmentNode_run LeftToRight
    {| address := INT_MIN; address_expression := Some (Expression1Node (Expression5Node 5) None);
       expression := Expression1Node (Expression5Node 1) None |} (initial_state []) =
  memory_write 5 {| value := 1; type := UNDEFINED |} (initial_state []).
Proof.
  apply (AssignmentNode_run_computed_target LeftToRight
           {| address := INT_MIN;
              address_expression := Some (Expression1Node (Expression5Node 5) None);
              expression := Expression1Node (Expression5Node 1) None |}
           (Expression1Node (Expression5Node 5) None) (initial_state [])
           {| value := 5; type := UNDEFINED |} {| value := 1; type := UNDEFINED |}
           (initial_state []));
    [vm_compute; reflexivity | reflexivity | reflexivity].
Defined.

(** Three targets of the kinds Undefined, Bit and AddressOfBit with the
    payload 1 write to the same cell: [ONE], the parenthesized jump register
    when it holds 1, and [THE ADDRESS OF ONE]. *)
Example computed_target_kinds (order : ArgumentOrder) :
  let s := set_jump_register 1 (initial_state []) in
  let run target :=
    AssignmentNode_run order
      {| address := INT_MIN; address_expression := Some target;
         expression := Expression1Node (Expression5Node 0) None |} s in
  run (Expression1Node (Expression5Node 1) None)
    = Ok (set_memory (<[1 := {| value := 0; type := UNDEFINED |}]> ∅) s)
  /\ run (Expression1Node (VariableNode jump_register_address) None)
    = Ok (set_memory (<[1 := {| value := 0; type := UNDEFINED |}]> ∅) s)
  /\ run (Expression1Node (Expression2Node (Expression5Node 1)) None)
    = Ok (set_memory (<[1 := {| value := 0; type := UNDEFINED |}]> ∅) s).
Proof. destruct order; done. Qed.

(** C10, as stated, fails: the write raises a runtime error although the
    target's payload is not below the reserved minimum.  [ZERO EQUALS ONE
    NAND ONE] writes to address 0 the value [{-2, BIT}]; the second
    assignment writes an address-of-a-bit to the jump register's address. *)
Lemma computed_target_write_rejects_value :
  AssignmentNode_run LeftToRight
    {| address := INT_MIN;
       address_expression := Some (Expression1Node (Expression5Node 0) None);
       expression := Expression1Node (Expression5Node 1) (Some (Expression5Node 1)) |}
    (initial_state []) =
  Err (RuntimeError "Illegal value: -2")
  /\ AssignmentNode_run RightToLeft
    {| address := INT_MIN;
       address_expression := Some (Expression1Node (Expression5Node 0) None);
       expression := Expression1Node (Expression5Node 1) (Some (Expression5Node 1)) |}
    (initial_state []) =
  Err (RuntimeError "Illegal value: -2")
  /\ AssignmentNode_run LeftToRight
    {| address := INT_MIN;
       address_expression := Some (Expression1Node (Expression5Node (-1)) None);
       expression := Expression1Node (Expression2Node (Expression5Node 0)) None |}
    (initial_state []) =
  Err (RuntimeError "The jump register can't store address-of-a-bit values.")
  /\ AssignmentNode_run RightToLeft
    {| address := INT_MIN;
       address_expression := Some (Expression1Node (Expression5Node (-1)) None);
       expression := Expression1Node (Expression2Node (Expression5Node 0)) None |}
    (initial_state []) =
  Err (RuntimeError "The jump register can't store address-of-a-bit values.").
Proof. repeat split. Qed.

(** ** Control flow *)

Lemma GotoNode_next_line_number_direct (g : GotoNode) s :
  value (next g) > -1 -> type (next g) <> ADDRESS_OF_A_BIT ->
  GotoNode_next_line_number g s = Ok (value (next g), s).
Proof.
  intros Hv Ht. unfold GotoNode_next_line_number.
  destruct (value (next g) >? -1) eqn:E; [|lia].
  by destruct (type (next g)).
Qed.

Lemma GotoNode_next_line_number_arms (g : GotoNode) s :
  value (next g) <= -1 ->
  GotoNode_next_line_number g s =
    Ok (if (next_if_zero g >? -1) && (jump_register s =? 0) then next_if_zero g
        else if (next_if_one g >? -1) && (jump_register s =? 1) then next_if_one g
        else -1, s).
Proof.
  intros Hv. unfold GotoNode_next_line_number.
  destruct (value (next g) >? -1) eqn:E; [lia|].
  by repeat case_match.
Qed.

(** The loop of [CodeNode::run] ends at a negative number and stops at a
    number that is no line of the program. *)
Lemma CodeNode_run_loop_negative (fuel : nat) (order : ArgumentOrder)
    (lines : gmap Z LineNode) (t : Z) s :
  t < 0 -> CodeNode_run_loop fuel order lines t s = Finished s.
Proof. intros Ht. destruct fuel; simpl; by destruct (t >=? 0) eqn:E; [lia|]. Qed.

Lemma CodeNode_run_loop_missing (fuel : nat) (order : ArgumentOrder)
    (lines : gmap Z LineNode) (t : Z) s :
  0 <= t -> lines !! t = None ->
  CodeNode_run_loop (S fuel) order lines t s =
  Aborted (RuntimeError ("No line exists with number " +:+ to_string t +:+ ".")).
Proof. intros Ht Hnone. simpl. destruct (t >=? 0) eqn:E; [|lia]. by rewrite Hnone. Qed.

(** One line of a run, the first one or one in the loop: the instruction,
    then the goto, then the loop from the resolved number. *)
Lemma run_from_step (fuel : nat) (order : ArgumentOrder) (code : CodeNode)
    (place : Place) (line : LineNode) s s1 :
  line_at code place = Some line ->
  InstructionNode_run order (instruction line) s = Ok s1 ->
  run_from fuel order code place s =
  match go line with
  | None => Finished s1
  | Some g =>
      match GotoNode_next_line_number g s1 with
      | Err e => Aborted e
      | Ok (t, s2) => CodeNode_run_loop fuel order (lines code) t s2
      end
  end.
Proof.
  intros Hline Hrun. destruct place as [|n]; simpl in *.
  - unfold CodeNode_run. by rewrite Hline, Hrun.
  - destruct (n >=? 0); [|done]. by rewrite Hline, Hrun.
Qed.

(** C7: after the instruction of a line has run, be it the first line of
    the run or a line that the loop has come to, a line without a goto
    ends the run; a goto with a direct target (a target above -1) resolves
    to it; otherwise the zero-arm or the one-arm is taken when it is
    present and the jump register holds its bit, and the goto resolves to
    -1 when neither is; a negative resolved number ends the run, a
    non-negative one continues with that line, and a non-negative one
    that is no line of the program raises the runtime error. *)
Theorem next_line_resolution (fuel : nat) (order : ArgumentOrder) (code : CodeNode)
    (place : Place) (line : LineNode) s s1 :
  line_at code place = Some line ->
  InstructionNode_run order (instruction line) s = Ok s1 ->
  (go line = None -> run_from fuel order code place s = Finished s1)
  /\ (forall g, go line = Some g ->
      (value (next g) > -1 -> type (next g) <> ADDRESS_OF_A_BIT ->
         GotoNode_next_line_number g s1 = Ok (value (next g), s1))
      /\ (value (next g) > -1 -> type (next g) = ADDRESS_OF_A_BIT ->
         GotoNode_next_line_number g s1 =
           (do (v, s2) <- memory_read (value (next g)) s1; Ok (value v, s2)))
      /\ (value (next g) <= -1 ->
         GotoNode_next_line_number g s1 =
           Ok (if (next_if_zero g >? -1) && (jump_register s1 =? 0) then next_if_zero g
               else if (next_if_one g >? -1) && (jump_register s1 =? 1) then next_if_one g
               else -1, s1))
      /\ (forall t s2, GotoNode_next_line_number g s1 = Ok (t, s2) ->
          run_from fuel order code place s = CodeNode_run_loop fuel order (lines code) t s2
          /\ (t < 0 -> run_from fuel order code place s = Finished s2)
          /\ (0 <= t ->
              run_from (S fuel) order code place s = run_from fuel order code (AtLine t) s2
              /\ line_at code (AtLine t) = lines code !! t)
          /\ (0 <= t -> lines code !! t = None ->
              run_from (S fuel) order code place s =
              Aborted (RuntimeError
                ("No line exists with number " +:+ to_string t +:+ ".")))))
  /\ (forall t s', 0 <= t -> lines code !! t = None ->
      run_from fuel order code (AtLine t) s' =
      Aborted (RuntimeError ("No line exists with number " +:+ to_string t +:+ "."))).
Proof.
  intros Hline Hrun.
  pose proof (fun k => run_from_step k order code place line s s1 Hline Hrun) as Hstep.
  split; [|split].
  - intros Hgo. by rewrite Hstep, Hgo.
  - intros g Hgo. split; [|split; [|split]].
    + apply GotoNode_next_line_number_direct.
    + intros Hv Ht. unfold GotoNode_next_line_number.
      destruct (value (next g) >? -1) eqn:E; [|lia]. by rewrite Ht.
    + apply GotoNode_next_line_number_arms.
    + intros t s2 Hnext. split; [|split; [|split]].
      * by rewrite Hstep, Hgo, Hnext.
      * intros Ht. rewrite Hstep, Hgo, Hnext. by apply CodeNode_run_loop_negative.
      * intros Ht. split.
        -- by rewrite Hstep, Hgo, Hnext.
        -- simpl. by destruct (t >=? 0) eqn:E; [|lia].
      * intros Ht Hnone. rewrite Hstep, Hgo, Hnext. by apply CodeNode_run_loop_missing.
  - intros t s' Ht Hnone. by apply CodeNode_run_loop_missing.
Qed.

End Evaluator.

(** * Properties of the scanner *)

Section Scanner.

Local Open Scope nat_scope.

Implicit Types (input t rest suffix symbol : list char) (c k : char) (p : nat).

Lemma At_intro pre suffix : At (pre ++ suffix) (length pre) suffix.
Proof. by exists pre. Qed.

Lemma At_nil input p : At input p [] -> length input = p /\ input !! p = None.
Proof.
  intros (pre & -> & <-). rewrite app_nil_r. split; [done|].
  apply lookup_ge_None. lia.
Qed.

Lemma At_cons input p c suffix :
  At input p (c :: suffix) ->
  input !! p = Some c /\ At input (S p) suffix /\ S p <= length input.
Proof.
  intros (pre & -> & <-). split; [|split].
  - apply list_lookup_middle. done.
  - exists (pre ++ [c]). rewrite <- app_assoc. split; [done|].
    rewrite length_app. simpl. lia.
  - rewrite length_app. simpl. lia.
Qed.

Lemma At_app input p t rest : At input p (t ++ rest) -> At input (p + length t) rest.
Proof.
  intros (pre & -> & <-). exists (pre ++ t). rewrite <- app_assoc. split; [done|].
  by rewrite length_app.
Qed.

Lemma At_length input p suffix : At input p suffix -> length input = p + length suffix.
Proof. intros (pre & -> & <-). by rewrite length_app. Qed.

(** *** [skip_whitespace] *)

Lemma skip_whitespace_step input p c :
  input !! p = Some c -> is_whitespace c = true ->
  skip_whitespace input p = skip_whitespace input (S p).
Proof.
  intros Hc Hw. unfold skip_whitespace.
  pose proof (lookup_lt_Some _ _ _ Hc) as Hlt.
  replace (length input - p) with (S (length input - S p)) by lia.
  simpl. by rewrite Hc, Hw.
Qed.

Lemma skip_whitespace_stop input p c :
  input !! p = Some c -> is_whitespace c = false -> skip_whitespace input p = p.
Proof.
  intros Hc Hw. unfold skip_whitespace.
  destruct (length input - p); simpl; [done|]. by rewrite Hc, Hw.
Qed.

Lemma skip_whitespace_end input p : input !! p = None -> skip_whitespace input p = p.
Proof.
  intros Hc. unfold skip_whitespace.
  destruct (length input - p); simpl; [done|]. by rewrite Hc.
Qed.

(** The cursor never moves backwards and never leaves the input. *)
Lemma skip_whitespace_loop_bounds fuel input p :
  p <= skip_whitespace_loop fuel input p
  /\ (p <= length input -> skip_whitespace_loop fuel input p <= length input).
Proof.
  revert p. induction fuel as [|fuel IH]; intros p; simpl; [lia|].
  destruct (input !! p) as [c|] eqn:Hc; [|lia].
  destruct (is_whitespace c); [|lia].
  pose proof (lookup_lt_Some _ _ _ Hc). destruct (IH (S p)). lia.
Qed.

(** *** [consume] *)

Lemma consume_loop_skip message symbol input p c :
  symbol <> [] -> input !! p = Some c -> is_whitespace c = true ->
  consume_loop message symbol input p = consume_loop message symbol input (S p).
Proof.
  intros Hs Hc Hw. destruct symbol as [|k symbol]; [done|]. simpl.
  by rewrite (skip_whitespace_step _ _ _ Hc Hw).
Qed.

Lemma consume_loop_spelled message symbol t : forall input p rest,
  spells symbol t = true -> At input p (t ++ rest) ->
  consume_loop message symbol input p = Ok (p + length t).
Proof.
  revert symbol. induction t as [|c t IH]; intros symbol input p rest Hs HAt.
  - destruct symbol; [|done]. simpl. f_equal. lia.
  - simpl in Hs. destruct symbol as [|k symbol]; [done|].
    destruct (At_cons _ _ _ _ HAt) as (Hc & HAt' & _).
    destruct (is_whitespace c) eqn:Hw.
    + rewrite (consume_loop_skip message (k :: symbol) input p c); [|done..].
      rewrite (IH _ _ _ rest Hs HAt'). simpl. f_equal. lia.
    + apply andb_prop in Hs as [Hk Hs]. apply Ascii.eqb_eq in Hk as ->.
      simpl. rewrite (skip_whitespace_stop _ _ _ Hc Hw).
      unfold consume_char. rewrite Hc, Ascii.eqb_refl.
      rewrite (IH _ _ _ rest Hs HAt'). simpl. f_equal. lia.
Qed.

Lemma consume_spelled (symbol : string) t input p rest :
  spells (text symbol) t = true -> At input p (t ++ rest) ->
  consume symbol input p = Ok (p + length t).
Proof. apply consume_loop_spelled. Qed.

(** *** [check] *)

Lemma check_whitespace_step input p c :
  input !! p = Some c -> is_whitespace c = true -> S p < length input ->
  check_whitespace (length input - p) input p =
  check_whitespace (length input - S p) input (S p).
Proof.
  intros Hc Hw Hlt.
  replace (length input - p) with (S (length input - S p)) by lia.
  simpl. rewrite Hc, Hw.
  by destruct (length input <=? S p) eqn:E; [apply Nat.leb_le in E; lia|].
Qed.

Lemma check_whitespace_last input p c :
  input !! p = Some c -> is_whitespace c = true -> length input <= S p ->
  check_whitespace (length input - p) input p = Ok None.
Proof.
  intros Hc Hw Hle. pose proof (lookup_lt_Some _ _ _ Hc) as Hlt.
  replace (length input - p) with (S (length input - S p)) by lia.
  simpl. rewrite Hc, Hw.
  by destruct (length input <=? S p) eqn:E; [|apply Nat.leb_gt in E; lia].
Qed.

Lemma check_whitespace_stop input p c :
  input !! p = Some c -> is_whitespace c = false ->
  check_whitespace (length input - p) input p = Ok (Some p).
Proof.
  intros Hc Hw. pose proof (lookup_lt_Some _ _ _ Hc) as Hlt.
  replace (length input - p) with (S (length input - S p)) by lia.
  simpl. by rewrite Hc, Hw.
Qed.

Lemma spells_nonempty symbol t : spells symbol t = true -> symbol <> [] -> t <> [].
Proof. by destruct t, symbol. Qed.

Lemma check_loop_spelled symbol t : forall input p rest,
  spells symbol t = true -> At input p (t ++ rest) ->
  check_loop symbol input p = Ok true.
Proof.
  revert symbol. induction t as [|c t IH]; intros symbol input p rest Hs HAt.
  - by destruct symbol.
  - simpl in Hs. destruct symbol as [|k symbol]; [done|].
    destruct (At_cons _ _ _ _ HAt) as (Hc & HAt' & Hlen).
    destruct (is_whitespace c) eqn:Hw.
    + assert (Ht : t <> []) by (by apply (spells_nonempty (k :: symbol))).
      assert (Hlt : S p < length input).
      { rewrite (At_length _ _ _ HAt'), length_app. destruct t; [done|]. simpl. lia. }
      simpl. rewrite (check_whitespace_step _ _ _ Hc Hw Hlt).
      by apply (IH (k :: symbol) _ _ rest Hs HAt').
    + apply andb_prop in Hs as [Hk Hs]. apply Ascii.eqb_eq in Hk as ->.
      simpl. rewrite (check_whitespace_stop _ _ _ Hc Hw). simpl.
      rewrite Hc, Ascii.eqb_refl. simpl.
      by apply (IH symbol _ _ rest Hs HAt').
Qed.

Lemma check_spelled (symbol : string) t input p rest :
  text symbol <> [] ->
  spells (text symbol) t = true -> At input p (t ++ rest) ->
  check symbol input p = Ok true.
Proof.
  intros Hne Hs HAt. unfold check.
  pose proof (spells_nonempty _ _ Hs Hne) as Ht.
  destruct (length input <=? p) eqn:E.
  - apply Nat.leb_le in E. rewrite (At_length _ _ _ HAt), length_app in E.
    destruct t; [done|]. simpl in E. lia.
  - by apply (check_loop_spelled _ t _ _ rest).
Qed.

Lemma check_loop_other k symbol suffix : forall input p,
  suffix <> [] -> next_character suffix <> Some k -> At input p suffix ->
  check_loop (k :: symbol) input p = Ok false.
Proof.
  induction suffix as [|c suffix IH]; intros input p Hne Hnext HAt; [done|].
  destruct (At_cons _ _ _ _ HAt) as (Hc & HAt' & Hlen).
  simpl in Hnext. destruct (is_whitespace c) eqn:Hw.
  - destruct suffix as [|c' suffix'].
    + simpl. rewrite (check_whitespace_last _ _ _ Hc Hw); [done|].
      rewrite (At_length _ _ _ HAt'). simpl. lia.
    + assert (Hlt : S p < length input).
      { rewrite (At_length _ _ _ HAt'). simpl. lia. }
      simpl. rewrite (check_whitespace_step _ _ _ Hc Hw Hlt).
      by apply (IH input (S p)).
  - simpl. rewrite (check_whitespace_stop _ _ _ Hc Hw). simpl. rewrite Hc.
    destruct (Ascii.eqb c k) eqn:E; [|done].
    apply Ascii.eqb_eq in E as ->. done.
Qed.

Lemma check_other (symbol : string) k symbol' suffix input p :
  text symbol = k :: symbol' ->
  next_character suffix <> Some k -> At input p suffix ->
  check symbol input p = Ok false.
Proof.
  intros Hsym Hnext HAt. unfold check. fold (text symbol). rewrite Hsym.
  destruct (length input <=? p) eqn:E; [done|].
  apply (check_loop_other _ _ suffix); [|done..].
  intros ->. apply Nat.leb_gt in E. rewrite (At_length _ _ _ HAt) in E. simpl in E. lia.
Qed.

(** *** Texts that spell a sequence of symbols *)

Lemma spells_app symbol1 symbol2 : forall t,
  spells (symbol1 ++ symbol2) t = true ->
  exists t1 t2, t = t1 ++ t2 /\ spells symbol1 t1 = true /\ spells symbol2 t2 = true.
Proof.
  induction symbol1 as [|k symbol1 IH]; intros t Hs.
  - by exists [], t.
  - induction t as [|c t IHt]; [done|].
    simpl in Hs. destruct (is_whitespace c) eqn:Hw.
    + destruct (IHt Hs) as (t1 & t2 & -> & H1 & H2).
      exists (c :: t1), t2. simpl. by rewrite Hw.
    + apply andb_prop in Hs as [Hk Hs].
      destruct (IH _ Hs) as (t1 & t2 & -> & H1 & H2).
      exists (c :: t1), t2. simpl. by rewrite Hw, Hk.
Qed.

Lemma next_character_spelled k symbol t rest :
  spells (k :: symbol) t = true -> next_character (t ++ rest) = Some k.
Proof.
  induction t as [|c t IH]; [done|]. simpl.
  destruct (is_whitespace c); [done|].
  intros [Hk _]%andb_prop. by apply Ascii.eqb_eq in Hk as ->.
Qed.

End Scanner.

(** * Properties of the parser *)

Section Parser.

Local Open Scope nat_scope.

Implicit Types (input t rest suffix symbol : list char) (c k : char) (p : nat).
Implicit Types (b : bool) (bs : list bool).

Lemma skip_whitespace_idempotent input p :
  skip_whitespace input (skip_whitespace input p) = skip_whitespace input p.
Proof.
  remember (length input - p) as n eqn:Hn. revert p Hn.
  induction n as [|n IH]; intros p Hn.
  - assert (Hnone : input !! p = None) by (apply lookup_ge_None; lia).
    by rewrite !(skip_whitespace_end _ _ Hnone).
  - destruct (input !! p) as [c|] eqn:Hc.
    + destruct (is_whitespace c) eqn:Hw.
      * rewrite (skip_whitespace_step _ _ _ Hc Hw). apply IH. lia.
      * by rewrite !(skip_whitespace_stop _ _ _ Hc Hw).
    + by rewrite !(skip_whitespace_end _ _ Hc).
Qed.

Lemma parse_bit_skip_whitespace input p :
  parse_bit input (skip_whitespace input p) = parse_bit input p.
Proof. unfold parse_bit. by rewrite skip_whitespace_idempotent. Qed.

Lemma parse_bit_skip input p c :
  input !! p = Some c -> is_whitespace c = true ->
  parse_bit input p = parse_bit input (S p).
Proof. intros Hc Hw. unfold parse_bit. by rewrite (skip_whitespace_step _ _ _ Hc Hw). Qed.

Lemma parse_bit_spelled b t : forall input p rest,
  spells (text (word b)) t = true -> At input p (t ++ rest) ->
  parse_bit input p = Ok (Z.b2z b, p + length t).
Proof.
  induction t as [|c t IH]; intros input p rest Hs HAt.
  - by destruct b.
  - destruct (At_cons _ _ _ _ HAt) as (Hc & HAt' & _).
    destruct (is_whitespace c) eqn:Hw.
    + rewrite (parse_bit_skip _ _ _ Hc Hw).
      assert (Hs' : spells (text (word b)) t = true).
      { destruct b; simpl in Hs |- *; by rewrite Hw in Hs. }
      rewrite (IH _ _ rest Hs' HAt'). simpl. do 2 f_equal. lia.
    + unfold parse_bit. rewrite (skip_whitespace_stop _ _ _ Hc Hw).
      destruct b; simpl word in *.
      * rewrite (check_other ZERO "Z"%char (text "ERO") ((c :: t) ++ rest)); [|done| |done].
        2:{ by rewrite (next_character_spelled "O"%char (text "NE")). }
        simpl. rewrite (check_spelled ONE (c :: t) _ _ rest); [|done..].
        simpl. by rewrite (consume_spelled ONE (c :: t) _ _ rest).
      * rewrite (check_spelled ZERO (c :: t) _ _ rest); [|done..].
        simpl. by rewrite (consume_spelled ZERO (c :: t) _ _ rest).
Qed.

Lemma spells_length symbol : forall t, spells symbol t = true -> length symbol <= length t.
Proof.
  intros t. revert symbol. induction t as [|c t IH]; intros symbol Hs.
  - by destruct symbol.
  - destruct symbol as [|k symbol]; [done|]. simpl in Hs.
    destruct (is_whitespace c).
    + specialize (IH _ Hs). simpl in *. lia.
    + apply andb_prop in Hs as [_ Hs]. specialize (IH _ Hs). simpl. lia.
Qed.

Lemma bits_symbol_length bs : length bs <= length (bits_symbol bs).
Proof.
  induction bs as [|b bs IH]; [done|].
  simpl. rewrite length_app. destruct b; simpl; lia.
Qed.

Lemma bit_string_ends_next rest :
  bit_string_ends rest = true ->
  next_character rest <> Some "Z"%char /\ next_character rest <> Some "O"%char.
Proof.
  unfold bit_string_ends. destruct (next_character rest) as [c|]; [|done].
  intros [H1 H2]%andb_prop.
  split; intros [= ->]; done.
Qed.

Lemma parse_bits_loop_spelled bs : forall t input p rest (bits : Z) fuel,
  spells (bits_symbol bs) t = true -> At input p (t ++ rest) ->
  bit_string_ends rest = true -> length bs <= fuel ->
  parse_bits_loop fuel input p bits = Ok (fold_left shift_in bs bits, p + length t).
Proof.
  induction bs as [|b bs IH]; intros t input p rest bits fuel Hs HAt Hend Hfuel.
  - destruct t; [|done]. simpl in HAt.
    destruct (bit_string_ends_next _ Hend) as [HZ HO].
    destruct fuel as [|fuel]; simpl; [do 2 f_equal; lia|].
    rewrite (check_other ZERO "Z"%char (text "ERO") rest); [|done..]. simpl.
    rewrite (check_other ONE "O"%char (text "NE") rest); [|done..]. simpl.
    do 2 f_equal. lia.
  - destruct fuel as [|fuel]; [simpl in Hfuel; lia|].
    simpl in Hs. apply spells_app in Hs as (t1 & t2 & -> & Hs1 & Hs2).
    rewrite <- app_assoc in HAt.
    assert (Hmore : (do zero <- check ZERO input p;
                     if zero then Ok true else check ONE input p) = Ok true).
    { destruct b; simpl word in *.
      - rewrite (check_other ZERO "Z"%char (text "ERO") (t1 ++ t2 ++ rest)); [|done| |done].
        2:{ by rewrite (next_character_spelled "O"%char (text "NE")). }
        simpl. by rewrite (check_spelled ONE t1 _ _ (t2 ++ rest)).
      - by rewrite (check_spelled ZERO t1 _ _ (t2 ++ rest)). }
    simpl.
    destruct (check ZERO input p) as [zero|err]; [|done]. simpl in Hmore |- *.
    rewrite Hmore. simpl.
    rewrite (parse_bit_spelled b t1 _ _ (t2 ++ rest) Hs1 HAt). simpl.
    rewrite (IH t2 input (p + length t1) rest _ fuel Hs2 (At_app _ _ _ _ HAt) Hend);
      [|simpl in Hfuel; lia].
    simpl. fold (shift_in bits b). do 2 f_equal. rewrite length_app. lia.
Qed.

Lemma parse_bits_spelled b bs t input p rest :
  spells (bits_symbol (b :: bs)) t = true -> At input p (t ++ rest) ->
  bit_string_ends rest = true ->
  parse_bits input p = Ok (fold_left shift_in bs (Z.b2z b), p + length t).
Proof.
  intros Hs HAt Hend. unfold parse_bits. rewrite parse_bit_skip_whitespace.
  simpl in Hs. apply spells_app in Hs as (t1 & t2 & -> & Hs1 & Hs2).
  rewrite <- app_assoc in HAt.
  rewrite (parse_bit_spelled b t1 _ _ (t2 ++ rest) Hs1 HAt). simpl.
  pose proof (At_app _ _ _ _ HAt) as HAt2.
  rewrite (parse_bits_loop_spelled bs t2 input (p + length t1) rest _ _ Hs2 HAt2 Hend).
  - do 2 f_equal. rewrite length_app. lia.
  - rewrite (At_length _ _ _ HAt2), length_app.
    pose proof (spells_length _ _ Hs2). pose proof (bits_symbol_length bs). lia.
Qed.

(** *** The value of a bit string *)

Lemma wrap_small (z : Z) : (- 2 ^ 31 <= z < 2 ^ 31)%Z -> wrap z = z.
Proof. intros Hz. unfold wrap. rewrite Z.mod_small; lia. Qed.

Lemma shift_in_small (bits : Z) b :
  (0 <= bits)%Z -> (2 * bits + Z.b2z b < 2 ^ 31)%Z ->
  shift_in bits b = (2 * bits + Z.b2z b)%Z.
Proof.
  intros H0 Hlt. unfold shift_in.
  assert (Hb : (0 <= Z.b2z b <= 1)%Z) by (destruct b; simpl; lia).
  rewrite Z.shiftl_mul_pow2 by lia. change (2 ^ 1)%Z with 2%Z.
  rewrite wrap_small by lia.
  destruct b; simpl Z.b2z.
  - destruct bits as [|q|q]; [done| |lia].
    by rewrite Z.mul_comm.
  - by rewrite Z.lor_0_r, Z.add_0_r, Z.mul_comm.
Qed.

Lemma fold_binary_ge bs : forall acc : Z,
  (0 <= acc)%Z -> (acc <= fold_left (fun a b => 2 * a + Z.b2z b) bs acc)%Z.
Proof.
  induction bs as [|b bs IH]; intros acc Hacc; simpl; [lia|].
  assert (Hb : (0 <= Z.b2z b)%Z) by (destruct b; simpl; lia).
  specialize (IH (2 * acc + Z.b2z b)%Z). lia.
Qed.

Lemma fold_shift_in_binary bs : forall acc : Z,
  (0 <= acc)%Z ->
  (fold_left (fun a b => 2 * a + Z.b2z b) bs acc < 2 ^ 31)%Z ->
  fold_left shift_in bs acc = fold_left (fun a b => 2 * a + Z.b2z b)%Z bs acc.
Proof.
  induction bs as [|b bs IH]; intros acc Hacc Hlt; simpl in *; [done|].
  assert (Hb : (0 <= Z.b2z b)%Z) by (destruct b; simpl; lia).
  pose proof (fold_binary_ge bs (2 * acc + Z.b2z b)%Z ltac:(lia)).
  rewrite shift_in_small by lia. apply IH; lia.
Qed.

Lemma binary_value_cons b bs :
  binary_value (b :: bs) = fold_left (fun a b => 2 * a + Z.b2z b)%Z bs (Z.b2z b).
Proof. unfold binary_value. simpl. by destruct b. Qed.

Lemma binary_value_nonneg b bs : (0 <= binary_value (b :: bs))%Z.
Proof.
  rewrite binary_value_cons.
  assert (Hb : (0 <= Z.b2z b)%Z) by (destruct b; simpl; lia).
  pose proof (fold_binary_ge bs (Z.b2z b) Hb). lia.
Qed.

Lemma fold_shift_in_binary_value b bs :
  (binary_value (b :: bs) < 2 ^ 31)%Z ->
  fold_left shift_in bs (Z.b2z b) = binary_value (b :: bs).
Proof.
  rewrite binary_value_cons. intros Hlt.
  apply fold_shift_in_binary; [destruct b; simpl; lia | done].
Qed.

(** C8, amended: for a bit string [b :: bs] whose binary value is below
    [2^31], spelled with any whitespace before the characters of its tokens,
    [parse_bits] returns the binary value, most significant bit first, and
    leaves the cursor behind the last token. *)
Theorem parse_bits_binary_value pre b bs t rest :
  spells (bits_symbol (b :: bs)) t = true ->
  bit_string_ends rest = true ->
  (binary_value (b :: bs) < 2 ^ 31)%Z ->
  parse_bits (pre ++ t ++ rest) (length pre) = Ok (binary_value (b :: bs), length pre + length t).
Proof.
  intros Hs Hend Hlt.
  rewrite (parse_bits_spelled b bs t _ _ rest Hs (At_intro _ _) Hend).
  by rewrite fold_shift_in_binary_value.
Qed.

Lemma parse_bits_binary_value_witness :
  parse_bits (text "ONE ZERO ZERO ONE ZERO") 0 = Ok (18%Z, 22).
Proof.
  apply (parse_bits_binary_value [] true [false; false; true; false]
           (text "ONE ZERO ZERO ONE ZERO") []);
    [reflexivity | reflexivity | vm_compute; reflexivity].
Defined.

(** C8, as stated, fails on a bit string whose value does not fit the
    [int]: thirty-two ONE tokens have the value [2^32 - 1] and parse to -1. *)
Lemma parse_bits_wraps :
  spells (bits_symbol (replicate 32 true))
         (text (String.concat " " (replicate 32 ONE))) = true
  /\ binary_value (replicate 32 true) = 4294967295%Z
  /\ parse_bits (text (String.concat " " (replicate 32 ONE))) 0 = Ok ((-1)%Z, 127).
Proof. by vm_compute. Qed.

(** *** [parse_goto] *)

Lemma next_character_bits b bs t rest :
  spells (bits_symbol (b :: bs)) t = true ->
  next_character (t ++ rest) = Some (if b then "O"%char else "Z"%char).
Proof. destruct b; apply next_character_spelled. Qed.

Lemma next_character_word b t rest :
  spells (text (word b)) t = true ->
  next_character (t ++ rest) = Some (if b then "O"%char else "Z"%char).
Proof. destruct b; apply next_character_spelled. Qed.

Lemma bit_string_ends_spelled k symbol t rest :
  spells (k :: symbol) t = true ->
  k <> "Z"%char -> k <> "O"%char ->
  bit_string_ends (t ++ rest) = true.
Proof.
  intros Hs HZ HO. unfold bit_string_ends.
  rewrite (next_character_spelled _ _ _ _ Hs).
  apply andb_true_intro. split; apply negb_true_iff, Ascii.eqb_neq; done.
Qed.

(** The optional [EQUAL TO] in front of a bit. *)
Lemma optional_EQUAL_TO_spelled (equal_to : bool) b t tb input p rest :
  spells (if equal_to then text EQUAL_TO else []) t = true ->
  spells (text (word b)) tb = true ->
  At input p (t ++ tb ++ rest) ->
  optional_EQUAL_TO input p = Ok (p + length t).
Proof.
  intros Hs Hb HAt. unfold optional_EQUAL_TO. destruct equal_to.
  - rewrite (check_spelled EQUAL_TO t _ _ (tb ++ rest)); [|done..].
    simpl. by apply (consume_spelled EQUAL_TO t _ _ (tb ++ rest)).
  - destruct t; [|done]. simpl in HAt.
    rewrite (check_other EQUAL_TO "E"%char (text "QUALTO") (tb ++ rest)); [|done| |done].
    + simpl. do 2 f_equal. lia.
    + rewrite (next_character_word _ _ _ Hb). by destruct b.
Qed.

Lemma goto_ends_next rest :
  goto_ends rest = true ->
  bit_string_ends rest = true /\ next_character rest <> Some "I"%char.
Proof.
  unfold goto_ends, bit_string_ends. destruct (next_character rest) as [c|]; [|done].
  intros [H1 H2]%andb_prop. split; [done|]. by intros [= ->].
Qed.

(** An unconditional goto, with or without the VARIABLE marker. *)
Lemma parse_goto_unconditional (variable : bool) b bs t input p rest :
  spells (text GOTO ++ (if variable then text VARIABLE else []) ++ bits_symbol (b :: bs)) t = true ->
  At input p (t ++ rest) ->
  goto_ends rest = true ->
  parse_goto input p =
    Ok (set_next_value (fold_left shift_in bs (Z.b2z b)) GotoNode_new, p + length t).
Proof.
  intros Hs HAt Hend.
  destruct (goto_ends_next _ Hend) as [Hbits HI].
  apply spells_app in Hs as (t1 & t' & -> & Hs1 & Hs).
  apply spells_app in Hs as (t2 & t3 & -> & Hs2 & Hs3).
  rewrite <- !app_assoc in HAt.
  pose proof (At_app _ _ _ _ HAt) as HAt2.
  pose proof (At_app _ _ _ _ HAt2) as HAt3.
  pose proof (At_app _ _ _ _ HAt3) as HAt4.
  unfold parse_goto.
  rewrite (consume_spelled GOTO t1 _ _ (t2 ++ t3 ++ rest) Hs1 HAt). simpl.
  assert (Hmarker :
    (do variable <- check VARIABLE input (p + length t1);
     if variable
     then do p' <- consume VARIABLE input (p + length t1); Ok p'
     else Ok (p + length t1)) = Ok (p + length t1 + length t2)).
  { destruct variable.
    - rewrite (check_spelled VARIABLE t2 _ _ (t3 ++ rest)); [|done..]. simpl.
      by rewrite (consume_spelled VARIABLE t2 _ _ (t3 ++ rest) Hs2 HAt2).
    - destruct t2; [|done]. simpl in *.
      rewrite (check_other VARIABLE "V"%char (text "ARIABLE") (t3 ++ rest)); [|done| |done].
      + simpl. f_equal. lia.
      + rewrite (next_character_bits _ _ _ _ Hs3). by destruct b. }
  destruct (check VARIABLE input (p + length t1)) as [marker|err]; [|done].
  simpl in Hmarker |- *.
  assert (Hposition :
    (if marker
     then do p' <- consume VARIABLE input (p + length t1); Ok p'
     else Ok (p + length t1)) = Ok (p + length t1 + length t2)) by done.
  clear Hmarker. rewrite Hposition. simpl.
  rewrite (parse_bits_spelled b bs t3 _ _ rest Hs3 HAt3 Hbits). simpl.
  rewrite (check_other IF_THE_JUMP_REGISTER_IS "I"%char (text "FTHEJUMPREGISTERIS") rest);
    [|done..].
  simpl. do 2 f_equal. rewrite !length_app. lia.
Qed.

(** Every goto node that [parse_goto] returns carries the type tag that
    the constructor gave it. *)
Lemma parse_goto_type input p g p' :
  parse_goto input p = Ok (g, p') -> type (next g) = BIT.
Proof.
  unfold parse_goto, optional_EQUAL_TO, bind.
  repeat (case_match; try done); intros; simplify_eq; done.
Qed.

(** C5: the texts [GOTO VARIABLE <bits>] and [GOTO <bits>] parse to the same
    goto node, whose target keeps the type tag Bit of the constructor and
    has the parsed number for its payload.  Resolving the next line of that
    node never reads memory and leaves the state as it is; it gives the
    parsed number when that is above -1, and -1 otherwise.  A line with
    that goto, the first line of a run or a line in its loop, is followed
    by the line of the parsed number when that is above -1, and ends the
    run otherwise.  The parsed number is the value of the bit string, and
    above -1, for every bit string with a value below [2^31]. *)
Theorem parse_goto_variable_marker pre1 pre2 b bs t1 t2 rest1 rest2 :
  spells (text GOTO ++ text VARIABLE ++ bits_symbol (b :: bs)) t1 = true ->
  spells (text GOTO ++ bits_symbol (b :: bs)) t2 = true ->
  goto_ends rest1 = true ->
  goto_ends rest2 = true ->
  exists g,
    parse_goto (pre1 ++ t1 ++ rest1) (length pre1) = Ok (g, length pre1 + length t1)
    /\ parse_goto (pre2 ++ t2 ++ rest2) (length pre2) = Ok (g, length pre2 + length t2)
    /\ g = {| next := {| value := fold_left shift_in bs (Z.b2z b); type := BIT |};
              next_if_zero := -1; next_if_one := -1 |}
    /\ (forall s : State,
         GotoNode_next_line_number g s =
         Ok (if (value (next g) >? -1)%Z then value (next g) else (-1)%Z, s))
    /\ (forall (fuel : nat) (order : ArgumentOrder) (code : CodeNode) (place : Place)
               (line : LineNode) (s s1 : State),
         line_at code place = Some line -> go line = Some g ->
         InstructionNode_run order (instruction line) s = Ok s1 ->
         run_from fuel order code place s =
         if (value (next g) >? -1)%Z
         then CodeNode_run_loop fuel order (lines code) (value (next g)) s1
         else Finished s1)
    /\ ((binary_value (b :: bs) < 2 ^ 31)%Z ->
        (forall s : State,
           GotoNode_next_line_number g s = Ok (binary_value (b :: bs), s))
        /\ (forall (fuel : nat) (order : ArgumentOrder) (code : CodeNode) (place : Place)
                   (line : LineNode) (s s1 : State),
             line_at code place = Some line -> go line = Some g ->
             InstructionNode_run order (instruction line) s = Ok s1 ->
             run_from fuel order code place s =
             CodeNode_run_loop fuel order (lines code) (binary_value (b :: bs)) s1)).
Proof.
  intros Hs1 Hs2 Hend1 Hend2.
  set (g := {| next := {| value := fold_left shift_in bs (Z.b2z b); type := BIT |};
               next_if_zero := -1; next_if_one := -1 |}).
  assert (Hnext : forall s : State,
    GotoNode_next_line_number g s =
    Ok (if (value (next g) >? -1)%Z then value (next g) else (-1)%Z, s)).
  { intros s. unfold GotoNode_next_line_number. simpl.
    by destruct (fold_left shift_in bs (Z.b2z b) >? -1)%Z. }
  assert (Hrun : forall (fuel : nat) (order : ArgumentOrder) (code : CodeNode)
                        (place : Place) (line : LineNode) (s s1 : State),
    line_at code place = Some line -> go line = Some g ->
    InstructionNode_run order (instruction line) s = Ok s1 ->
    run_from fuel order code place s =
    if (value (next g) >? -1)%Z
    then CodeNode_run_loop fuel order (lines code) (value (next g)) s1
    else Finished s1).
  { intros fuel order code place line s s1 Hline Hgo Hi.
    rewrite (run_from_step fuel order code place line s s1 Hline Hi), Hgo, Hnext.
    destruct (value (next g) >? -1)%Z; [done|].
    by apply CodeNode_run_loop_negative. }
  exists g. split; [|split; [|split; [|split; [|split]]]].
  - apply (parse_goto_unconditional true b bs t1 _ _ rest1 Hs1 (At_intro _ _) Hend1).
  - apply (parse_goto_unconditional false b bs t2 _ _ rest2 Hs2 (At_intro _ _) Hend2).
  - reflexivity.
  - exact Hnext.
  - exact Hrun.
  - intros Hlt.
    pose proof (fold_shift_in_binary_value b bs Hlt) as Hv.
    pose proof (binary_value_nonneg b bs) as H0.
    assert (Habove : (value (next g) >? -1)%Z = true) by (simpl; lia).
    split.
    + intros s. rewrite Hnext, Habove. simpl. by rewrite Hv.
    + intros fuel order code place line s s1 Hline Hgo Hi.
      rewrite (Hrun fuel order code place line s s1 Hline Hgo Hi), Habove. simpl.
      by rewrite Hv.
Qed.

Lemma parse_goto_variable_marker_witness :
  exists g,
    parse_goto (text "PRINT ZERO GOTO VARIABLE ONE  LINE NUMBER ONE ONE ZERO ONE") 11 =
      Ok (g, 28)
    /\ parse_goto (text "PRINT ZERO GOTO ONE  LINE NUMBER ONE ONE ZERO ONE") 11 = Ok (g, 19).
Proof.
  destruct (parse_goto_variable_marker (text "PRINT ZERO ") (text "PRINT ZERO ")
              true [] (text "GOTO VARIABLE ONE") (text "GOTO ONE")
              (text "  LINE NUMBER ONE ONE ZERO ONE") (text "  LINE NUMBER ONE ONE ZERO ONE"))
    as (g & H1 & H2 & _); [reflexivity | reflexivity | reflexivity | reflexivity |].
  exists g. split; [exact H1 | exact H2].
Defined.

(** C5, as stated, fails on a target whose value does not fit the [int]:
    the number of the line and the target of its goto are both written
    with thirty-two ONE tokens and both parse to -1, so the line of the
    parsed number is in the program; the run prints its 0 once and ends,
    under both orders of evaluation, where a jump to the parsed number
    would execute the line again. *)
Lemma unconditional_goto_wrapped_halts :
  parse 1 wrapped_goto_program = Some (Ok wrapped_goto_code)
  /\ lines wrapped_goto_code !! (-1)%Z =
     Some {| line_number := -1; instruction := Command {| print_value := 0 |};
             go := Some {| next := {| value := -1; type := BIT |};
                           next_if_zero := -1; next_if_one := -1 |} |}
  /\ CodeNode_run 2 LeftToRight wrapped_goto_code (initial_state []) =
     Finished (set_output [] [OutInt 0] (initial_state []))
  /\ CodeNode_run 2 RightToLeft wrapped_goto_code (initial_state []) =
     Finished (set_output [] [OutInt 0] (initial_state [])).
Proof. by vm_compute. Qed.

Lemma parse_arm a bits equal_to guard t input p rest :
  spells (arm_symbol (a :: bits) equal_to guard) t = true ->
  At input p (t ++ rest) ->
  exists p1 p2 p3,
    parse_bits input p = Ok (fold_left shift_in bits (Z.b2z a), p1)
    /\ check IF_THE_JUMP_REGISTER_IS input p1 = Ok true
    /\ consume IF_THE_JUMP_REGISTER_IS input p1 = Ok p2
    /\ optional_EQUAL_TO input p2 = Ok p3
    /\ parse_bit input p3 = Ok (Z.b2z guard, p + length t)
    /\ At input (p + length t) rest.
Proof.
  intros Hs HAt. unfold arm_symbol in Hs.
  apply spells_app in Hs as (tA & u & -> & HsA & Hs).
  apply spells_app in Hs as (tI & u' & -> & HsI & Hs).
  apply spells_app in Hs as (tE & tB & -> & HsE & HsB).
  pose proof (At_app _ _ _ _ HAt) as HAtR.
  rewrite <- !app_assoc in HAt.
  pose proof (At_app _ _ _ _ HAt) as HAt1.
  pose proof (At_app _ _ _ _ HAt1) as HAt2.
  pose proof (At_app _ _ _ _ HAt2) as HAt3.
  exists (p + length tA), (p + length tA + length tI),
    (p + length tA + length tI + length tE).
  split; [|split; [|split; [|split; [|split]]]].
  - apply (parse_bits_spelled a bits tA _ _ (tI ++ tE ++ tB ++ rest)); [done..|].
    by apply (bit_string_ends_spelled "I"%char (text "FTHEJUMPREGISTERIS")).
  - by apply (check_spelled IF_THE_JUMP_REGISTER_IS tI _ _ (tE ++ tB ++ rest)).
  - by apply (consume_spelled IF_THE_JUMP_REGISTER_IS tI _ _ (tE ++ tB ++ rest)).
  - by apply (optional_EQUAL_TO_spelled equal_to guard tE tB _ _ rest).
  - rewrite (parse_bit_spelled guard tB _ _ rest HsB HAt3).
    do 2 f_equal. rewrite !length_app. lia.
  - done.
Qed.

(** The optional VARIABLE behind GOTO. *)
Lemma marker_spelled (variable : bool) t input p rest :
  spells (marker_symbol variable) t = true ->
  At input p (t ++ rest) ->
  next_character rest <> Some "V"%char ->
  exists marker,
    check VARIABLE input p = Ok marker
    /\ (if marker then do p' <- consume VARIABLE input p; Ok p' else Ok p)
       = Ok (p + length t).
Proof.
  intros Hs HAt HV. destruct variable.
  - exists true. split.
    + by apply (check_spelled VARIABLE t _ _ rest).
    + by rewrite (consume_spelled VARIABLE t _ _ rest Hs HAt).
  - exists false. destruct t; [|done]. simpl in *. split.
    + by apply (check_other VARIABLE "V"%char (text "ARIABLE") rest).
    + f_equal. lia.
Qed.

Lemma next_character_arm a bits equal_to guard t rest :
  spells (arm_symbol (a :: bits) equal_to guard) t = true ->
  next_character (t ++ rest) <> Some "V"%char.
Proof.
  intros Hs. unfold arm_symbol in Hs.
  apply spells_app in Hs as (x & y & -> & Hx & _).
  rewrite <- app_assoc, (next_character_bits _ _ _ _ Hx). by destruct a.
Qed.

(** A text that starts neither ZERO nor ONE is no bit. *)
Lemma parse_bit_other suffix : forall input p,
  At input p suffix -> bit_string_ends suffix = true ->
  exists q, parse_bit input p =
    Err (ParseError "Illegal symbol found. Bit constant was expected." q).
Proof.
  induction suffix as [|c suffix IH]; intros input p HAt Hend.
  - destruct (At_nil _ _ HAt) as [_ Hnone]. exists p.
    unfold parse_bit. rewrite (skip_whitespace_end _ _ Hnone).
    rewrite (check_other ZERO "Z"%char (text "ERO") []); [|done..]. simpl.
    by rewrite (check_other ONE "O"%char (text "NE") []).
  - destruct (At_cons _ _ _ _ HAt) as (Hc & HAt' & _).
    destruct (is_whitespace c) eqn:Hw.
    + rewrite (parse_bit_skip _ _ _ Hc Hw). apply IH; [done|].
      unfold bit_string_ends in *. simpl in Hend. by rewrite Hw in Hend.
    + destruct (bit_string_ends_next _ Hend) as [HZ HO]. exists p.
      unfold parse_bit. rewrite (skip_whitespace_stop _ _ _ Hc Hw).
      rewrite (check_other ZERO "Z"%char (text "ERO") (c :: suffix)); [|done..]. simpl.
      by rewrite (check_other ONE "O"%char (text "NE") (c :: suffix)).
Qed.

(** C9: a conditional goto with two arms, each written with or without
    EQUAL TO, the first with or without VARIABLE in front of its target.
    When the second target is written without VARIABLE, the goto is
    refused with the parse error when the two guard bits are equal, and
    parses to a node with both arms set when one guard is ZERO and the
    other is ONE.  When the second target is written with VARIABLE, as the
    grammar in the head of the source allows, the goto is refused whatever
    the guards are: [parse_goto] looks for VARIABLE in front of the first
    target only, and [parse_bits] finds no bit. *)
Theorem parse_goto_two_arms pre rest (variable1 variable2 : bool)
    a1 bits1 equal_to1 guard1 a2 bits2 equal_to2 guard2 t :
  spells (text GOTO ++ marker_symbol variable1 ++ arm_symbol (a1 :: bits1) equal_to1 guard1
          ++ text GOTO ++ marker_symbol variable2
          ++ arm_symbol (a2 :: bits2) equal_to2 guard2) t = true ->
  (variable2 = false ->
   parse_goto (pre ++ t ++ rest) (length pre) =
     if Bool.eqb guard1 guard2 then
       Err (ParseError
         "Illegal symbol found. Conditional goto with different bit constant was expected."
         (length pre + length t))
     else
       Ok ({| next := {| value := -1; type := BIT |};
              next_if_zero :=
                if guard1 then fold_left shift_in bits2 (Z.b2z a2)
                else fold_left shift_in bits1 (Z.b2z a1);
              next_if_one :=
                if guard1 then fold_left shift_in bits1 (Z.b2z a1)
                else fold_left shift_in bits2 (Z.b2z a2) |},
           length pre + length t))
  /\ (variable2 = true ->
      exists q, parse_goto (pre ++ t ++ rest) (length pre) =
        Err (ParseError "Illegal symbol found. Bit constant was expected." q)).
Proof.
  intros Hs. pose proof (At_intro pre (t ++ rest)) as HAt.
  set (input := pre ++ t ++ rest) in *. set (p := length pre) in *.
  apply spells_app in Hs as (tG1 & v1 & -> & HsG1 & Hs).
  apply spells_app in Hs as (tV1 & v2 & -> & HsV1 & Hs).
  apply spells_app in Hs as (tA1 & v3 & -> & HsA1 & Hs).
  apply spells_app in Hs as (tG2 & v4 & -> & HsG2 & Hs).
  apply spells_app in Hs as (tV2 & tA2 & -> & HsV2 & HsA2).
  rewrite <- !app_assoc in HAt.
  pose proof (At_app _ _ _ _ HAt) as HAtV1.
  pose proof (At_app _ _ _ _ HAtV1) as HAtA1.
  destruct (marker_spelled variable1 tV1 _ _ _ HsV1 HAtV1
              (next_character_arm _ _ _ _ _ _ HsA1))
    as (marker & Hcheck & Hposition).
  destruct (parse_arm _ _ _ _ _ _ _ _ HsA1 HAtA1)
    as (q1 & q2 & q3 & Hbits1 & Hcheck1 & Hif1 & Hequal1 & Hguard1 & HAtG2).
  pose proof (At_app _ _ _ _ HAtG2) as HAtV2.
  unfold parse_goto.
  rewrite (consume_spelled GOTO tG1 _ _ _ HsG1 HAt). simpl.
  rewrite Hcheck. simpl. rewrite Hposition. simpl.
  rewrite Hbits1. simpl. rewrite Hcheck1. simpl. rewrite Hif1. simpl.
  rewrite Hequal1. simpl. rewrite Hguard1. simpl.
  rewrite (check_spelled GOTO tG2 _ _ _ ltac:(done) HsG2 HAtG2). simpl.
  rewrite (consume_spelled GOTO tG2 _ _ _ HsG2 HAtG2). simpl.
  split.
  - intros ->. destruct tV2; [|done]. simpl in HAtV2.
    destruct (parse_arm _ _ _ _ _ _ _ _ HsA2 HAtV2)
      as (r1 & r2 & r3 & Hbits2 & _ & Hif2 & Hequal2 & Hguard2 & _).
    rewrite Hbits2. simpl. rewrite Hif2. simpl. rewrite Hequal2. simpl.
    rewrite Hguard2. simpl.
    assert (Hend : p + length tG1 + length tV1 + length tA1 + length tG2 + length tA2 =
                   p + length (tG1 ++ tV1 ++ tA1 ++ tG2 ++ [] ++ tA2)).
    { rewrite !length_app. simpl. lia. }
    rewrite Hend. by destruct guard1, guard2.
  - intros ->.
    assert (Hends : bit_string_ends (tV2 ++ tA2 ++ rest) = true).
    { by apply (bit_string_ends_spelled "V"%char (text "ARIABLE")). }
    destruct (parse_bit_other _ _ _ HAtV2 Hends) as [q Hq]. exists q.
    unfold parse_bits. by rewrite parse_bit_skip_whitespace, Hq.
Qed.

Lemma parse_goto_two_arms_witness :
  parse_goto
    (text "GOTO ONE ONE ZERO IF THE JUMP REGISTER IS EQUAL TO ONE"
     ++ text " GOTO ONE ZERO ZERO ZERO IF THE JUMP REGISTER IS ZERO"
     ++ text " LINE NUMBER ONE ONE ZERO CODE PRINT ONE")
    0 =
  Ok ({| next := {| value := -1; type := BIT |}; next_if_zero := 8; next_if_one := 6 |}, 107)
  /\ exists q,
       parse_goto
         (text "GOTO ONE IF THE JUMP REGISTER IS ZERO"
          ++ text " GOTO VARIABLE ONE ZERO IF THE JUMP REGISTER IS ONE")
         0 =
       Err (ParseError "Illegal symbol found. Bit constant was expected." q).
Proof.
  split.
  - rewrite app_assoc.
    apply (parse_goto_two_arms []
             (text " LINE NUMBER ONE ONE ZERO CODE PRINT ONE")
             false false
             true [true; false] true true
             true [false; false; false] false false
             (text "GOTO ONE ONE ZERO IF THE JUMP REGISTER IS EQUAL TO ONE"
              ++ text " GOTO ONE ZERO ZERO ZERO IF THE JUMP REGISTER IS ZERO"));
      reflexivity.
  - rewrite <- (app_nil_r (text " GOTO VARIABLE ONE ZERO IF THE JUMP REGISTER IS ONE")).
    rewrite app_assoc.
    apply (parse_goto_two_arms [] [] false true
             true [] false false
             true [false] false true
             (text "GOTO ONE IF THE JUMP REGISTER IS ZERO"
              ++ text " GOTO VARIABLE ONE ZERO IF THE JUMP REGISTER IS ONE"));
      reflexivity.
Defined.

(** The cases of the claim on texts of the sample programs' shape, and the
    text with VARIABLE in front of the second target, which stops at the
    V. *)
Example parse_goto_same_guard :
  parse_goto (text "GOTO ONE IF THE JUMP REGISTER IS ZERO"
              ++ text " GOTO ONE ZERO IF THE JUMP REGISTER IS ZERO") 0 =
  Err (ParseError
         "Illegal symbol found. Conditional goto with different bit constant was expected." 80)
  /\ is_parse_error
       (parse_goto (text "GOTO ONE IF THE JUMP REGISTER IS ONE"
                    ++ text " GOTO ONE ZERO IF THE JUMP REGISTER IS EQUAL TO ONE") 0)
     = true
  /\ is_ok
       (parse_goto (text "GOTO ONE IF THE JUMP REGISTER IS ONE"
                    ++ text " GOTO ONE ZERO IF THE JUMP REGISTER IS EQUAL TO ZERO") 0)
     = true
  /\ is_ok
       (parse_goto (text "GOTO VARIABLE ONE IF THE JUMP REGISTER IS ONE"
                    ++ text " GOTO ONE ZERO IF THE JUMP REGISTER IS EQUAL TO ZERO") 0)
     = true
  /\ parse_goto (text "GOTO ONE IF THE JUMP REGISTER IS ZERO"
                 ++ text " GOTO VARIABLE ONE ZERO IF THE JUMP REGISTER IS ONE") 0 =
     Err (ParseError "Illegal symbol found. Bit constant was expected." 43).
Proof. done. Qed.

(** *** The bound on the loop of [parse_bits]

    The loop is cut off after as many rounds as there are characters left.
    Every round moves the cursor, so the cut-off is never reached before
    the loop ends by itself: more fuel gives the same result. *)

Lemma check_true_lt (symbol : string) input p : check symbol input p = Ok true -> p < length input.
Proof.
  unfold check. destruct (length input <=? p) eqn:E; [done|].
  apply Nat.leb_gt in E. done.
Qed.

Lemma consume_loop_advances message symbol : forall input p p',
  consume_loop message symbol input p = Ok p' -> p + length symbol <= p'.
Proof.
  induction symbol as [|k symbol IH]; intros input p p'; simpl.
  - intros [= ->]. lia.
  - unfold consume_char.
    pose proof (skip_whitespace_loop_bounds (length input - p) input p) as [Hle _].
    fold (skip_whitespace input p) in Hle.
    destruct (input !! skip_whitespace input p) as [c|]; [|done].
    destruct (Ascii.eqb c k); [|done].
    intros H%IH. simpl. lia.
Qed.

Lemma parse_bit_advances input p (bit : Z) p' : parse_bit input p = Ok (bit, p') -> p < p'.
Proof.
  unfold parse_bit.
  pose proof (skip_whitespace_loop_bounds (length input - p) input p) as [Hle _].
  fold (skip_whitespace input p) in Hle.
  destruct (check ZERO input (skip_whitespace input p)) as [[|]|]; simpl; [| |done].
  - destruct (consume ZERO _ _) as [q|] eqn:Hq; simpl; [|done].
    intros [= <- <-]. apply consume_loop_advances in Hq. simpl in Hq. lia.
  - destruct (check ONE input (skip_whitespace input p)) as [[|]|]; simpl; [|done..].
    destruct (consume ONE _ _) as [q|] eqn:Hq; simpl; [|done].
    intros [= <- <-]. apply consume_loop_advances in Hq. simpl in Hq. lia.
Qed.

Lemma parse_bits_loop_fuel fuel : forall fuel' input p (bits : Z),
  length input - p <= fuel -> length input - p <= fuel' ->
  parse_bits_loop fuel input p bits = parse_bits_loop fuel' input p bits.
Proof.
  assert (Hend : forall (n : nat) input p (bits : Z), length input <= p ->
            parse_bits_loop n input p bits = Ok (bits, p)).
  { intros [|n] input p bits Hle; simpl; [done|].
    unfold check. by destruct (length input <=? p) eqn:E; [|apply Nat.leb_gt in E; lia]. }
  induction fuel as [|fuel IH]; intros fuel' input p bits Hf Hf'.
  - rewrite !Hend by lia. done.
  - destruct fuel' as [|fuel']; [rewrite !Hend by lia; done|].
    simpl. destruct (check ZERO input p) as [zero|]; simpl; [|done].
    destruct (if zero then Ok true else check ONE input p) as [[|]|]; simpl; [|done..].
    destruct (parse_bit input p) as [[bit q]|] eqn:Hq; simpl; [|done].
    apply parse_bit_advances in Hq. apply IH; lia.
Qed.

End Parser.

(** * Whole programs *)

Section Programs.

(** [CodeNode::run] is its loop started at the first line. *)
Lemma CodeNode_run_as_loop (fuel : nat) (order : ArgumentOrder) (code : CodeNode) (s : State) :
  0 <= first_line_number code ->
  is_Some (lines code !! first_line_number code) ->
  CodeNode_run fuel order code s =
  CodeNode_run_loop (S fuel) order (lines code) (first_line_number code) s.
Proof.
  intros Hfirst [line Hline]. unfold CodeNode_run. simpl.
  destruct (first_line_number code >=? 0) eqn:E; [|lia].
  by rewrite Hline.
Qed.

Example print_zero_one_runs (order : ArgumentOrder) :
  CodeNode_run 1 order print_zero_one (initial_state []) =
  Finished (set_output [] [OutInt 0; OutInt 1] (initial_state [])).
Proof. reflexivity. Qed.

Example read_and_branch_one (order : ArgumentOrder) :
  CodeNode_run 1 order read_and_branch (initial_state [1]) =
  Finished (set_output [] [OutInt 1] (set_jump_register 1 (initial_state []))).
Proof. reflexivity. Qed.

Example read_and_branch_zero (order : ArgumentOrder) :
  CodeNode_run 1 order read_and_branch (initial_state [0]) =
  Aborted (RuntimeError "No line exists with number 3.").
Proof. reflexivity. Qed.

Lemma next_line_resolution_witness :
  CodeNode_run 1 LeftToRight read_and_branch (initial_state [0]) =
  Aborted (RuntimeError "No line exists with number 3.").
Proof.
  destruct (next_line_resolution 0 LeftToRight read_and_branch AtStart
              {| line_number := 0; instruction := Command {| print_value := -1 |};
                 go := Some (set_next_if_zero 3 (set_next_if_one 2 GotoNode_new)) |}
              (initial_state [0]) (initial_state []))
    as (_ & H & _); [reflexivity | reflexivity |].
  destruct (H (set_next_if_zero 3 (set_next_if_one 2 GotoNode_new)) eq_refl)
    as (_ & _ & _ & H3).
  destruct (H3 3 (initial_state []) eq_refl) as (_ & _ & _ & H4).
  apply H4; [lia | reflexivity].
Defined.

End Programs.

(** * Memory and evaluation *)

Section Memory.

Implicit Types (s : State) (v : Value) (e : ExpressionNode) (R Q : gset Z).

(** Induction over expressions that reaches the right operand of a NAND
    node. *)
Lemma ExpressionNode_induction (P : ExpressionNode -> Prop) :
  (forall l, P l -> P (Expression1Node l None)) ->
  (forall l r, P l -> P r -> P (Expression1Node l (Some r))) ->
  (forall c, P c -> P (Expression2Node c)) ->
  (forall c, P c -> P (Expression3Node c)) ->
  (forall c, P c -> P (Expression4Node c)) ->
  (forall k, P (Expression5Node k)) ->
  (forall a, P (VariableNode a)) ->
  forall e, P e.
Proof.
  intros H1 H1' H2 H3 H4 H5 HV. fix IH 1.
  intros [l [r|]|c|c|c|k|a].
  - apply H1'; apply IH.
  - apply H1; apply IH.
  - apply H2; apply IH.
  - apply H3; apply IH.
  - apply H4; apply IH.
  - apply H5.
  - apply HV.
Qed.

Lemma State_eq s s' :
  jump_register s = jump_register s' -> memory s = memory s' ->
  output_buffer s = output_buffer s' -> cin s = cin s' -> cout s = cout s' ->
  s = s'.
Proof. destruct s, s'; simpl; intros; by subst. Qed.

Lemma materialize_memory R s i :
  memory (materialize R s) !! i =
  match memory s !! i with
  | Some v => Some v
  | None => if decide (i ∈ R) then Some {| value := 0; type := UNDEFINED |} else None
  end.
Proof.
  unfold materialize; simpl. rewrite lookup_union, lookup_gset_to_gmap.
  destruct (memory s !! i); [by case_guard|]. case_decide; by case_guard.
Qed.

Lemma materialize_empty s : materialize ∅ s = s.
Proof.
  apply State_eq; try done. apply map_eq; intros i.
  rewrite materialize_memory. by destruct (memory s !! i).
Qed.

Lemma materialize_materialize Q R s :
  materialize R (materialize Q s) = materialize (Q ∪ R) s.
Proof.
  apply State_eq; try done. apply map_eq; intros i.
  rewrite !materialize_memory. destruct (memory s !! i); [done|].
  repeat case_decide; try done; exfalso;
    first [ match goal with H : _ ∉ _ ∪ _ |- _ => apply H; apply elem_of_union; by auto end
          | match goal with H : _ ∈ _ ∪ _ |- _ => by apply elem_of_union in H as [?|?] end ].
Qed.

Lemma materialize_comm Q R s :
  materialize R (materialize Q s) = materialize Q (materialize R s).
Proof. by rewrite !materialize_materialize, (comm_L (∪)). Qed.

Lemma content_materialize R s x : content (materialize R s) x = content s x.
Proof.
  unfold content. rewrite materialize_memory.
  destruct (memory s !! x); [done|]. by case_decide.
Qed.

Lemma memory_read_content (x : Z) s :
  0 <= x -> memory_read x s = Ok (content s x, materialize {[x]} s).
Proof.
  intros Hx. unfold memory_read, jump_register_address, content.
  destruct (x =? -1) eqn:E1; [lia|].
  destruct (x >? -1) eqn:E2; [|lia].
  destruct (memory s !! x) as [w|] eqn:Hw; simpl; do 2 f_equal.
  - apply State_eq; try done. apply map_eq; intros i.
    rewrite materialize_memory. destruct (memory s !! i) eqn:Hi; [done|].
    case_decide; [|done]. assert (i = x) by set_solver. congruence.
  - apply State_eq; try done. apply map_eq; intros i.
    rewrite materialize_memory. simpl.
    destruct (decide (i = x)) as [->|Hne].
    + rewrite lookup_insert_eq, Hw. case_decide; [done|set_solver].
    + rewrite lookup_insert_ne by done. destruct (memory s !! i); [done|].
      case_decide; [set_solver|done].
Qed.

Lemma memory_read_materialize (x : Z) Q s :
  memory_read x (materialize Q s) = on_state (materialize Q) (memory_read x s).
Proof.
  destruct (decide (0 <= x)) as [Hx|Hx].
  - rewrite !memory_read_content by done. simpl.
    by rewrite content_materialize, materialize_comm.
  - unfold memory_read, jump_register_address.
    destruct (x =? -1) eqn:E1; [done|].
    destruct (x >? -1) eqn:E2; [lia|done].
Qed.

(** The evaluation of an expression in a state with more cells entered
    gives the same value or the same error, and enters the same cells. *)
Lemma ExpressionNode_value_materialize e : forall Q s,
  ExpressionNode_value e (materialize Q s) =
  on_state (materialize Q) (ExpressionNode_value e s).
Proof.
  induction e as [l IHl|l r IHl IHr|c IH|c IH|c IH|k|a] using ExpressionNode_induction;
    intros Q s; simpl.
  - unfold Expression1Node_value. rewrite IHl.
    by destruct (ExpressionNode_value l s) as [[w s1]|err].
  - unfold Expression1Node_value. rewrite IHl.
    destruct (ExpressionNode_value l s) as [[w s1]|err]; simpl; [|done].
    rewrite IHr. destruct (ExpressionNode_value r s1) as [[w' s2]|err]; simpl; [|done].
    by repeat case_match.
  - unfold Expression2Node_value. rewrite IH.
    destruct (ExpressionNode_value c s) as [[w s1]|err]; simpl; [|done].
    by repeat case_match.
  - unfold Expression3Node_value. rewrite IH.
    destruct (ExpressionNode_value c s) as [[w s1]|err]; simpl; [|done].
    destruct (value w =? _); [done|].
    destruct (value w <? 0); [done|].
    rewrite memory_read_materialize.
    destruct (memory_read _ s1) as [[w' s2]|err]; simpl; [|done].
    by repeat case_match.
  - unfold Expression4Node_value. rewrite IH.
    destruct (ExpressionNode_value c s) as [[w s1]|err]; simpl; [|done].
    destruct (value w =? _); [done|].
    destruct (value w <? 0); [done|].
    rewrite memory_read_materialize.
    destruct (memory_read _ s1) as [[w' s2]|err]; simpl; [|done].
    by repeat case_match.
  - done.
  - unfold VariableNode_value. destruct (a >=? jump_register_address); [|done].
    apply memory_read_materialize.
Qed.

(** All that an evaluation does to the state is to enter cells. *)
Lemma ExpressionNode_value_enters e : forall s v s',
  ExpressionNode_value e s = Ok (v, s') -> exists R, s' = materialize R s.
Proof.
  assert (Hread : forall (x : Z) s v s',
    memory_read x s = Ok (v, s') -> exists R, s' = materialize R s).
  { intros x s v s'. destruct (decide (0 <= x)) as [Hx|Hx].
    - rewrite memory_read_content by done. intros [= <- <-]. by eexists.
    - unfold memory_read, jump_register_address.
      destruct (x =? -1) eqn:E1.
      + intros [= <- <-]. exists ∅. by rewrite materialize_empty.
      + destruct (x >? -1) eqn:E2; [lia|done]. }
  induction e as [l IHl|l r IHl IHr|c IH|c IH|c IH|k|a] using ExpressionNode_induction;
    intros s v s'; simpl.
  - unfold Expression1Node_value.
    destruct (ExpressionNode_value l s) as [[w s1]|err] eqn:El; simpl; [|done].
    intros [= <- <-]. by eapply IHl.
  - unfold Expression1Node_value.
    destruct (ExpressionNode_value l s) as [[w s1]|err] eqn:El; simpl; [|done].
    destruct (ExpressionNode_value r s1) as [[w' s2]|err] eqn:Er; simpl; [|done].
    destruct (IHl _ _ _ El) as [R1 ->]. destruct (IHr _ _ _ Er) as [R2 ->].
    case_match; [done|]. intros [= <- <-].
    exists (R1 ∪ R2). by rewrite materialize_materialize.
  - unfold Expression2Node_value.
    destruct (ExpressionNode_value c s) as [[w s1]|err] eqn:Ec; simpl; [|done].
    repeat (case_match; [done|]). intros [= <- <-]. by eapply IH.
  - unfold Expression3Node_value.
    destruct (ExpressionNode_value c s) as [[w s1]|err] eqn:Ec; simpl; [|done].
    repeat (case_match; [done|]).
    destruct (memory_read _ s1) as [[w' s2]|err] eqn:Em; simpl; [|done].
    case_match; [done|]. intros [= <- <-].
    destruct (IH _ _ _ Ec) as [R1 ->]. destruct (Hread _ _ _ _ Em) as [R2 ->].
    exists (R1 ∪ R2). by rewrite materialize_materialize.
  - unfold Expression4Node_value.
    destruct (ExpressionNode_value c s) as [[w s1]|err] eqn:Ec; simpl; [|done].
    repeat (case_match; [done|]).
    destruct (memory_read _ s1) as [[w' s2]|err] eqn:Em; simpl; [|done].
    case_match; [done|]. intros [= <- <-].
    destruct (IH _ _ _ Ec) as [R1 ->]. destruct (Hread _ _ _ _ Em) as [R2 ->].
    exists (R1 ∪ R2). by rewrite materialize_materialize.
  - intros [= <- <-]. exists ∅. by rewrite materialize_empty.
  - unfold VariableNode_value. destruct (a >=? jump_register_address); [|done].
    apply Hread.
Qed.


Lemma memory_write_ordinary (a : Z) v s s' :
  0 <= a ->
  memory_write a v s = Ok s' -> s' = set_memory (<[a := v]> (memory s)) s.
Proof.
  intros Ha. unfold memory_write, jump_register_address.
  destruct (_ && _); [done|].
  destruct (a =? -1) eqn:E1; [lia|].
  destruct (a >? -1) eqn:E2; [|lia].
  by intros [= <-].
Qed.

Lemma memory_read_written (a : Z) v s :
  0 <= a ->
  memory_read a (set_memory (<[a := v]> (memory s)) s) =
  Ok (v, set_memory (<[a := v]> (memory s)) s).
Proof.
  intros Ha. unfold memory_read, jump_register_address.
  destruct (a =? -1) eqn:E1; [lia|].
  destruct (a >? -1) eqn:E2; [|lia].
  simpl. by rewrite lookup_insert_eq.
Qed.

(** X1: a value written to an ordinary cell is what the next read of that
    cell returns, kind included, and that read changes nothing; the write
    leaves the jump register and the content of every other cell as they
    were. *)
Theorem memory_write_read (a : Z) v s s' :
  0 <= a ->
  memory_write a v s = Ok s' ->
  memory_read a s' = Ok (v, s')
  /\ jump_register s' = jump_register s
  /\ (forall b : Z, b <> a -> content s' b = content s b).
Proof.
  intros Ha Hw. apply (memory_write_ordinary _ _ _ _ Ha) in Hw as ->.
  split; [by apply memory_read_written|]. split; [done|].
  intros b Hb. unfold content. simpl. by rewrite lookup_insert_ne.
Qed.

Lemma memory_write_read_witness :
  memory_read 5 (set_memory (<[5 := {| value := 7; type := UNDEFINED |}]> ∅) (initial_state [])) =
  Ok ({| value := 7; type := UNDEFINED |},
      set_memory (<[5 := {| value := 7; type := UNDEFINED |}]> ∅) (initial_state [])).
Proof.
  apply (memory_write_read 5 {| value := 7; type := UNDEFINED |} (initial_state []));
    [lia | reflexivity].
Defined.

(** X2: a value that [memory_write] stores in the jump register reads back
    with the same payload and the kind Bit, whatever its kind was; the
    memory map is not touched. *)
Theorem jump_register_write_read v s s' :
  memory_write jump_register_address v s = Ok s' ->
  memory_read jump_register_address s' = Ok ({| value := value v; type := BIT |}, s')
  /\ memory s' = memory s
  /\ type v <> ADDRESS_OF_A_BIT.
Proof.
  unfold memory_write, memory_read, jump_register_address. simpl.
  destruct (_ && _); [done|].
  destruct (ValueType_eqb (type v) ADDRESS_OF_A_BIT) eqn:E; [done|].
  intros [= <-]. repeat split. intros Ht. by rewrite Ht in E.
Qed.

Lemma jump_register_write_read_witness :
  memory_read jump_register_address (set_jump_register 1 (initial_state [])) =
  Ok ({| value := 1; type := BIT |}, set_jump_register 1 (initial_state [])).
Proof.
  apply (jump_register_write_read {| value := 1; type := UNDEFINED |} (initial_state [])).
  reflexivity.
Defined.

(** X3: an evaluation that succeeds leaves the jump register, the content
    of every cell, the streams and every entry of the memory map as they
    were: it can only enter cells that were never written. *)
Theorem ExpressionNode_value_frame e s v s' :
  ExpressionNode_value e s = Ok (v, s') ->
  jump_register s' = jump_register s
  /\ (forall x : Z, content s' x = content s x)
  /\ memory s ⊆ memory s'
  /\ output_buffer s' = output_buffer s /\ cin s' = cin s /\ cout s' = cout s.
Proof.
  intros [R ->]%ExpressionNode_value_enters. repeat split; try done.
  - intros x. apply content_materialize.
  - unfold materialize; simpl. apply map_union_subseteq_l.
Qed.

Lemma ExpressionNode_value_frame_witness :
  content (set_memory (<[3 := {| value := 0; type := UNDEFINED |}]> ∅) (initial_state [])) 3 =
  content (initial_state []) 3.
Proof.
  apply (ExpressionNode_value_frame (VariableNode 3) (initial_state [])
           {| value := 0; type := UNDEFINED |}
           (set_memory (<[3 := {| value := 0; type := UNDEFINED |}]> ∅) (initial_state []))).
  reflexivity.
Defined.

(** X4: an expression evaluated again right after a successful evaluation
    gives the same value and leaves the state as it is. *)
Theorem ExpressionNode_value_again e s v s' :
  ExpressionNode_value e s = Ok (v, s') ->
  ExpressionNode_value e s' = Ok (v, s').
Proof.
  intros He. destruct (ExpressionNode_value_enters _ _ _ _ He) as [R ->].
  rewrite ExpressionNode_value_materialize, He. simpl.
  by rewrite materialize_materialize, (idemp_L (∪)).
Qed.

Lemma ExpressionNode_value_again_witness :
  ExpressionNode_value (Expression4Node (Expression5Node 3))
    (set_memory (<[3 := {| value := 0; type := UNDEFINED |}]> ∅) (initial_state [])) =
  Ok ({| value := 0; type := UNDEFINED |},
      set_memory (<[3 := {| value := 0; type := UNDEFINED |}]> ∅) (initial_state [])).
Proof.
  apply (ExpressionNode_value_again (Expression4Node (Expression5Node 3)) (initial_state [])).
  reflexivity.
Defined.

Lemma AssignmentNode_arguments_swap (target rhs : ExpressionNode) s (x : Value * Value * State) :
  AssignmentNode_arguments LeftToRight target rhs s = Ok x ->
  AssignmentNode_arguments RightToLeft target rhs s = Ok x.
Proof.
  unfold AssignmentNode_arguments.
  destruct (ExpressionNode_value target s) as [[t s1]|err] eqn:Et; simpl; [|done].
  destruct (ExpressionNode_value_enters _ _ _ _ Et) as [Rt ->].
  rewrite ExpressionNode_value_materialize.
  destruct (ExpressionNode_value rhs s) as [[w s2]|err] eqn:Er; simpl; [|done].
  destruct (ExpressionNode_value_enters _ _ _ _ Er) as [Rr ->].
  intros [= <-].
  rewrite ExpressionNode_value_materialize, Et. simpl.
  by rewrite materialize_comm.
Qed.

Lemma AssignmentNode_arguments_swap_back (target rhs : ExpressionNode) s
    (x : Value * Value * State) :
  AssignmentNode_arguments RightToLeft target rhs s = Ok x ->
  AssignmentNode_arguments LeftToRight target rhs s = Ok x.
Proof.
  unfold AssignmentNode_arguments.
  destruct (ExpressionNode_value rhs s) as [[w s2]|err] eqn:Er; simpl; [|done].
  destruct (ExpressionNode_value_enters _ _ _ _ Er) as [Rr ->].
  rewrite ExpressionNode_value_materialize.
  destruct (ExpressionNode_value target s) as [[t s1]|err] eqn:Et; simpl; [|done].
  destruct (ExpressionNode_value_enters _ _ _ _ Et) as [Rt ->].
  intros [= <-].
  rewrite ExpressionNode_value_materialize, Er. simpl.
  by rewrite materialize_comm.
Qed.

Lemma AssignmentNode_run_swap (a : AssignmentNode) s s' :
  AssignmentNode_run LeftToRight a s = Ok s' <-> AssignmentNode_run RightToLeft a s = Ok s'.
Proof.
  unfold AssignmentNode_run.
  destruct (address a >=? jump_register_address); [done|].
  destruct (address_expression a) as [target|]; [|done].
  split.
  - destruct (AssignmentNode_arguments LeftToRight _ _ _) as [x|err] eqn:E; [|done].
    by rewrite (AssignmentNode_arguments_swap _ _ _ _ E).
  - destruct (AssignmentNode_arguments RightToLeft _ _ _) as [x|err] eqn:E; [|done].
    by rewrite (AssignmentNode_arguments_swap_back _ _ _ _ E).
Qed.

Lemma InstructionNode_run_swap (i : InstructionNode) s :
  match InstructionNode_run LeftToRight i s, InstructionNode_run RightToLeft i s with
  | Ok s1, Ok s2 => s1 = s2
  | Err _, Err _ => True
  | _, _ => False
  end.
Proof.
  destruct i as [c|a]; simpl.
  - by destruct (CommandNode_run c s).
  - pose proof (AssignmentNode_run_swap a s) as Hswap.
    destruct (AssignmentNode_run LeftToRight a s) as [s1|e1],
             (AssignmentNode_run RightToLeft a s) as [s2|e2]; try done.
    + pose proof (proj1 (Hswap s1) eq_refl) as H. by simplify_eq.
    + by pose proof (proj1 (Hswap s1) eq_refl).
    + by pose proof (proj2 (Hswap s2) eq_refl).
Qed.

Lemma CodeNode_run_loop_swap (fuel : nat) (program : gmap Z LineNode) : forall (n : Z) s,
  same_outcome (CodeNode_run_loop fuel LeftToRight program n s)
               (CodeNode_run_loop fuel RightToLeft program n s).
Proof.
  induction fuel as [|fuel IH]; intros n s; simpl.
  - by destruct (n >=? 0).
  - destruct (n >=? 0); [|done].
    destruct (program !! n) as [line|]; [|done].
    pose proof (InstructionNode_run_swap (instruction line) s) as Hswap.
    destruct (InstructionNode_run LeftToRight (instruction line) s) as [s1|e1],
             (InstructionNode_run RightToLeft (instruction line) s) as [s2|e2];
      try done.
    subst s2. destruct (go line) as [g|]; [|done].
    destruct (GotoNode_next_line_number g s1) as [[n' s2]|err]; [|done].
    apply IH.
Qed.

(** X5: the order in which the compiler evaluates the two arguments of the
    call in [AssignmentNode::run] cannot be told from the outcome of a
    program: under both orders the run ends in the same state, or is at
    the same line in the same state when the bound is reached, or stops
    with an error.  The error itself can differ, when both arguments
    fail. *)
Theorem CodeNode_run_order (fuel : nat) (code : CodeNode) s :
  same_outcome (CodeNode_run fuel LeftToRight code s)
               (CodeNode_run fuel RightToLeft code s).
Proof.
  unfold CodeNode_run.
  destruct (lines code !! first_line_number code) as [line|]; [|done].
  pose proof (InstructionNode_run_swap (instruction line) s) as Hswap.
  destruct (InstructionNode_run LeftToRight (instruction line) s) as [s1|e1],
           (InstructionNode_run RightToLeft (instruction line) s) as [s2|e2];
    try done.
  subst s2. destruct (go line) as [g|]; [|done].
  destruct (GotoNode_next_line_number g s1) as [[n' s2]|err]; [|done].
  apply CodeNode_run_loop_swap.
Qed.

(** The two orders can report different errors: the target fails in
    [Expression4Node::value] and the right-hand side in
    [Expression2Node::value]. *)
Example AssignmentNode_run_errors_differ :
  let a := {| address := INT_MIN;
              address_expression := Some (Expression4Node (Expression5Node 1));
              expression := Expression2Node (Expression5Node 2) |} in
  AssignmentNode_run LeftToRight a (initial_state [])
  <> AssignmentNode_run RightToLeft a (initial_state []).
Proof. done. Qed.


(** X6: THE VALUE AT over an operand that evaluates to [x], and THE VALUE
    BEYOND over one that evaluates to [x - 1], both return the content of
    cell [x], for [x] from 0 (from 1 for BEYOND) to the largest [int], when
    the operand's payload is not 1 and the cell does not hold the payload
    2; both refuse an operand with the payload 1 or a negative payload. *)
Theorem value_at_and_beyond c s v s1 :
  ExpressionNode_value c s = Ok (v, s1) ->
  (0 <= value v -> value v <> 1 -> value (content s1 (value v)) <> 2 ->
     ExpressionNode_value (Expression4Node c) s =
     Ok (content s1 (value v), materialize {[value v]} s1))
  /\ (0 <= value v < 2 ^ 31 - 1 -> value v <> 1 -> value (content s1 (value v + 1)) <> 2 ->
     ExpressionNode_value (Expression3Node c) s =
     Ok (content s1 (value v + 1), materialize {[value v + 1]} s1))
  /\ (value v = 1 \/ value v < 0 ->
     is_runtime_error (ExpressionNode_value (Expression4Node c) s) = true
     /\ is_runtime_error (ExpressionNode_value (Expression3Node c) s) = true).
Proof.
  intros Hc. simpl. unfold Expression4Node_value, Expression3Node_value.
  rewrite Hc; simpl. split; [|split].
  - intros H0 H1 H2.
    destruct (value v =? 1) eqn:E1; [lia|]. destruct (value v <? 0) eqn:E0; [lia|].
    rewrite memory_read_content by done. simpl.
    by destruct (value (content s1 (value v)) =? 2) eqn:E2; [lia|].
  - intros H0 H1 H2.
    destruct (value v =? 1) eqn:E1; [lia|]. destruct (value v <? 0) eqn:E0; [lia|].
    assert (Hw : wrap (value v + 1) = value v + 1).
    { unfold wrap. rewrite Z.mod_small; lia. }
    rewrite Hw, memory_read_content by lia. simpl.
    by destruct (value (content s1 (value v + 1)) =? 2) eqn:E2; [lia|].
  - intros H. destruct (value v =? 1) eqn:E1; [done|].
    by destruct (value v <? 0) eqn:E0; [|lia].
Qed.

Lemma value_at_and_beyond_witness :
  ExpressionNode_value (Expression3Node (Expression5Node 4))
    (set_memory (<[5 := {| value := 1; type := BIT |}]> ∅) (initial_state [])) =
  Ok ({| value := 1; type := BIT |},
      set_memory (<[5 := {| value := 1; type := BIT |}]> ∅) (initial_state [])).
Proof.
  destruct (value_at_and_beyond (Expression5Node 4)
              (set_memory (<[5 := {| value := 1; type := BIT |}]> ∅) (initial_state []))
              {| value := 4; type := UNDEFINED |}
              (set_memory (<[5 := {| value := 1; type := BIT |}]> ∅) (initial_state []))
              eq_refl) as (_ & H & _).
  rewrite H; [reflexivity | simpl; lia | simpl; lia | vm_compute; lia].
Defined.

(** X7: after an assignment to a variable has succeeded, reading the
    variable returns the value, kind included, that the right-hand side
    evaluated to, and the read changes nothing. *)
Theorem assignment_read_back (order : ArgumentOrder) (a : AssignmentNode) s v s1 s' :
  0 <= address a ->
  ExpressionNode_value (expression a) s = Ok (v, s1) ->
  AssignmentNode_run order a s = Ok s' ->
  ExpressionNode_value (VariableNode (address a)) s' = Ok (v, s').
Proof.
  intros Ha Hv. unfold AssignmentNode_run, jump_register_address.
  destruct (address a >=? -1) eqn:E; [|lia]. rewrite Hv; simpl.
  intros Hw. simpl. unfold VariableNode_value, jump_register_address. rewrite E.
  apply (memory_write_ordinary _ _ _ _ Ha) in Hw as ->.
  by apply memory_read_written.
Qed.

Lemma assignment_read_back_witness :
  ExpressionNode_value (VariableNode 1)
    (set_memory (<[1 := {| value := 28; type := UNDEFINED |}]> ∅) (initial_state [])) =
  Ok ({| value := 28; type := UNDEFINED |},
      set_memory (<[1 := {| value := 28; type := UNDEFINED |}]> ∅) (initial_state [])).
Proof.
  apply (assignment_read_back LeftToRight
           {| address := 1; address_expression := None;
              expression := Expression1Node (Expression5Node 28) None |}
           (initial_state []) {| value := 28; type := UNDEFINED |} (initial_state []));
    [simpl; lia | reflexivity | reflexivity].
Defined.

(** X8: READ takes the next integer from the input; when that is 0 or 1 it
    becomes the jump register and a goto with two arms then resolves to
    the arm of that bit; any other integer stops the run with "Invalid
    value read.". *)
Theorem read_then_branch (g : GotoNode) s (b : Z) (rest : list Z) :
  cin s = b :: rest ->
  value (next g) <= -1 -> next_if_zero g > -1 -> next_if_one g > -1 ->
  (b = 0 \/ b = 1 ->
     exists s', CommandNode_run {| print_value := -1 |} s = Ok s'
       /\ jump_register s' = b /\ cin s' = rest /\ cout s' = cout s
       /\ memory s' = memory s
       /\ GotoNode_next_line_number g s' =
            Ok (if b =? 0 then next_if_zero g else next_if_one g, s'))
  /\ (b <> 0 -> b <> 1 ->
     CommandNode_run {| print_value := -1 |} s = Err (RuntimeError "Invalid value read.")).
Proof.
  intros Hin Hn Hz Ho. unfold CommandNode_run, read_bit. simpl. rewrite Hin. split.
  - intros Hb. eexists. split.
    + by destruct Hb as [-> | ->].
    + repeat split. rewrite GotoNode_next_line_number_arms by done. simpl.
      destruct Hb as [-> | ->]; simpl.
      * by destruct (next_if_zero g >? -1) eqn:E; [|lia].
      * destruct (next_if_one g >? -1) eqn:E; [|lia].
        by rewrite andb_false_r.
  - intros H0 H1. destruct (b =? 0) eqn:E0; [lia|].
    by destruct (b =? 1) eqn:E1; [lia|].
Qed.

Lemma read_then_branch_witness :
  GotoNode_next_line_number (set_next_if_zero 3 (set_next_if_one 2 GotoNode_new))
    (set_jump_register 1 (initial_state [])) =
  Ok (2, set_jump_register 1 (initial_state [])).
Proof.
  destruct (read_then_branch (set_next_if_zero 3 (set_next_if_one 2 GotoNode_new))
              (initial_state [1]) 1 [] eq_refl) as [H _];
    [simpl; lia | simpl; lia | simpl; lia |].
  destruct (H (or_intror eq_refl)) as (s' & Hrun & _ & _ & _ & _ & Hnext).
  injection Hrun as <-. exact Hnext.
Defined.

End Memory.

(** * The cursor *)

Section Cursor.

Local Open Scope nat_scope.

Implicit Types (input : list char) (p q : nat).

Lemma skip_whitespace_bounds input p :
  p <= skip_whitespace input p
  /\ (p <= length input -> skip_whitespace input p <= length input).
Proof. apply skip_whitespace_loop_bounds. Qed.

Lemma consume_loop_bounds message characters : forall input p p',
  consume_loop message characters input p = Ok p' ->
  p + length characters <= p' /\ (characters <> [] -> p' <= length input).
Proof.
  induction characters as [|k characters IH]; intros input p p'; simpl.
  - intros [= ->]. split; [lia|done].
  - unfold consume_char.
    destruct (skip_whitespace_bounds input p) as [Hle _].
    destruct (input !! skip_whitespace input p) as [c|] eqn:Hc; [|done].
    destruct (Ascii.eqb c k); [|done].
    pose proof (lookup_lt_Some _ _ _ Hc) as Hlt.
    intros H. destruct (IH _ _ _ H) as [Hadv Hlen]. split; [lia|].
    intros _. destruct characters as [|k' characters].
    + simpl in H. injection H as <-. lia.
    + by apply Hlen.
Qed.

Lemma consume_bounds (symbol : string) input p p' :
  text symbol <> [] ->
  consume symbol input p = Ok p' -> p < p' <= length input.
Proof.
  intros Hne H. destruct (consume_loop_bounds _ _ _ _ _ H) as [Hadv Hlen].
  specialize (Hlen Hne). fold (text symbol) in Hadv.
  destruct (text symbol); [done|]. simpl in Hadv. lia.
Qed.

Lemma parse_bit_bounds input p (bit : Z) p' :
  parse_bit input p = Ok (bit, p') ->
  p < p' <= length input /\ (bit = 0%Z \/ bit = 1%Z).
Proof.
  unfold parse_bit.
  destruct (skip_whitespace_bounds input p) as [Hle _].
  destruct (check ZERO input (skip_whitespace input p)) as [[|]|]; simpl; [| |done].
  - destruct (consume ZERO _ _) as [q|] eqn:Hq; simpl; [|done].
    intros [= <- <-]. apply consume_bounds in Hq; [|done]. split; [lia|by left].
  - destruct (check ONE input (skip_whitespace input p)) as [[|]|]; simpl; [|done..].
    destruct (consume ONE _ _) as [q|] eqn:Hq; simpl; [|done].
    intros [= <- <-]. apply consume_bounds in Hq; [|done]. split; [lia|by right].
Qed.

Lemma parse_bits_loop_bounds fuel : forall input p (bits : Z) (n : Z) p',
  parse_bits_loop fuel input p bits = Ok (n, p') ->
  p <= p' /\ (p <= length input -> p' <= length input).
Proof.
  induction fuel as [|fuel IH]; intros input p bits n p'; simpl.
  - intros [= <- <-]. lia.
  - destruct (check ZERO input p) as [zero|]; simpl; [|done].
    destruct (if zero then Ok true else check ONE input p) as [[|]|]; simpl.
    + destruct (parse_bit input p) as [[bit q]|] eqn:Hq; simpl; [|done].
      apply parse_bit_bounds in Hq as [Hq _]. intros H%IH. lia.
    + intros [= <- <-]. lia.
    + done.
Qed.

Lemma parse_bits_bounds input p (n : Z) p' :
  parse_bits input p = Ok (n, p') -> p < p' <= length input.
Proof.
  unfold parse_bits. rewrite parse_bit_skip_whitespace.
  destruct (parse_bit input p) as [[bit q]|] eqn:Hq; simpl; [|done].
  apply parse_bit_bounds in Hq as [Hq _]. intros H%parse_bits_loop_bounds. lia.
Qed.

Lemma parse_variable_bounds input p (a : Z) p' :
  parse_variable input p = Ok (a, p') -> p < p' <= length input.
Proof.
  unfold parse_variable.
  destruct (check VARIABLE input p) as [[|]|]; simpl; [| |done].
  - destruct (consume VARIABLE input p) as [q|] eqn:Hq; simpl; [|done].
    apply consume_bounds in Hq; [|done]. intros H%parse_bits_bounds. lia.
  - destruct (check THE_JUMP_REGISTER input p) as [[|]|]; simpl; [|done..].
    destruct (consume THE_JUMP_REGISTER input p) as [q|] eqn:Hq; simpl; [|done].
    apply consume_bounds in Hq; [|done]. intros [= <- <-]. lia.
Qed.

End Cursor.

(** * The expression parser *)

Section ExpressionParser.

Local Open Scope nat_scope.

Implicit Types (input : list char) (p q : nat) (e : ExpressionNode).

Ltac cursor_facts :=
  repeat match goal with
  | H : consume _ _ _ = Ok _ |- _ => apply consume_bounds in H; [|done]
  | H : parse_bits _ _ = Ok _ |- _ => apply parse_bits_bounds in H
  | H : parse_variable _ _ = Ok _ |- _ => apply parse_variable_bounds in H
  end.

Section Levels.

Variable rec : list char -> nat -> Fueled (ExpressionNode * nat).
Variable input : list char.

Hypothesis rec_bounds : forall q e q',
  rec input q = Some (Ok (e, q')) -> q < q' <= length input.

Lemma parse_expression5_bounds p e p' :
  parse_expression5 rec input p = Some (Ok (e, p')) -> p < p' <= length input.
Proof.
  intros H. unfold parse_expression5, bindF in H.
  pose proof (skip_whitespace_bounds input p) as [Hle _].
  repeat case_match; simplify_eq; cursor_facts;
    repeat match goal with
    | H : rec _ _ = Some (Ok _) |- _ => apply rec_bounds in H
    end; lia.
Qed.

Lemma parse_expression4_bounds p e p' :
  parse_expression4 rec input p = Some (Ok (e, p')) -> p < p' <= length input.
Proof.
  intros H. unfold parse_expression4, bindF in H.
  pose proof (skip_whitespace_bounds input p) as [Hle _].
  repeat case_match; simplify_eq; cursor_facts;
    repeat match goal with
    | H : parse_expression5 _ _ _ = Some (Ok _) |- _ => apply parse_expression5_bounds in H
    end; lia.
Qed.

Lemma parse_expression3_bounds p e p' :
  parse_expression3 rec input p = Some (Ok (e, p')) -> p < p' <= length input.
Proof.
  intros H. unfold parse_expression3, bindF in H.
  pose proof (skip_whitespace_bounds input p) as [Hle _].
  repeat case_match; simplify_eq; cursor_facts;
    repeat match goal with
    | H : parse_expression4 _ _ _ = Some (Ok _) |- _ => apply parse_expression4_bounds in H
    end; lia.
Qed.

Lemma parse_expression2_bounds p e p' :
  parse_expression2 rec input p = Some (Ok (e, p')) -> p < p' <= length input.
Proof.
  intros H. unfold parse_expression2, bindF in H.
  pose proof (skip_whitespace_bounds input p) as [Hle _].
  repeat case_match; simplify_eq; cursor_facts;
    repeat match goal with
    | H : parse_expression3 _ _ _ = Some (Ok _) |- _ => apply parse_expression3_bounds in H
    end; lia.
Qed.

Lemma parse_expression1_bounds p e p' :
  parse_expression1 rec input p = Some (Ok (e, p')) -> p < p' <= length input.
Proof.
  intros H. unfold parse_expression1, bindF in H.
  pose proof (skip_whitespace_bounds input p) as [Hle _].
  repeat case_match; simplify_eq; cursor_facts;
    repeat match goal with
    | H : parse_expression2 _ _ _ = Some (Ok _) |- _ => apply parse_expression2_bounds in H
    end; lia.
Qed.

End Levels.

Lemma parse_expression_bounds fuel : forall input p e p',
  parse_expression fuel input p = Some (Ok (e, p')) -> p < p' <= length input.
Proof.
  induction fuel as [|fuel IH]; intros input p e p'; simpl; [done|].
  apply parse_expression1_bounds. apply IH.
Qed.


(** More fuel for the call inside the parentheses does not change a result
    that was reached. *)
Section MoreFuel.

Variables rec rec' : list char -> nat -> Fueled (ExpressionNode * nat).
Variable input : list char.

Hypothesis rec_more : forall q r, rec input q = Some r -> rec' input q = Some r.

Ltac more_fuel inner inner_more :=
  repeat match goal with
  | H : context [inner input ?q] |- _ =>
      let E := fresh "E" in
      destruct (inner input q) as [?|] eqn:E; [rewrite (inner_more _ _ E)|done]
  | _ => case_match; try done
  end; try done.

Lemma parse_expression5_more p r :
  parse_expression5 rec input p = Some r -> parse_expression5 rec' input p = Some r.
Proof.
  unfold parse_expression5, bindF. intros H.
  more_fuel rec rec_more.
Qed.

Lemma parse_expression4_more p r :
  parse_expression4 rec input p = Some r -> parse_expression4 rec' input p = Some r.
Proof.
  unfold parse_expression4, bindF. intros H.
  more_fuel (parse_expression5 rec) parse_expression5_more.
Qed.

Lemma parse_expression3_more p r :
  parse_expression3 rec input p = Some r -> parse_expression3 rec' input p = Some r.
Proof.
  unfold parse_expression3, bindF. intros H.
  more_fuel (parse_expression4 rec) parse_expression4_more.
Qed.

Lemma parse_expression2_more p r :
  parse_expression2 rec input p = Some r -> parse_expression2 rec' input p = Some r.
Proof.
  unfold parse_expression2, bindF. intros H.
  more_fuel (parse_expression3 rec) parse_expression3_more.
Qed.

Lemma parse_expression1_more p r :
  parse_expression1 rec input p = Some r -> parse_expression1 rec' input p = Some r.
Proof.
  unfold parse_expression1, bindF. intros H.
  more_fuel (parse_expression2 rec) parse_expression2_more.
Qed.

End MoreFuel.

Lemma parse_expression_more fuel : forall fuel' input p r,
  fuel <= fuel' ->
  parse_expression fuel input p = Some r -> parse_expression fuel' input p = Some r.
Proof.
  induction fuel as [|fuel IH]; intros fuel' input p r Hle; simpl; [done|].
  destruct fuel' as [|fuel']; [lia|]. simpl.
  apply parse_expression1_more. intros q r'. apply IH. lia.
Qed.

(** Enough fuel for the call inside the parentheses gives a result. *)
Section EnoughFuel.

Variable rec : list char -> nat -> Fueled (ExpressionNode * nat).
Variable input : list char.

Hypothesis rec_bounds : forall q e q',
  rec input q = Some (Ok (e, q')) -> q < q' <= length input.

Lemma parse_expression5_defined p :
  (forall q, p < q <= length input -> rec input q <> None) ->
  parse_expression5 rec input p <> None.
Proof.
  intros Hrec. unfold parse_expression5, bindF.
  pose proof (skip_whitespace_bounds input p) as [Hle _].
  repeat case_match; try done.
  cursor_facts. exfalso. eapply Hrec; [|done]. lia.
Qed.

Lemma parse_expression4_defined p :
  (forall q, p < q <= length input -> rec input q <> None) ->
  parse_expression4 rec input p <> None.
Proof.
  intros Hrec. unfold parse_expression4, bindF.
  pose proof (skip_whitespace_bounds input p) as [Hle _].
  repeat case_match; try done; cursor_facts;
    first [ match goal with
            | H : parse_expression5 _ _ ?q = None |- _ =>
                apply (parse_expression5_defined q) in H; [done|]
            end
          | apply parse_expression5_defined ];
    intros q' Hq'; apply Hrec; lia.
Qed.

Lemma parse_expression3_defined p :
  (forall q, p < q <= length input -> rec input q <> None) ->
  parse_expression3 rec input p <> None.
Proof.
  intros Hrec. unfold parse_expression3, bindF.
  pose proof (skip_whitespace_bounds input p) as [Hle _].
  repeat case_match; try done; cursor_facts;
    first [ match goal with
            | H : parse_expression4 _ _ ?q = None |- _ =>
                apply (parse_expression4_defined q) in H; [done|]
            end
          | apply parse_expression4_defined ];
    intros q' Hq'; apply Hrec; lia.
Qed.

Lemma parse_expression2_defined p :
  (forall q, p < q <= length input -> rec input q <> None) ->
  parse_expression2 rec input p <> None.
Proof.
  intros Hrec. unfold parse_expression2, bindF.
  pose proof (skip_whitespace_bounds input p) as [Hle _].
  repeat case_match; try done; cursor_facts;
    first [ match goal with
            | H : parse_expression3 _ _ ?q = None |- _ =>
                apply (parse_expression3_defined q) in H; [done|]
            end
          | apply parse_expression3_defined ];
    intros q' Hq'; apply Hrec; lia.
Qed.

Lemma parse_expression1_defined p :
  (forall q, p < q <= length input -> rec input q <> None) ->
  parse_expression1 rec input p <> None.
Proof.
  intros Hrec. unfold parse_expression1, bindF.
  pose proof (skip_whitespace_bounds input p) as [Hle _].
  repeat case_match; try done; cursor_facts;
    repeat match goal with
    | H : parse_expression2 _ _ _ = Some (Ok _) |- _ =>
        apply (parse_expression2_bounds rec input rec_bounds) in H
    end;
    match goal with
    | H : parse_expression2 _ _ ?q = None |- _ =>
        apply (parse_expression2_defined q) in H; [done|]
    end; intros q' Hq'; apply Hrec; lia.
Qed.

End EnoughFuel.

Lemma parse_expression_defined fuel : forall input p,
  length input - p < fuel -> parse_expression fuel input p <> None.
Proof.
  induction fuel as [|fuel IH]; intros input p Hlt; simpl; [lia|].
  apply parse_expression1_defined.
  - intros q e q'. apply parse_expression_bounds.
  - intros q Hq. apply IH. lia.
Qed.

End ExpressionParser.

(** * Lines and programs *)


Section Lines.

Local Open Scope nat_scope.

Implicit Types (input : list char) (p q : nat).

Ltac line_facts :=
  repeat match goal with
  | H : consume _ _ _ = Ok _ |- _ => apply consume_bounds in H; [|done]
  | H : parse_bits _ _ = Ok _ |- _ => apply parse_bits_bounds in H
  | H : parse_bit _ _ = Ok _ |- _ => apply parse_bit_bounds in H as [H ?]
  | H : parse_variable _ _ = Ok _ |- _ => apply parse_variable_bounds in H
  | H : parse_expression _ _ _ = Some (Ok _) |- _ => apply parse_expression_bounds in H
  end.

Lemma parse_command_bounds input p (c : CommandNode) p' :
  parse_command input p = Ok (c, p') ->
  p < p' <= length input /\ InstructionNode_parsed (Command c).
Proof.
  intros H. unfold parse_command, bind in H.
  pose proof (skip_whitespace_bounds input p) as [Hle _].
  repeat case_match; simplify_eq; line_facts; simpl; (split; [lia|]); lia.
Qed.

Lemma parse_goto_bounds input p (g : GotoNode) p' :
  parse_goto input p = Ok (g, p') -> p < p' <= length input /\ GotoNode_parsed g.
Proof.
  intros H. unfold parse_goto, optional_EQUAL_TO, bind in H.
  repeat case_match; simplify_eq; line_facts;
    (split; [lia|]); unfold GotoNode_parsed; simpl; auto.
Qed.

Lemma parse_assignment_bounds fuel input p (a : AssignmentNode) p' :
  parse_assignment fuel input p = Some (Ok (a, p')) ->
  p < p' <= length input /\ InstructionNode_parsed (Assignment a).
Proof.
  intros H. unfold parse_assignment, bindF in H.
  pose proof (skip_whitespace_bounds input p) as [Hle _].
  repeat case_match; simplify_eq; line_facts; simpl; (split; [lia|done]).
Qed.

Lemma parse_instruction_bounds fuel input p (i : InstructionNode) p' :
  parse_instruction fuel input p = Some (Ok (i, p')) ->
  p < p' <= length input /\ InstructionNode_parsed i.
Proof.
  intros H. unfold parse_instruction, bindF in H.
  pose proof (skip_whitespace_bounds input p) as [Hle _].
  repeat case_match; simplify_eq.
  - match goal with H : parse_command _ _ = Ok _ |- _ =>
      apply parse_command_bounds in H as [H ?] end. split; [lia|done].
  - match goal with H : parse_assignment _ _ _ = Some (Ok _) |- _ =>
      apply parse_assignment_bounds in H as [H ?] end. split; [lia|done].
Qed.

Lemma parse_line_bounds fuel input p (l : LineNode) p' :
  parse_line fuel input p = Some (Ok (l, p')) ->
  p < p' <= length input /\ LineNode_parsed l.
Proof.
  intros H. unfold parse_line, bindF in H.
  repeat case_match; simplify_eq; line_facts;
    repeat match goal with
    | H : parse_instruction _ _ _ = Some (Ok _) |- _ =>
        apply parse_instruction_bounds in H as [H ?]
    | H : parse_goto _ _ = Ok _ |- _ => apply parse_goto_bounds in H as [H ?]
    end; (split; [lia|by split]).
Qed.


(** *** More fuel *)

Ltac more_line_fuel :=
  repeat match goal with
  | H : context [parse_expression ?f ?i ?q], Hle : ?f <= ?f' |- _ =>
      let E := fresh "E" in
      destruct (parse_expression f i q) as [?|] eqn:E;
        [rewrite (parse_expression_more f f' i q _ Hle E)|done]
  | _ => case_match; simplify_eq; try done
  end; try done.

Lemma parse_assignment_more fuel fuel' input p r :
  fuel <= fuel' ->
  parse_assignment fuel input p = Some r -> parse_assignment fuel' input p = Some r.
Proof.
  intros Hle. unfold parse_assignment, bindF. intros H. more_line_fuel.
Qed.

Lemma parse_instruction_more fuel fuel' input p r :
  fuel <= fuel' ->
  parse_instruction fuel input p = Some r -> parse_instruction fuel' input p = Some r.
Proof.
  intros Hle. unfold parse_instruction, bindF. intros H.
  repeat match goal with
  | H : context [parse_assignment fuel input ?q] |- _ =>
      let E := fresh "E" in
      destruct (parse_assignment fuel input q) as [?|] eqn:E;
        [rewrite (parse_assignment_more _ _ _ _ _ Hle E)|done]
  | _ => case_match; try done
  end; try done.
Qed.

Lemma parse_line_more fuel fuel' input p r :
  fuel <= fuel' ->
  parse_line fuel input p = Some r -> parse_line fuel' input p = Some r.
Proof.
  intros Hle. unfold parse_line, bindF. intros H.
  repeat match goal with
  | H : context [parse_instruction fuel input ?q] |- _ =>
      let E := fresh "E" in
      destruct (parse_instruction fuel input q) as [?|] eqn:E;
        [rewrite (parse_instruction_more _ _ _ _ _ Hle E)|done]
  | _ => case_match; try done
  end; try done.
Qed.

Lemma parse_code_loop_unfold rounds fuel input p (node : CodeNode) :
  parse_code_loop rounds fuel input p node =
  match check LINE_NUMBER input p with
  | Err err => Some (Err err)
  | Ok false => Some (Ok (node, p))
  | Ok true =>
      match rounds with
      | O => None
      | S rounds' =>
          match parse_line fuel input p with
          | None => None
          | Some (Err err) => Some (Err err)
          | Some (Ok (line, q)) =>
              match lines node !! line_number line with
              | Some _ =>
                  Some (Err (ParseError
                    ("Line number is " +:+ to_string (line_number line) +:+ " already defined.")
                    q))
              | None => parse_code_loop rounds' fuel input q (add_line line node)
              end
          end
      end
  end.
Proof.
  destruct rounds; simpl; unfold bindF;
    destruct (check LINE_NUMBER input p) as [[|]|]; try done.
Qed.

Lemma parse_code_loop_more rounds : forall rounds' fuel fuel' input p node r,
  rounds <= rounds' -> fuel <= fuel' ->
  parse_code_loop rounds fuel input p node = Some r ->
  parse_code_loop rounds' fuel' input p node = Some r.
Proof.
  induction rounds as [|rounds IH]; intros rounds' fuel fuel' input p node r Hr Hf;
    rewrite !parse_code_loop_unfold;
    destruct (check LINE_NUMBER input p) as [[|]|]; try done.
  destruct rounds' as [|rounds']; [lia|].
  destruct (parse_line fuel input p) as [[[line q]|err]|] eqn:E; [| |done].
  - rewrite (parse_line_more _ _ _ _ _ Hf E).
    destruct (lines node !! line_number line); [done|]. apply IH; lia.
  - by rewrite (parse_line_more _ _ _ _ _ Hf E).
Qed.

Lemma parse_code_more fuel fuel' input p r :
  fuel <= fuel' ->
  parse_code fuel input p = Some r -> parse_code fuel' input p = Some r.
Proof.
  intros Hle. unfold parse_code, bindF.
  destruct (parse_line fuel input p) as [[[line q]|err]|] eqn:E; [| |done].
  - rewrite (parse_line_more _ _ _ _ _ Hle E). by apply parse_code_loop_more.
  - by rewrite (parse_line_more _ _ _ _ _ Hle E).
Qed.

(** *** Enough fuel *)

Lemma parse_assignment_defined fuel input p :
  length input < fuel -> parse_assignment fuel input p <> None.
Proof.
  intros Hlt. unfold parse_assignment, bindF.
  repeat case_match; try done;
    match goal with
    | H : parse_expression _ _ ?q = None |- _ =>
        apply (parse_expression_defined fuel input q) in H; [done|lia]
    end.
Qed.

Lemma parse_instruction_defined fuel input p :
  length input < fuel -> parse_instruction fuel input p <> None.
Proof.
  intros Hlt. unfold parse_instruction, bindF.
  repeat case_match; try done.
  match goal with
  | H : parse_assignment _ _ ?q = None |- _ =>
      by apply (parse_assignment_defined fuel input q) in H
  end.
Qed.

Lemma parse_line_defined fuel input p :
  length input < fuel -> parse_line fuel input p <> None.
Proof.
  intros Hlt. unfold parse_line, bindF.
  repeat case_match; try done.
  match goal with
  | H : parse_instruction _ _ ?q = None |- _ =>
      by apply (parse_instruction_defined fuel input q) in H
  end.
Qed.

Lemma parse_code_loop_defined rounds : forall fuel input p node,
  length input < fuel -> length input - p < rounds ->
  parse_code_loop rounds fuel input p node <> None.
Proof.
  induction rounds as [|rounds IH]; intros fuel input p node Hf Hr; [lia|].
  rewrite parse_code_loop_unfold.
  destruct (check LINE_NUMBER input p) as [[|]|] eqn:Hc; try done.
  apply check_true_lt in Hc.
  destruct (parse_line fuel input p) as [[[line q]|err]|] eqn:E; [|done|].
  - destruct (lines node !! line_number line); [done|].
    apply parse_line_bounds in E as [E _]. apply IH; lia.
  - by apply parse_line_defined in E.
Qed.

Lemma parse_code_defined fuel input p :
  length input < fuel -> parse_code fuel input p <> None.
Proof.
  intros Hlt. unfold parse_code, bindF.
  destruct (parse_line fuel input p) as [[[line q]|err]|] eqn:E; [|done|].
  - apply parse_code_loop_defined; lia.
  - by apply parse_line_defined in E.
Qed.

(** *** What a parsed program looks like *)

Lemma parse_code_loop_parsed rounds : forall fuel input p node code p',
  CodeNode_parsed node ->
  parse_code_loop rounds fuel input p node = Some (Ok (code, p')) ->
  CodeNode_parsed code /\ first_line_number code = first_line_number node.
Proof.
  induction rounds as [|rounds IH]; intros fuel input p node code p' Hnode;
    rewrite parse_code_loop_unfold;
    destruct (check LINE_NUMBER input p) as [[|]|]; try done;
    try (by intros [= <- <-]).
  destruct (parse_line fuel input p) as [[[line q]|err]|] eqn:E; [|done..].
  destruct (lines node !! line_number line) eqn:Hfresh; [done|].
  intros H. apply IH in H as [H1 H2]; [by split|].
  apply parse_line_bounds in E as [_ Hline].
  destruct Hnode as [[first Hfirst] Hlines]. split.
  - exists first. simpl. rewrite lookup_insert_ne; [done|]. congruence.
  - intros n l. simpl. intros [[<- <-]|[Hne Hl]]%lookup_insert_Some; [done|].
    by apply Hlines.
Qed.

Lemma parse_code_parsed fuel input p code p' :
  parse_code fuel input p = Some (Ok (code, p')) -> CodeNode_parsed code.
Proof.
  unfold parse_code, bindF.
  destruct (parse_line fuel input p) as [[[line q]|err]|] eqn:E; [|done..].
  intros H. apply parse_code_loop_parsed in H as [H _]; [done|].
  apply parse_line_bounds in E as [_ Hline]. split; simpl.
  - by rewrite lookup_insert_eq.
  - intros n l [[<- <-]|[_ Hl]]%lookup_insert_Some; [done|].
    by rewrite lookup_empty in Hl.
Qed.

End Lines.

(** * The grammar of expressions *)

Section Grammar.

Local Open Scope nat_scope.

Implicit Types (input t rest suffix symbol : list char) (c k : char) (p : nat).
Implicit Types (b : bool) (bs : list bool) (f : Prefixes) (l : Leaf).

Lemma check_loop_mismatch expected : forall actual t input p rest,
  mismatch expected actual = true ->
  spells actual t = true -> At input p (t ++ rest) ->
  check_loop expected input p = Ok false.
Proof.
  intros actual t. revert expected actual.
  induction t as [|c t IH]; intros expected actual input p rest Hm Hs HAt.
  - destruct actual; [|done]. by destruct expected.
  - destruct actual as [|y actual]; [done|].
    destruct expected as [|x expected]; [done|].
    destruct (At_cons _ _ _ _ HAt) as (Hc & HAt' & Hlen).
    simpl in Hs. destruct (is_whitespace c) eqn:Hw.
    + assert (Ht : t <> []) by (by apply (spells_nonempty (y :: actual))).
      assert (Hlt : S p < length input).
      { rewrite (At_length _ _ _ HAt'), length_app. destruct t; [done|]. simpl. lia. }
      simpl. rewrite (check_whitespace_step _ _ _ Hc Hw Hlt).
      by apply (IH (x :: expected) (y :: actual) _ _ rest).
    + apply andb_prop in Hs as [Hk Hs]. apply Ascii.eqb_eq in Hk as ->.
      simpl. rewrite (check_whitespace_stop _ _ _ Hc Hw). simpl. rewrite Hc.
      simpl in Hm. destruct (Ascii.eqb y x); [|done]. simpl.
      by apply (IH expected actual _ _ rest).
Qed.

Lemma check_mismatch (expected : string) actual t input p rest :
  mismatch (text expected) actual = true ->
  spells actual t = true -> At input p (t ++ rest) ->
  check expected input p = Ok false.
Proof.
  intros Hm Hs HAt. unfold check.
  destruct (length input <=? p) eqn:E; [done|].
  by apply (check_loop_mismatch _ actual t _ _ rest).
Qed.

(** The text of a symbol that is followed by more of the sentence. *)
Lemma check_head (expected : string) head tail t input p rest :
  spells (head ++ tail) t = true -> At input p (t ++ rest) ->
  (head = text expected -> head <> [] -> check expected input p = Ok true)
  /\ (mismatch (text expected) head = true -> check expected input p = Ok false).
Proof.
  intros Hs HAt. apply spells_app in Hs as (t1 & t2 & -> & H1 & H2).
  rewrite <- app_assoc in HAt. split.
  - intros -> Hne. by apply (check_spelled expected t1 _ _ (t2 ++ rest)).
  - intros Hm. by apply (check_mismatch expected head t1 _ _ (t2 ++ rest)).
Qed.

Lemma consume_head (expected : string) tail t input p rest :
  spells (text expected ++ tail) t = true -> At input p (t ++ rest) ->
  exists t1 t2, t = t1 ++ t2 /\ spells tail t2 = true
    /\ consume expected input p = Ok (p + length t1)
    /\ At input (p + length t1) (t2 ++ rest).
Proof.
  intros Hs HAt. apply spells_app in Hs as (t1 & t2 & -> & H1 & H2).
  rewrite <- app_assoc in HAt. exists t1, t2. repeat split; [done| |].
  - by apply (consume_spelled expected t1 _ _ (t2 ++ rest)).
  - by apply At_app in HAt.
Qed.

(** [skip_whitespace] in front of a text that spells a symbol stops inside
    the text, at the first character of the symbol. *)
Lemma skip_whitespace_spelled symbol t : forall input p rest,
  symbol <> [] -> spells symbol t = true -> At input p (t ++ rest) ->
  exists w t0, t = w ++ t0 /\ spells symbol t0 = true
    /\ skip_whitespace input p = p + length w
    /\ At input (p + length w) (t0 ++ rest)
    /\ skip_whitespace input (p + length w) = p + length w.
Proof.
  induction t as [|c t IH]; intros input p rest Hne Hs HAt.
  - by destruct symbol.
  - destruct (At_cons _ _ _ _ HAt) as (Hc & HAt' & _).
    destruct symbol as [|k symbol]; [done|]. simpl in Hs.
    destruct (is_whitespace c) eqn:Hw.
    + destruct (IH _ _ rest Hne Hs HAt') as (w & t0 & -> & Hs0 & Hskip & HAt0 & Hstop).
      exists (c :: w), t0. simpl.
      rewrite (skip_whitespace_step _ _ _ Hc Hw), Hskip.
      replace (p + S (length w)) with (S p + length w) by lia. done.
    + exists [], (c :: t). simpl. rewrite Hw. rewrite Nat.add_0_r.
      rewrite (skip_whitespace_stop _ _ _ Hc Hw). done.
Qed.


Lemma parse_expression4_level rec input p :
  parse_expression4 rec input p =
  prefix_level THE_VALUE_AT Expression4Node (parse_expression5 rec) input p.
Proof. reflexivity. Qed.

Lemma parse_expression3_level rec input p :
  parse_expression3 rec input p =
  prefix_level THE_VALUE_BEYOND Expression3Node (parse_expression4 rec) input p.
Proof. reflexivity. Qed.

Lemma parse_expression2_level rec input p :
  parse_expression2 rec input p =
  prefix_level THE_ADDRESS_OF Expression2Node (parse_expression3 rec) input p.
Proof. reflexivity. Qed.

Lemma prefix_level_reads (keyword : string) wrap next_level (present : bool)
    symbol head tail node input rest :
  text keyword <> [] ->
  symbol = head ++ tail -> mismatch (text keyword) head = true ->
  reads next_level symbol node input rest ->
  reads (prefix_level keyword wrap next_level)
        ((if present then text keyword else []) ++ symbol)
        (if present then wrap node else node) input rest.
Proof.
  intros Hkeyword Hsymbol Hmismatch Hnext t p Hs HAt.
  assert (Hhead : head <> []) by (intros ->; by destruct (text keyword)).
  destruct (skip_whitespace_spelled ((if present then text keyword else []) ++ symbol)
              t input p rest) as (w & t0 & -> & Hs0 & Hskip & HAt0 & _); [|done..|].
  { destruct present; [by destruct (text keyword)|]. subst symbol. by destruct head. }
  unfold prefix_level. rewrite Hskip. destruct present.
  - destruct (check_head keyword (text keyword) symbol t0 input _ rest Hs0 HAt0) as [Hcheck _].
    rewrite Hcheck by done. simpl.
    destruct (consume_head keyword symbol t0 input _ rest Hs0 HAt0)
      as (t1 & t2 & -> & Hs2 & Hconsume & HAt2).
    rewrite Hconsume. simpl. rewrite (Hnext t2 _ Hs2 HAt2). simpl.
    do 3 f_equal. rewrite !length_app. lia.
  - simpl in Hs0. subst symbol.
    destruct (check_head keyword head tail t0 input _ rest Hs0 HAt0) as [_ Hcheck].
    rewrite Hcheck by done. simpl. rewrite (Hnext t0 _ Hs0 HAt0).
    do 3 f_equal. rewrite !length_app. lia.
Qed.


Lemma leaf_symbol_head l :
  exists head tail, leaf_symbol l = head ++ tail
    /\ mismatch (text THE_VALUE_AT) head = true
    /\ mismatch (text THE_VALUE_BEYOND) head = true
    /\ mismatch (text THE_ADDRESS_OF) head = true.
Proof.
  destruct l as [b bs| |b bs|f l'|f1 l1 f2 l2].
  - by exists (text VARIABLE), (bits_symbol (b :: bs)).
  - exists (text THE_JUMP_REGISTER), []. by rewrite app_nil_r.
  - exists (text (word b)), (bits_symbol bs). by destruct b.
  - by eexists (text OPEN_PARENTHESIS), _.
  - by eexists (text OPEN_PARENTHESIS), _.
Qed.

(** An operand is read by [parse_expression2] when its leaf is read by
    [parse_expression5]. *)
Lemma operand_reads rec f l input rest :
  reads (parse_expression5 rec) (leaf_symbol l) (leaf_node l) input rest ->
  reads (parse_expression2 rec) (operand_symbol f l) (operand_node f l) input rest.
Proof.
  intros Hleaf. destruct f as [address_of value_beyond value_at].
  destruct (leaf_symbol_head l) as (head & tail & Hl & Hat & Hbeyond & Haddress).
  unfold operand_symbol, operand_node, prefixes_symbol, prefixes_node. simpl.
  pose proof (prefix_level_reads THE_VALUE_AT Expression4Node (parse_expression5 rec)
                value_at _ head tail _ input rest ltac:(done) Hl Hat Hleaf) as H4.
  assert (Hhead4 : exists head4 tail4,
    (if value_at then text THE_VALUE_AT else []) ++ leaf_symbol l = head4 ++ tail4
    /\ mismatch (text THE_VALUE_BEYOND) head4 = true
    /\ mismatch (text THE_ADDRESS_OF) head4 = true).
  { destruct value_at.
    - by eexists (text THE_VALUE_AT), _.
    - by exists head, tail. }
  destruct Hhead4 as (head4 & tail4 & Hl4 & Hbeyond4 & Haddress4).
  pose proof (prefix_level_reads THE_VALUE_BEYOND Expression3Node (parse_expression4 rec)
                value_beyond _ head4 tail4 _ input rest ltac:(done) Hl4 Hbeyond4 H4) as H3.
  assert (Hhead3 : exists head3 tail3,
    (if value_beyond then text THE_VALUE_BEYOND else [])
    ++ (if value_at then text THE_VALUE_AT else []) ++ leaf_symbol l = head3 ++ tail3
    /\ mismatch (text THE_ADDRESS_OF) head3 = true).
  { destruct value_beyond.
    - by eexists (text THE_VALUE_BEYOND), _.
    - by exists head4, tail4. }
  destruct Hhead3 as (head3 & tail3 & Hl3 & Haddress3).
  rewrite <- !app_assoc.
  exact (prefix_level_reads THE_ADDRESS_OF Expression2Node (parse_expression3 rec)
           address_of _ head3 tail3 _ input rest ltac:(done) Hl3 Haddress3 H3).
Qed.

Lemma expression_ends_next rest :
  expression_ends rest = true ->
  bit_string_ends rest = true /\ next_character rest <> Some "N"%char.
Proof.
  unfold expression_ends, bit_string_ends. destruct (next_character rest) as [c|]; [|done].
  intros [H1 H2]%andb_prop. split; [done|]. by intros [= ->].
Qed.

Lemma operand_symbol_nonempty f l : operand_symbol f l <> [].
Proof.
  unfold operand_symbol, prefixes_symbol.
  destruct f as [[|] [|] [|]]; try done; simpl.
  all: destruct l as [b bs| |[|] bs|f l'|f1 l1 f2 l2]; done.
Qed.

(** An expression is read by the body of [parse_expression] when the leaves
    of its operands are read by [parse_expression5]. *)
Lemma expression_reads rec f1 l1 (right : option (Prefixes * Leaf)) input rest :
  (forall rest', bit_string_ends rest' = true ->
     reads (parse_expression5 rec) (leaf_symbol l1) (leaf_node l1) input rest') ->
  (forall f2 l2, right = Some (f2, l2) ->
     forall rest', bit_string_ends rest' = true ->
     reads (parse_expression5 rec) (leaf_symbol l2) (leaf_node l2) input rest') ->
  expression_ends rest = true ->
  reads (parse_expression1 rec) (expression_symbol f1 l1 right)
        (expression_node f1 l1 right) input rest.
Proof.
  intros Hleft Hright Hend t p Hs HAt.
  destruct (expression_ends_next _ Hend) as [Hbits HN].
  destruct right as [[f2 l2]|]; unfold expression_symbol, expression_node in *;
    cbv beta iota in *.
  - apply spells_app in Hs as (tL & u & -> & HsL & Hs).
    apply spells_app in Hs as (tN & tR & -> & HsN & HsR).
    rewrite <- !app_assoc in HAt.
    destruct (skip_whitespace_spelled _ tL input p (tN ++ tR ++ rest)
                (operand_symbol_nonempty f1 l1) HsL HAt)
      as (w & t0 & -> & Hs0 & Hskip & HAt0 & _).
    unfold parse_expression1. rewrite Hskip.
    assert (HendL : bit_string_ends (tN ++ tR ++ rest) = true).
    { by apply (bit_string_ends_spelled "N"%char (text "AND")). }
    rewrite (operand_reads rec f1 l1 input _ (Hleft _ HendL) t0 _ Hs0 HAt0). simpl.
    pose proof (At_app _ _ _ _ HAt0) as HAtN.
    rewrite (check_spelled NAND tN _ _ (tR ++ rest)); [|done..]. simpl.
    rewrite (consume_spelled NAND tN _ _ (tR ++ rest) HsN HAtN). simpl.
    pose proof (At_app _ _ _ _ HAtN) as HAtR.
    rewrite (operand_reads rec f2 l2 input _ (Hright _ _ eq_refl _ Hbits) tR _ HsR HAtR).
    simpl. do 3 f_equal. rewrite !length_app. lia.
  - destruct (skip_whitespace_spelled _ t input p rest
                (operand_symbol_nonempty f1 l1) Hs HAt)
      as (w & t0 & -> & Hs0 & Hskip & HAt0 & _).
    unfold parse_expression1. rewrite Hskip.
    rewrite (operand_reads rec f1 l1 input _ (Hleft _ Hbits) t0 _ Hs0 HAt0). simpl.
    pose proof (At_app _ _ _ _ HAt0) as HAtN.
    rewrite (check_other NAND "N"%char (text "AND") rest); [|done..]. simpl.
    do 3 f_equal. rewrite !length_app. lia.
Qed.


Lemma expression_ends_spelled k symbol t rest :
  spells (k :: symbol) t = true ->
  k <> "Z"%char -> k <> "O"%char -> k <> "N"%char ->
  expression_ends (t ++ rest) = true.
Proof.
  intros Hs HZ HO HN. unfold expression_ends.
  rewrite (next_character_spelled _ _ _ _ Hs).
  repeat (apply andb_true_intro; split); apply negb_true_iff, Ascii.eqb_neq; done.
Qed.

Lemma leaf_symbol_nonempty l : leaf_symbol l <> [].
Proof. destruct l as [b bs| |[|] bs|f l'|f1 l1 f2 l2]; done. Qed.

Lemma parse_expression5_skip rec input p :
  parse_expression5 rec input (skip_whitespace input p) = parse_expression5 rec input p.
Proof. unfold parse_expression5. by rewrite skip_whitespace_idempotent. Qed.

(** The checks in front of a parenthesis in [parse_expression5]. *)
Lemma parse_expression5_parenthesis rec inner t input p rest :
  spells (text OPEN_PARENTHESIS ++ inner ++ text CLOSE_PARENTHESIS) t = true ->
  At input p (t ++ rest) ->
  skip_whitespace input p = p ->
  exists tO tI tC, t = tO ++ tI ++ tC
    /\ spells inner tI = true
    /\ At input (p + length tO) (tI ++ tC ++ rest)
    /\ parse_expression5 rec input p =
       match rec input (p + length tO) with
       | Some (Ok (node, p2)) =>
           match consume CLOSE_PARENTHESIS input p2 with
           | Ok p3 => Some (Ok (node, p3))
           | Err err => Some (Err err)
           end
       | Some (Err err) => Some (Err err)
       | None => None
       end
    /\ consume CLOSE_PARENTHESIS input (p + length tO + length tI) =
       Ok (p + length tO + length tI + length tC)
    /\ expression_ends (tC ++ rest) = true.
Proof.
  intros Hs HAt Hskip.
  pose proof Hs as Hs'.
  apply spells_app in Hs' as (tO & u & -> & HsO & Hs').
  apply spells_app in Hs' as (tI & tC & -> & HsI & HsC).
  exists tO, tI, tC. split; [done|]. split; [done|].
  pose proof HAt as HAt'. rewrite <- !app_assoc in HAt'.
  pose proof (At_app _ _ _ _ HAt') as HAtI.
  pose proof (At_app _ _ _ _ HAtI) as HAtC.
  split; [done|]. split; [|split].
  - unfold parse_expression5, check_or. rewrite Hskip.
    destruct (check_head VARIABLE (text OPEN_PARENTHESIS) _ _ _ _ _ Hs HAt) as [_ ->]; [|done].
    simpl.
    destruct (check_head THE_JUMP_REGISTER (text OPEN_PARENTHESIS) _ _ _ _ _ Hs HAt)
      as [_ ->]; [|done].
    simpl.
    destruct (check_head ZERO (text OPEN_PARENTHESIS) _ _ _ _ _ Hs HAt) as [_ ->]; [|done].
    simpl.
    destruct (check_head ONE (text OPEN_PARENTHESIS) _ _ _ _ _ Hs HAt) as [_ ->]; [|done].
    simpl.
    destruct (check_head OPEN_PARENTHESIS (text OPEN_PARENTHESIS) _ _ _ _ _ Hs HAt)
      as [Hopen _].
    rewrite Hopen by done.
    simpl.
    rewrite (consume_spelled OPEN_PARENTHESIS tO _ _ (tI ++ tC ++ rest) HsO HAt'). simpl.
    unfold bindF. by destruct (rec input (p + length tO)) as [[[node p2]|err]|].
  - by apply (consume_spelled CLOSE_PARENTHESIS tC _ _ rest).
  - by apply (expression_ends_spelled "C"%char (text "LOSEPARENTHESIS")).
Qed.

(** A parenthesis is read when the parser called inside reads what is
    between the parentheses. *)
Lemma parenthesis_reads rec inner node input rest :
  (forall rest', expression_ends rest' = true -> reads rec inner node input rest') ->
  reads (parse_expression5 rec)
        (text OPEN_PARENTHESIS ++ inner ++ text CLOSE_PARENTHESIS) node input rest.
Proof.
  intros Hrec t p Hs HAt.
  assert (Hne : text OPEN_PARENTHESIS ++ inner ++ text CLOSE_PARENTHESIS <> []) by done.
  destruct (skip_whitespace_spelled _ t input p rest Hne Hs HAt)
    as (w & t0 & -> & Hs0 & Hskip & HAt0 & Hstop).
  rewrite <- parse_expression5_skip, Hskip.
  destruct (parse_expression5_parenthesis rec inner t0 input _ rest Hs0 HAt0 Hstop)
    as (tO & tI & tC & -> & HsI & HAtI & Hpe & Hclose & Hends).
  rewrite Hpe, (Hrec _ Hends tI _ HsI HAtI), Hclose.
  do 3 f_equal. rewrite !length_app. lia.
Qed.

(** Every leaf is read by [parse_expression5] when the fuel covers the
    depth of its parentheses. *)
Lemma leaf_reads l : forall fuel,
  leaf_depth l <= fuel ->
  forall input rest, bit_string_ends rest = true ->
  reads (parse_expression5 (parse_expression fuel)) (leaf_symbol l) (leaf_node l) input rest.
Proof.
  induction l as [b bs| |b bs|f l' IH|f1 l1 IH1 f2 l2 IH2];
    intros fuel Hfuel input rest Hend.
  - (* VARIABLE <bits> *)
    intros t p Hs HAt.
    destruct (skip_whitespace_spelled _ t input p rest (leaf_symbol_nonempty _) Hs HAt)
      as (w & t0 & -> & Hs0 & Hskip & HAt0 & Hstop).
    unfold parse_expression5, check_or, parse_variable. rewrite Hskip.
    destruct (check_head VARIABLE (text VARIABLE) (bits_symbol (b :: bs)) _ _ _ _ Hs0 HAt0)
      as [Hvariable _].
    rewrite Hvariable by done.
    simpl.
    destruct (consume_head VARIABLE (bits_symbol (b :: bs)) _ _ _ _ Hs0 HAt0)
      as (t1 & t2 & -> & Hs2 & -> & HAt2).
    simpl. rewrite (parse_bits_spelled b bs t2 _ _ rest Hs2 HAt2 Hend). simpl.
    do 3 f_equal. rewrite !length_app. lia.
  - (* THE JUMP REGISTER *)
    intros t p Hs HAt.
    destruct (skip_whitespace_spelled _ t input p rest (leaf_symbol_nonempty _) Hs HAt)
      as (w & t0 & -> & Hs0 & Hskip & HAt0 & Hstop).
    assert (Hs1 : spells (text THE_JUMP_REGISTER ++ []) t0 = true) by (by rewrite app_nil_r).
    unfold parse_expression5, check_or, parse_variable. rewrite Hskip.
    destruct (check_head VARIABLE (text THE_JUMP_REGISTER) [] _ _ _ _ Hs1 HAt0)
      as [_ ->]; [|done].
    simpl.
    destruct (check_head THE_JUMP_REGISTER (text THE_JUMP_REGISTER) [] _ _ _ _ Hs1 HAt0)
      as [Hregister _].
    rewrite Hregister by done.
    simpl. rewrite (consume_spelled THE_JUMP_REGISTER t0 _ _ rest Hs0 HAt0). simpl.
    do 3 f_equal. rewrite !length_app. lia.
  - (* <bits> *)
    intros t p Hs HAt.
    destruct (skip_whitespace_spelled _ t input p rest (leaf_symbol_nonempty _) Hs HAt)
      as (w & t0 & -> & Hs0 & Hskip & HAt0 & Hstop).
    assert (Hs1 : spells (text (word b) ++ bits_symbol bs) t0 = true) by done.
    unfold parse_expression5, check_or. rewrite Hskip.
    destruct (check_head VARIABLE (text (word b)) _ _ _ _ _ Hs1 HAt0) as [_ ->];
      [|by destruct b].
    simpl.
    destruct (check_head THE_JUMP_REGISTER (text (word b)) _ _ _ _ _ Hs1 HAt0) as [_ ->];
      [|by destruct b].
    simpl.
    assert (Hbit : (do first <- check ZERO input (p + length w);
                    if first then Ok true else check ONE input (p + length w)) = Ok true).
    { destruct b.
      - destruct (check_head ZERO (text ONE) _ _ _ _ _ Hs1 HAt0) as [_ ->]; [|done].
        simpl. destruct (check_head ONE (text ONE) _ _ _ _ _ Hs1 HAt0) as [Hone _].
        by rewrite Hone.
      - destruct (check_head ZERO (text ZERO) _ _ _ _ _ Hs1 HAt0) as [Hzero _].
        by rewrite Hzero. }
    rewrite Hbit. simpl.
    rewrite (parse_bits_spelled b bs t0 _ _ rest Hs0 HAt0 Hend). simpl.
    do 3 f_equal. rewrite !length_app. lia.
  - (* ( operand ) *)
    destruct fuel as [|fuel]; [simpl in Hfuel; lia|]. simpl in Hfuel.
    apply (parenthesis_reads _ (expression_symbol f l' None) (expression_node f l' None)).
    intros rest' Hends.
    change (parse_expression (S fuel)) with (parse_expression1 (parse_expression fuel)).
    apply expression_reads; [|done|done].
    intros rest'' Hbits. apply IH; [lia|done].
  - (* ( operand NAND operand ) *)
    destruct fuel as [|fuel]; [simpl in Hfuel; lia|]. simpl in Hfuel.
    apply (parenthesis_reads _ (expression_symbol f1 l1 (Some (f2, l2)))
             (expression_node f1 l1 (Some (f2, l2)))).
    intros rest' Hends.
    change (parse_expression (S fuel)) with (parse_expression1 (parse_expression fuel)).
    apply expression_reads; [| |done].
    + intros rest'' Hbits. apply IH1; [lia|done].
    + intros f l [= <- <-] rest'' Hbits. apply IH2; [lia|done].
Qed.

(** [parse_expression] reads every expression when the fuel is above the
    depth of its parentheses. *)
Lemma parse_expression_reads (fuel : nat) f1 l1 (right : option (Prefixes * Leaf)) input rest :
  expression_depth l1 right < fuel ->
  expression_ends rest = true ->
  reads (parse_expression fuel) (expression_symbol f1 l1 right)
        (expression_node f1 l1 right) input rest.
Proof.
  intros Hfuel Hend. destruct fuel as [|fuel]; [lia|].
  change (parse_expression (S fuel)) with (parse_expression1 (parse_expression fuel)).
  apply expression_reads; [| |done].
  - intros rest' Hbits. apply leaf_reads; [|done].
    destruct right as [[f2 l2]|]; simpl in Hfuel; lia.
  - intros f2 l2 -> rest' Hbits. apply leaf_reads; [|done]. simpl in Hfuel. lia.
Qed.

(** X9: [parse_expression] reads every expression of the grammar: one
    operand, or two with NAND between them, each a variable, the jump
    register, a bit string or an expression in parentheses behind the
    prefixes THE ADDRESS OF, THE VALUE BEYOND and THE VALUE AT in that
    order, with any whitespace in front of any character.  It returns the
    node of the expression and stops behind its last character, when what
    follows starts neither a bit nor NAND and the bound on the calls in
    progress is above the depth of the parentheses. *)
Theorem parse_expression_grammar (f1 : Prefixes) (l1 : Leaf) (right : option (Prefixes * Leaf))
    (fuel : nat) (pre t rest : list char) :
  expression_depth l1 right < fuel ->
  spells (expression_symbol f1 l1 right) t = true ->
  expression_ends rest = true ->
  parse_expression fuel (pre ++ t ++ rest) (length pre) =
  Some (Ok (expression_node f1 l1 right, length pre + length t)).
Proof.
  intros Hfuel Hs Hend.
  apply (parse_expression_reads fuel f1 l1 right (pre ++ t ++ rest) rest Hfuel Hend t);
    [done|apply At_intro].
Qed.

Lemma parse_expression_grammar_witness :
  parse_expression 2
    (text "VARIABLE ONE EQUALS"
     ++ (text " OPEN PARENTHESIS THE VALUE AT VARIABLE ZERO NAND ONE CLOSE PARENTHESIS"
         ++ text " NAND THE ADDRESS OF THE JUMP REGISTER")
     ++ text " GOTO ONE")
    (length (text "VARIABLE ONE EQUALS")) =
  Some (Ok (Expression1Node
              (Expression1Node (Expression4Node (VariableNode 0))
                               (Some (Expression5Node 1)))
              (Some (Expression2Node (VariableNode jump_register_address))),
            128)).
Proof.
  apply (parse_expression_grammar
           (mkPrefixes false false false)
           (LNand (mkPrefixes false false true) (LVariable false [])
                  (mkPrefixes false false false) (LConstant true []))
           (Some (mkPrefixes true false false, LJumpRegister))
           2 (text "VARIABLE ONE EQUALS")
           (text " OPEN PARENTHESIS THE VALUE AT VARIABLE ZERO NAND ONE CLOSE PARENTHESIS"
            ++ text " NAND THE ADDRESS OF THE JUMP REGISTER")
           (text " GOTO ONE")).
  - simpl. lia.
  - reflexivity.
  - reflexivity.
Defined.

End Grammar.

(** * Further properties of the scanner *)

Section Lookahead.

Local Open Scope nat_scope.

Implicit Types (input t rest suffix symbol : list char) (c k : char) (p : nat).

(** X10: [skip_whitespace] moves the cursor forward over whitespace only,
    never past the end of the input, and stops at the first character
    that is no whitespace or at the end. *)
Theorem skip_whitespace_stops input p :
  p <= skip_whitespace input p
  /\ (p <= length input -> skip_whitespace input p <= length input)
  /\ (forall i c, p <= i < skip_whitespace input p ->
        input !! i = Some c -> is_whitespace c = true)
  /\ (forall c, input !! skip_whitespace input p = Some c -> is_whitespace c = false).
Proof.
  split; [apply skip_whitespace_loop_bounds|].
  split; [apply skip_whitespace_loop_bounds|].
  remember (length input - p) as n eqn:Hn. revert p Hn.
  induction n as [|n IH]; intros p Hn.
  - assert (Hnone : input !! p = None) by (apply lookup_ge_None; lia).
    rewrite (skip_whitespace_end _ _ Hnone). split; [lia|]. by rewrite Hnone.
  - destruct (input !! p) as [c|] eqn:Hc.
    + destruct (is_whitespace c) eqn:Hw.
      * rewrite (skip_whitespace_step _ _ _ Hc Hw).
        destruct (IH (S p) ltac:(lia)) as [Hbefore Hstop]. split; [|done].
        intros i c' Hi Hic'. destruct (decide (i = p)) as [->|Hne].
        -- by simplify_eq.
        -- apply (Hbefore i c'); [lia|done].
      * rewrite (skip_whitespace_stop _ _ _ Hc Hw). split; [lia|].
        intros c' Hc'. by simplify_eq.
    + rewrite (skip_whitespace_end _ _ Hc). split; [lia|]. by rewrite Hc.
Qed.

(** The whitespace loop of [check] stops where [skip_whitespace] stops,
    and gives up when that is the end of the input. *)
Lemma check_whitespace_skip input p :
  p < length input ->
  check_whitespace (length input - p) input p =
  if skip_whitespace input p <? length input
  then Ok (Some (skip_whitespace input p)) else Ok None.
Proof.
  remember (length input - p) as n eqn:Hn. revert p Hn.
  induction n as [|n IH]; intros p Hn Hp; [lia|]. rewrite Hn.
  destruct (lookup_lt_is_Some_2 input p Hp) as [c Hc].
  destruct (is_whitespace c) eqn:Hw.
  - rewrite (skip_whitespace_step _ _ _ Hc Hw).
    destruct (decide (S p < length input)) as [Hlt|Hge].
    + rewrite (check_whitespace_step _ _ _ Hc Hw Hlt).
      replace (length input - S p) with n by lia. apply IH; lia.
    + rewrite (check_whitespace_last _ _ _ Hc Hw ltac:(lia)).
      rewrite (skip_whitespace_end input (S p)) by (apply lookup_ge_None; lia).
      by destruct (Nat.ltb_spec (S p) (length input)); [lia|].
  - rewrite (check_whitespace_stop _ _ _ Hc Hw), (skip_whitespace_stop _ _ _ Hc Hw).
    by destruct (Nat.ltb_spec p (length input)); [|lia].
Qed.

Lemma check_loop_consume_loop message characters : forall input p,
  check_loop characters input p = Ok true
  <-> exists p', consume_loop message characters input p = Ok p'.
Proof.
  induction characters as [|k characters IH]; intros input p; simpl.
  - split; [by exists p|done].
  - destruct (decide (p < length input)) as [Hp|Hp].
    + rewrite (check_whitespace_skip _ _ Hp). unfold consume_char.
      destruct (Nat.ltb_spec (skip_whitespace input p) (length input)) as [Hq|Hq]; simpl.
      * destruct (lookup_lt_is_Some_2 input _ Hq) as [c Hc]. rewrite Hc.
        destruct (Ascii.eqb c k); simpl; [apply IH|].
        split; [done|]. by intros [p' Hp'].
      * rewrite (proj2 (lookup_ge_None input _) Hq).
        split; [done|]. by intros [p' Hp'].
    + rewrite (skip_whitespace_end input p) by (apply lookup_ge_None; lia).
      unfold consume_char. rewrite (proj2 (lookup_ge_None input p)) by lia.
      replace (length input - p) with 0 by lia. simpl.
      split; [done|]. by intros [p' Hp'].
Qed.

(** X11: [check] is an exact lookahead for [consume]: for a symbol that is
    not empty, [check] answers true at a position exactly when [consume]
    succeeds from there. *)
Theorem check_iff_consume (symbol : string) input p :
  symbol <> EmptyString ->
  check symbol input p = Ok true <-> exists p', consume symbol input p = Ok p'.
Proof.
  intros Hne. unfold check, consume.
  destruct (Nat.leb_spec (length input) p) as [Hp|Hp].
  - destruct symbol as [|k symbol]; [done|]. simpl.
    rewrite (skip_whitespace_end input p) by (apply lookup_ge_None; lia).
    unfold consume_char. rewrite (proj2 (lookup_ge_None input p)) by lia.
    split; [done|]. by intros [p' Hp'].
  - apply check_loop_consume_loop.
Qed.

Lemma check_iff_consume_witness :
  check GOTO (text "PRINT ONE  GO TO ONE") 9 = Ok true
  <-> exists p', consume GOTO (text "PRINT ONE  GO TO ONE") 9 = Ok p'.
Proof. apply (check_iff_consume GOTO (text "PRINT ONE  GO TO ONE") 9). done. Defined.

Lemma check_loop_truncated head tail t : forall input p,
  tail <> [] -> spells head t = true -> At input p t ->
  check_loop (head ++ tail) input p = Err OutOfRange.
Proof.
  revert head. induction t as [|c t IH]; intros head input p Htail Hs HAt.
  - destruct head; [|done]. destruct tail as [|k tail]; [done|].
    apply At_nil in HAt as [Hlen _]. simpl.
    replace (length input - p) with 0 by lia. done.
  - simpl in Hs. destruct head as [|k head]; [done|].
    destruct (At_cons _ _ _ _ HAt) as (Hc & HAt' & Hlen).
    destruct (is_whitespace c) eqn:Hw.
    + assert (Ht : t <> []) by (by apply (spells_nonempty (k :: head))).
      assert (Hlt : S p < length input).
      { rewrite (At_length _ _ _ HAt'). destruct t; [done|]. simpl. lia. }
      simpl. rewrite (check_whitespace_step _ _ _ Hc Hw Hlt).
      by apply (IH (k :: head) _ _ Htail Hs HAt').
    + apply andb_prop in Hs as [Hk Hs]. apply Ascii.eqb_eq in Hk as ->.
      simpl. rewrite (check_whitespace_stop _ _ _ Hc Hw). simpl.
      rewrite Hc, Ascii.eqb_refl. simpl.
      by apply (IH head _ _ Htail Hs HAt').
Qed.

(** X12: when the input ends inside a symbol, behind a beginning of the
    symbol that is spelled in full, [check] does not answer false: its
    [input->at] runs past the end and raises [out_of_range]. *)
Theorem check_truncated (symbol : string) head tail pre t :
  text symbol = head ++ tail -> head <> [] -> tail <> [] ->
  spells head t = true ->
  check symbol (pre ++ t) (length pre) = Err OutOfRange.
Proof.
  intros Hsymbol Hhead Htail Hs. unfold check.
  pose proof (spells_nonempty _ _ Hs Hhead) as Ht.
  destruct (Nat.leb_spec (length (pre ++ t)) (length pre)) as [Hlen|Hlen].
  - rewrite length_app in Hlen. destruct t; [done|]. simpl in Hlen. lia.
  - fold (text symbol). rewrite Hsymbol.
    apply (check_loop_truncated head tail t); [done..|apply At_intro].
Qed.

Lemma check_truncated_witness :
  check GOTO (text "LINE NUMBER ZERO CODE PRINT ONE GO") 31 = Err OutOfRange.
Proof.
  apply (check_truncated GOTO (text "GO") (text "TO")
           (text "LINE NUMBER ZERO CODE PRINT ONE") (text " GO")); done.
Defined.

End Lookahead.

(** * Further properties of programs *)

Section Runs.
















End Runs.

(** * Properties of parsed programs *)

Section Parsed.

Local Open Scope nat_scope.

(** X14: [parse] returns on every input: the calls of [parse_expression]
    in progress and the rounds of the loop over the lines never exceed
    the length of the input, so every bound above that length gives a
    result, a program or an error, and every larger bound gives the same
    one. *)
Theorem parse_returns (fuel : nat) (input : list char) :
  length input < fuel ->
  exists r, parse fuel input = Some r
    /\ forall fuel', fuel <= fuel' -> parse fuel' input = Some r.
Proof.
  intros Hfuel. unfold parse.
  destruct (parse_code fuel input 0) as [r|] eqn:Hcode;
    [|by apply parse_code_defined in Hcode].
  exists (match r with Ok (code, _) => Ok code | Err err => Err err end). split.
  - by destruct r as [[code p]|err].
  - intros fuel' Hle. rewrite (parse_code_more _ _ _ _ _ Hle Hcode).
    by destruct r as [[code p]|err].
Qed.

Lemma parse_returns_witness :
  exists r, parse 73 two_lines = Some r
    /\ forall fuel', 73 <= fuel' -> parse fuel' two_lines = Some r.
Proof. apply (parse_returns 73 two_lines). vm_compute. lia. Defined.

(** X15: in every program that [parse] returns, the first line is a line
    of the program and every line is stored under its own number; a
    command prints 0 or 1 or reads; an assignment with a target expression
    has the address [INT_MIN], below every address; and a goto is either
    unconditional, without arms, or conditional, without a direct
    target. *)
Theorem parse_well_formed (fuel : nat) (input : list char) (code : CodeNode) :
  parse fuel input = Some (Ok code) -> CodeNode_parsed code.
Proof.
  unfold parse. intros H.
  destruct (parse_code fuel input 0) as [[[code' p]|err]|] eqn:Hcode; simplify_eq.
  simpl in H. simplify_eq. by eapply parse_code_parsed.
Qed.

Lemma parse_well_formed_witness : CodeNode_parsed print_zero_one.
Proof. apply (parse_well_formed 73 two_lines print_zero_one). reflexivity. Defined.

(** X16: in a program that [parse] returns, a goto resolves in every state
    without an error and without touching the state: the parser never
    tags a target as an address, so the branch of
    [GotoNode::next_line_number] that reads the target from memory is
    never taken. *)
Theorem parsed_goto_resolves (fuel : nat) (input : list char) (code : CodeNode)
    (n : Z) (l : LineNode) (g : GotoNode) (s : State) :
  parse fuel input = Some (Ok code) ->
  lines code !! n = Some l -> go l = Some g ->
  GotoNode_next_line_number g s = Ok (resolved g (jump_register s), s).
Proof.
  unfold parse. intros H Hl Hg.
  destruct (parse_code fuel input 0) as [[[code' p]|err]|] eqn:Hcode; simplify_eq.
  simpl in H. simplify_eq.
  apply parse_code_parsed in Hcode as [_ Hlines].
  destruct (Hlines n l Hl) as [_ [_ Hgo]]. rewrite Hg in Hgo. destruct Hgo as [Htype _].
  unfold GotoNode_next_line_number, resolved. rewrite Htype. simpl.
  by repeat case_match.
Qed.

Lemma parsed_goto_resolves_witness :
  GotoNode_next_line_number (set_next_value 1 GotoNode_new) (initial_state []) =
  Ok (1%Z, initial_state []).
Proof.
  apply (parsed_goto_resolves 73 two_lines print_zero_one 0
           {| line_number := 0; instruction := Command {| print_value := 0 |};
              go := Some (set_next_value 1 GotoNode_new) |}
           (set_next_value 1 GotoNode_new) (initial_state [])); reflexivity.
Defined.

End Parsed.

(** * The grammar of programs *)

Section ProgramGrammar.

Local Open Scope nat_scope.

Implicit Types (input t rest suffix symbol : list char) (c k : char) (p : nat).
Implicit Types (b : bool) (bs : list bool) (f : Prefixes).

Lemma line_ends_next rest :
  line_ends rest = true ->
  expression_ends rest = true /\ goto_ends rest = true
  /\ next_character rest <> Some "G"%char.
Proof.
  unfold line_ends, expression_ends, goto_ends.
  destruct (next_character rest) as [c|]; [|done].
  intros ((((HZ & HO)%andb_prop & HN)%andb_prop & HG)%andb_prop & HI)%andb_prop.
  rewrite HZ, HO, HN, HI. repeat split. intros [= ->]. done.
Qed.

Lemma line_ends_spelled k symbol t rest :
  spells (k :: symbol) t = true ->
  k <> "Z"%char -> k <> "O"%char -> k <> "N"%char -> k <> "G"%char -> k <> "I"%char ->
  line_ends (t ++ rest) = true.
Proof.
  intros Hs HZ HO HN HG HI. unfold line_ends.
  rewrite (next_character_spelled _ _ _ _ Hs).
  repeat (apply andb_true_intro; split); apply negb_true_iff, Ascii.eqb_neq; done.
Qed.

Lemma parse_command_print b t input p rest :
  spells (text PRINT ++ text (word b)) t = true -> At input p (t ++ rest) ->
  parse_command input p = Ok ({| print_value := Z.b2z b |}, p + length t).
Proof.
  intros Hs HAt.
  destruct (skip_whitespace_spelled (text PRINT ++ text (word b)) t input p rest)
    as (w & t0 & -> & Hs0 & Hskip & HAt0 & _); [done..|].
  unfold parse_command. rewrite Hskip.
  destruct (check_head PRINT (text PRINT) _ _ _ _ _ Hs0 HAt0) as [Hprint _].
  rewrite Hprint by done. simpl.
  destruct (consume_head PRINT _ _ _ _ _ Hs0 HAt0) as (t1 & t2 & -> & Hs2 & -> & HAt2).
  simpl. rewrite (parse_bit_spelled b t2 _ _ rest Hs2 HAt2). simpl.
  do 2 f_equal. rewrite !length_app. lia.
Qed.

Lemma parse_command_read t input p rest :
  spells (text READ) t = true -> At input p (t ++ rest) ->
  parse_command input p = Ok ({| print_value := -1 |}, p + length t).
Proof.
  intros Hs HAt.
  destruct (skip_whitespace_spelled (text READ) t input p rest)
    as (w & t0 & -> & Hs0 & Hskip & HAt0 & _); [done..|].
  unfold parse_command. rewrite Hskip.
  rewrite (check_mismatch PRINT (text READ) t0 _ _ rest); [|done..]. simpl.
  rewrite (check_spelled READ t0 _ _ rest); [|done..]. simpl.
  rewrite (consume_spelled READ t0 _ _ rest Hs0 HAt0). simpl.
  do 2 f_equal. rewrite !length_app. lia.
Qed.

(** The keyword that an operand starts with. *)
Lemma operand_symbol_head f (l : Leaf) :
  exists (keyword : string) tail,
    operand_symbol f l = text keyword ++ tail
    /\ keyword ∈ [THE_ADDRESS_OF; THE_VALUE_BEYOND; THE_VALUE_AT; VARIABLE;
                  THE_JUMP_REGISTER; ZERO; ONE; OPEN_PARENTHESIS]
    /\ (keyword = VARIABLE \/ keyword = THE_JUMP_REGISTER ->
        with_address_of f = false /\ with_value_beyond f = false /\ with_value_at f = false
        /\ match l with LVariable _ _ | LJumpRegister => True | _ => False end).
Proof.
  unfold operand_symbol, prefixes_symbol.
  destruct f as [[|] value_beyond value_at];
    cbn [with_address_of with_value_beyond with_value_at app].
  { eexists THE_ADDRESS_OF, _. split; [by rewrite <- app_assoc|].
    split; [set_solver|]. by intros [?|?]. }
  destruct value_beyond; cbn [app].
  { eexists THE_VALUE_BEYOND, _. split; [by rewrite <- app_assoc|].
    split; [set_solver|]. by intros [?|?]. }
  destruct value_at; cbn [app].
  { eexists THE_VALUE_AT, _. split; [done|]. split; [set_solver|]. by intros [?|?]. }
  destruct l as [b bs| |b bs|f' l'|f1 l1 f2 l2].
  - eexists VARIABLE, _. split; [done|]. split; [set_solver|done].
  - exists THE_JUMP_REGISTER, []. split; [by rewrite app_nil_r|]. split; [set_solver|done].
  - exists (word b), (bits_symbol bs). split; [done|].
    split; [destruct b; set_solver|]. by destruct b; intros [?|?].
  - eexists OPEN_PARENTHESIS, _. split; [done|]. split; [set_solver|]. by intros [?|?].
  - eexists OPEN_PARENTHESIS, _. split; [done|]. split; [set_solver|]. by intros [?|?].
Qed.

Lemma Expression_symbol_head (e : Expression) :
  exists (keyword : string) tail,
    Expression_symbol e = text keyword ++ tail
    /\ keyword ∈ [THE_ADDRESS_OF; THE_VALUE_BEYOND; THE_VALUE_AT; VARIABLE;
                  THE_JUMP_REGISTER; ZERO; ONE; OPEN_PARENTHESIS]
    /\ (keyword = VARIABLE \/ keyword = THE_JUMP_REGISTER -> starts_with_variable e = true).
Proof.
  destruct e as [f1 l1 right]. unfold Expression_symbol, expression_symbol. simpl.
  destruct (operand_symbol_head f1 l1) as (keyword & tail & Hhead & Hin & Hvariable).
  exists keyword. destruct right as [[f2 l2]|].
  - eexists. rewrite Hhead, <- app_assoc. split; [done|]. split; [done|].
    intros Hk. destruct (Hvariable Hk) as (H1 & H2 & H3 & Hl).
    unfold starts_with_variable. simpl. rewrite H1, H2, H3. by destruct l1.
  - exists tail. split; [done|]. split; [done|].
    intros Hk. destruct (Hvariable Hk) as (H1 & H2 & H3 & Hl).
    unfold starts_with_variable. simpl. rewrite H1, H2, H3. by destruct l1.
Qed.

Lemma keyword_mismatch (keyword : string) :
  keyword ∈ [THE_ADDRESS_OF; THE_VALUE_BEYOND; THE_VALUE_AT; VARIABLE;
             THE_JUMP_REGISTER; ZERO; ONE; OPEN_PARENTHESIS] ->
  mismatch (text PRINT) (text keyword) = true
  /\ mismatch (text READ) (text keyword) = true
  /\ (keyword <> VARIABLE -> mismatch (text VARIABLE) (text keyword) = true)
  /\ (keyword <> THE_JUMP_REGISTER ->
      mismatch (text THE_JUMP_REGISTER) (text keyword) = true).
Proof.
  intros Hin. repeat (apply elem_of_cons in Hin as [->|Hin]); [..|by apply elem_of_nil in Hin];
    by repeat split.
Qed.

(** An assignment is read by [parse_assignment] from a cursor that stands
    at its first character. *)
Lemma parse_assignment_reads (fuel : nat) (target : Target) (e : Expression) input rest :
  Instruction_fits fuel (IAssignment target e) = true ->
  expression_ends rest = true ->
  forall t p,
    spells (Instruction_symbol (IAssignment target e)) t = true ->
    At input p (t ++ rest) ->
    skip_whitespace input p = p ->
    parse_assignment fuel input p =
    Some (Ok (match Instruction_node (IAssignment target e) with
              | Assignment a => a
              | Command _ => {| address := 0; address_expression := None;
                                expression := Expression_node e |}
              end, p + length t)).
Proof.
  intros Hfits Hend t p Hs HAt Hskip.
  apply andb_prop in Hfits as [He%Nat.ltb_lt Htarget].
  unfold Instruction_symbol in Hs.
  apply spells_app in Hs as (tT & u & -> & HsT & Hs).
  apply spells_app in Hs as (tE & tR & -> & HsE & HsR).
  rewrite <- !app_assoc in HAt.
  pose proof (At_app _ _ _ _ HAt) as HAtE.
  pose proof (At_app _ _ _ _ HAtE) as HAtR.
  assert (HendT : expression_ends (tE ++ tR ++ rest) = true).
  { by apply (expression_ends_spelled "E"%char (text "QUALS")). }
  assert (Hequals : consume EQUALS input (p + length tT) = Ok (p + length tT + length tE)).
  { by apply (consume_spelled EQUALS tE _ _ (tR ++ rest)). }
  assert (Hrhs : parse_expression fuel input (p + length tT + length tE) =
                 Some (Ok (Expression_node e, p + length tT + length tE + length tR))).
  { by apply (parse_expression_reads fuel _ _ _ input rest He Hend tR). }
  assert (Hlength : p + length tT + length tE + length tR = p + length (tT ++ tE ++ tR)).
  { rewrite !length_app. lia. }
  unfold parse_assignment, check_or. rewrite Hskip.
  destruct target as [n| |e'].
  - (* VARIABLE <bits> EQUALS ... *)
    pose proof HsT as Hhead.
    destruct (check_head VARIABLE (text VARIABLE) _ _ _ _ _ HsT HAt) as [Hvariable _].
    rewrite Hvariable by done. simpl.
    unfold parse_variable. rewrite Hvariable by done. simpl.
    destruct (consume_head VARIABLE _ _ _ _ _ HsT HAt) as (t1 & t2 & -> & Hs2 & -> & HAt2).
    simpl.
    rewrite (parse_bits_spelled (fst n) (snd n) t2 _ _ (tE ++ tR ++ rest) Hs2 HAt2).
    2:{ by apply (bit_string_ends_spelled "E"%char (text "QUALS")). }
    simpl. rewrite length_app in Hequals, Hrhs, Hlength.
    rewrite Nat.add_assoc in Hequals, Hrhs, Hlength.
    rewrite Hequals. simpl. rewrite Hrhs. simpl. by rewrite Hlength.
  - (* THE JUMP REGISTER EQUALS ... *)
    rewrite (check_mismatch VARIABLE (text THE_JUMP_REGISTER) tT _ _ (tE ++ tR ++ rest));
      [|done..].
    simpl.
    rewrite (check_spelled THE_JUMP_REGISTER tT _ _ (tE ++ tR ++ rest)); [|done..]. simpl.
    unfold parse_variable.
    rewrite (check_mismatch VARIABLE (text THE_JUMP_REGISTER) tT _ _ (tE ++ tR ++ rest));
      [|done..].
    simpl.
    rewrite (check_spelled THE_JUMP_REGISTER tT _ _ (tE ++ tR ++ rest)); [|done..]. simpl.
    rewrite (consume_spelled THE_JUMP_REGISTER tT _ _ (tE ++ tR ++ rest) HsT HAt). simpl.
    rewrite Hequals. simpl. rewrite Hrhs. simpl. by rewrite Hlength.
  - (* <expression> EQUALS ... *)
    apply andb_prop in Htarget as [Hcomputed%negb_true_iff He'%Nat.ltb_lt].
    destruct (Expression_symbol_head e') as (keyword & tail & Hhead & Hin & Hvariable).
    destruct (keyword_mismatch keyword Hin) as (_ & _ & HV & HJ).
    change (Target_symbol (TComputed e')) with (Expression_symbol e') in HsT.
    pose proof HsT as HsT'. rewrite Hhead in HsT'.
    destruct (check_head VARIABLE (text keyword) tail _ _ _ _ HsT' HAt) as [_ ->].
    2:{ apply HV. intros ->. rewrite Hvariable in Hcomputed; [done|by left]. }
    simpl.
    destruct (check_head THE_JUMP_REGISTER (text keyword) tail _ _ _ _ HsT' HAt) as [_ ->].
    2:{ apply HJ. intros ->. rewrite Hvariable in Hcomputed; [done|by right]. }
    simpl.
    rewrite (parse_expression_reads fuel _ _ _ input _ He' HendT tT p HsT HAt). simpl.
    rewrite Hequals. simpl. rewrite Hrhs. simpl. by rewrite Hlength.
Qed.

Lemma Target_symbol_head (target : Target) :
  exists (keyword : string) tail,
    Target_symbol target = text keyword ++ tail
    /\ keyword ∈ [THE_ADDRESS_OF; THE_VALUE_BEYOND; THE_VALUE_AT; VARIABLE;
                  THE_JUMP_REGISTER; ZERO; ONE; OPEN_PARENTHESIS].
Proof.
  destruct target as [n| |e'].
  - eexists VARIABLE, _. split; [done|set_solver].
  - exists THE_JUMP_REGISTER, []. split; [by rewrite app_nil_r|set_solver].
  - destruct (Expression_symbol_head e') as (keyword & tail & Hhead & Hin & _).
    by exists keyword, tail.
Qed.

Lemma Instruction_symbol_nonempty (i : Instruction) : Instruction_symbol i <> [].
Proof.
  destruct i as [b| |target e]; [done..|]. simpl.
  destruct (Target_symbol_head target) as (keyword & tail & -> & Hin).
  repeat (apply elem_of_cons in Hin as [->|Hin]); [..|by apply elem_of_nil in Hin]; done.
Qed.

Lemma parse_instruction_reads (fuel : nat) (i : Instruction) input rest :
  Instruction_fits fuel i = true ->
  expression_ends rest = true ->
  reads (parse_instruction fuel) (Instruction_symbol i) (Instruction_node i) input rest.
Proof.
  intros Hfits Hend t p Hs HAt.
  destruct (skip_whitespace_spelled _ t input p rest (Instruction_symbol_nonempty i) Hs HAt)
    as (w & t0 & -> & Hs0 & Hskip & HAt0 & Hstop).
  assert (Hlength : p + length w + length t0 = p + length (w ++ t0)).
  { rewrite length_app. lia. }
  unfold parse_instruction, check_or. rewrite Hskip.
  destruct i as [b| |target e].
  - destruct (check_head PRINT (text PRINT) _ _ _ _ _ Hs0 HAt0) as [Hprint _].
    rewrite Hprint by done. simpl.
    rewrite (parse_command_print b t0 _ _ rest Hs0 HAt0). simpl. by rewrite Hlength.
  - rewrite (check_mismatch PRINT (text READ) t0 _ _ rest); [|done..]. simpl.
    rewrite (check_spelled READ t0 _ _ rest); [|done..]. simpl.
    rewrite (parse_command_read t0 _ _ rest Hs0 HAt0). simpl. by rewrite Hlength.
  - destruct (Target_symbol_head target) as (keyword & tail & Hhead & Hin).
    destruct (keyword_mismatch keyword Hin) as (HP & HR & _).
    pose proof Hs0 as Hs0'. unfold Instruction_symbol in Hs0'.
    rewrite Hhead, <- app_assoc in Hs0'.
    destruct (check_head PRINT (text keyword) _ _ _ _ _ Hs0' HAt0) as [_ ->]; [|done].
    simpl.
    destruct (check_head READ (text keyword) _ _ _ _ _ Hs0' HAt0) as [_ ->]; [|done].
    simpl.
    rewrite (parse_assignment_reads fuel target e input rest Hfits Hend t0 _ Hs0 HAt0 Hstop).
    simpl. rewrite Hlength. by destruct target.
Qed.

Lemma parse_goto_reads (g : Goto) t input p rest :
  spells (Goto_symbol g) t = true ->
  At input p (t ++ rest) ->
  line_ends rest = true ->
  parse_goto input p = Ok (Goto_node g, p + length t).
Proof.
  intros Hs HAt Hend.
  destruct (line_ends_next _ Hend) as (_ & Hgoto & HG).
  destruct g as [variable n|variable n equal_to guard
                |variable n1 equal_to1 guard n2 equal_to2].
  - by apply (parse_goto_unconditional variable (fst n) (snd n) t _ _ rest).
  - unfold Goto_symbol in Hs.
    apply spells_app in Hs as (tG & u & -> & HsG & Hs).
    apply spells_app in Hs as (tV & tA & -> & HsV & HsA).
    rewrite <- !app_assoc in HAt.
    pose proof (At_app _ _ _ _ HAt) as HAtV.
    pose proof (At_app _ _ _ _ HAtV) as HAtA.
    destruct (marker_spelled variable tV _ _ _ HsV HAtV
                (next_character_arm _ _ _ _ _ rest HsA))
      as (marker & Hcheck & Hposition).
    destruct (parse_arm _ _ _ _ _ _ _ _ HsA HAtA)
      as (q1 & q2 & q3 & Hbits & Hif & Hconsume & Hequal & Hguard & HAtR).
    unfold parse_goto.
    rewrite (consume_spelled GOTO tG _ _ _ HsG HAt). simpl.
    rewrite Hcheck. simpl. rewrite Hposition. simpl.
    rewrite Hbits. simpl. rewrite Hif. simpl. rewrite Hconsume. simpl.
    rewrite Hequal. simpl. rewrite Hguard. simpl.
    rewrite (check_other GOTO "G"%char (text "OTO") rest); [|done..]. simpl.
    assert (Hlength : p + length tG + length tV + length tA = p + length (tG ++ tV ++ tA)).
    { rewrite !length_app. lia. }
    rewrite Hlength. by destruct guard.
  - unfold Goto_symbol in Hs.
    apply spells_app in Hs as (tG & u & -> & HsG & Hs).
    apply spells_app in Hs as (tV & u' & -> & HsV & Hs).
    apply spells_app in Hs as (tA & u'' & -> & HsA & Hs).
    apply spells_app in Hs as (tG2 & tA2 & -> & HsG2 & HsA2).
    rewrite <- !app_assoc in HAt.
    pose proof (At_app _ _ _ _ HAt) as HAtV.
    pose proof (At_app _ _ _ _ HAtV) as HAtA.
    destruct (marker_spelled variable tV _ _ _ HsV HAtV
                (next_character_arm _ _ _ _ _ _ HsA))
      as (marker & Hcheck & Hposition).
    destruct (parse_arm _ _ _ _ _ _ _ _ HsA HAtA)
      as (q1 & q2 & q3 & Hbits & Hif & Hconsume & Hequal & Hguard & HAtG2).
    pose proof (At_app _ _ _ _ HAtG2) as HAtA2.
    destruct (parse_arm _ _ _ _ _ _ _ _ HsA2 HAtA2)
      as (r1 & r2 & r3 & Hbits2 & _ & Hconsume2 & Hequal2 & Hguard2 & _).
    unfold parse_goto.
    rewrite (consume_spelled GOTO tG _ _ _ HsG HAt). simpl.
    rewrite Hcheck. simpl. rewrite Hposition. simpl.
    rewrite Hbits. simpl. rewrite Hif. simpl. rewrite Hconsume. simpl.
    rewrite Hequal. simpl. rewrite Hguard. simpl.
    rewrite (check_spelled GOTO tG2 _ _ _ ltac:(done) HsG2 HAtG2). simpl.
    rewrite (consume_spelled GOTO tG2 _ _ _ HsG2 HAtG2). simpl.
    rewrite Hbits2. simpl. rewrite Hconsume2. simpl. rewrite Hequal2. simpl.
    rewrite Hguard2. simpl.
    assert (Hlength : p + length tG + length tV + length tA + length tG2 + length tA2 =
                      p + length (tG ++ tV ++ tA ++ tG2 ++ tA2)).
    { rewrite !length_app. lia. }
    rewrite Hlength. by destruct guard.
Qed.

Lemma Goto_symbol_head (g : Goto) : exists tail, Goto_symbol g = text GOTO ++ tail.
Proof. destruct g; by eexists. Qed.

Lemma parse_line_reads (fuel : nat) (l : Line) input rest :
  Instruction_fits fuel (body l) = true ->
  line_ends rest = true ->
  reads (parse_line fuel) (Line_symbol l) (Line_node l) input rest.
Proof.
  intros Hfits Hend t p Hs HAt.
  destruct (line_ends_next _ Hend) as (Hexpression & _ & HG).
  unfold Line_symbol in Hs.
  apply spells_app in Hs as (tL & u & -> & HsL & Hs).
  apply spells_app in Hs as (tN & u' & -> & HsN & Hs).
  apply spells_app in Hs as (tC & u'' & -> & HsC & Hs).
  apply spells_app in Hs as (tI & tG & -> & HsI & HsG).
  rewrite <- !app_assoc in HAt.
  pose proof (At_app _ _ _ _ HAt) as HAtN.
  pose proof (At_app _ _ _ _ HAtN) as HAtC.
  pose proof (At_app _ _ _ _ HAtC) as HAtI.
  pose proof (At_app _ _ _ _ HAtI) as HAtG.
  assert (Hlength : p + length tL + length tN + length tC + length tI + length tG =
                    p + length (tL ++ tN ++ tC ++ tI ++ tG)).
  { rewrite !length_app. lia. }
  unfold parse_line.
  rewrite (consume_spelled LINE_NUMBER tL _ _ _ HsL HAt). simpl.
  rewrite (parse_bits_spelled (fst (number l)) (snd (number l)) tN _ _ _ HsN HAtN).
  2:{ by apply (bit_string_ends_spelled "C"%char (text "ODE")). }
  simpl. rewrite (consume_spelled CODE tC _ _ _ HsC HAtC). simpl.
  assert (Hinstruction : expression_ends (tG ++ rest) = true).
  { destruct (jump l) as [g|].
    - destruct (Goto_symbol_head g) as [tail Hhead]. rewrite Hhead in HsG.
      by apply (expression_ends_spelled "G"%char (text "OTO" ++ tail)).
    - by destruct tG. }
  rewrite (parse_instruction_reads fuel (body l) input _ Hfits Hinstruction tI _ HsI HAtI).
  simpl. unfold Line_node. destruct (jump l) as [g|]; simpl.
  - destruct (Goto_symbol_head g) as [tail Hhead].
    pose proof HsG as HsG'. rewrite Hhead in HsG'.
    destruct (check_head GOTO (text GOTO) tail _ _ _ _ HsG' HAtG) as [Hgoto _].
    rewrite Hgoto by done. simpl.
    rewrite (parse_goto_reads g tG _ _ rest HsG HAtG Hend). simpl.
    by rewrite Hlength.
  - destruct tG; [|done]. simpl in HAtG.
    rewrite (check_other GOTO "G"%char (text "OTO") rest); [|done..]. simpl.
    rewrite <- Hlength. simpl. do 3 f_equal. lia.
Qed.

Lemma program_ends_next rest :
  program_ends rest = true ->
  line_ends rest = true /\ next_character rest <> Some "L"%char.
Proof.
  unfold program_ends. intros [Hline HL]%andb_prop. split; [done|].
  destruct (next_character rest) as [c|]; [|done].
  intros [= ->]. done.
Qed.

Lemma program_symbol_cons (l : Line) (ls : list Line) :
  program_symbol (l :: ls) = Line_symbol l ++ program_symbol ls.
Proof. done. Qed.

Lemma program_symbol_snoc (ls : list Line) (l : Line) :
  program_symbol (ls ++ [l]) = program_symbol ls ++ Line_symbol l.
Proof.
  unfold program_symbol. rewrite flat_map_app. cbn [flat_map]. by rewrite app_nil_r.
Qed.

Lemma Line_symbol_head (l : Line) : exists tail, Line_symbol l = text LINE_NUMBER ++ tail.
Proof. by eexists. Qed.

(** What follows a line of a program is the next line or what follows the
    program. *)
Lemma program_symbol_line_ends (ls : list Line) t rest :
  spells (program_symbol ls) t = true ->
  line_ends rest = true ->
  line_ends (t ++ rest) = true.
Proof.
  intros Hs Hend. destruct ls as [|l ls].
  - by destruct t.
  - rewrite program_symbol_cons in Hs.
    destruct (Line_symbol_head l) as [tail Hhead]. rewrite Hhead, <- app_assoc in Hs.
    by apply (line_ends_spelled "L"%char (text "INENUMBER" ++ tail ++ program_symbol ls)).
Qed.

(** The loop of [parse_code] reads the lines that follow the first one and
    enters each under its number, one round for each line. *)
Lemma parse_code_loop_lines (others : list Line) :
  forall (rounds fuel : nat) input p (node : CodeNode) t rest,
  Forall (fun l : Line => Instruction_fits fuel (body l) = true) others ->
  NoDup (Line_number <$> others) ->
  (forall l : Line, l ∈ others -> lines node !! Bits_value (number l) = None) ->
  spells (program_symbol others) t = true ->
  At input p (t ++ rest) ->
  line_ends rest = true ->
  parse_code_loop (length others + rounds) fuel input p node =
  parse_code_loop rounds fuel input (p + length t)
    (fold_left (fun node (l : Line) => add_line (Line_node l) node) others node).
Proof.
  induction others as [|l ls IH];
    intros rounds fuel input p node t rest Hfits Hdistinct Hfresh Hs HAt Hend.
  - destruct t; [|done]. simpl. by rewrite Nat.add_0_r.
  - rewrite program_symbol_cons in Hs.
    apply spells_app in Hs as (tl & ts & -> & Hsl & Hss).
    rewrite <- app_assoc in HAt.
    pose proof (At_app _ _ _ _ HAt) as HAts.
    apply Forall_cons in Hfits as [Hfit Hfits].
    rewrite fmap_cons in Hdistinct. apply NoDup_cons in Hdistinct as [Hnew Hdistinct].
    change (length (l :: ls) + rounds) with (S (length ls + rounds)).
    rewrite parse_code_loop_unfold.
    destruct (Line_symbol_head l) as [tail Hhead].
    pose proof Hsl as Hsl'. rewrite Hhead in Hsl'.
    destruct (check_head LINE_NUMBER (text LINE_NUMBER) tail _ _ _ _ Hsl' HAt) as [Hcheck _].
    rewrite Hcheck by done.
    rewrite (parse_line_reads fuel l input (ts ++ rest) Hfit
               (program_symbol_line_ends ls ts rest Hss Hend) tl p Hsl HAt).
    change (line_number (Line_node l)) with (Bits_value (number l)).
    rewrite (Hfresh l) by set_solver.
    rewrite (IH rounds fuel input (p + length tl) (add_line (Line_node l) node) ts rest);
      [|done|done| |done|done|done].
    + rewrite length_app, Nat.add_assoc. done.
    + intros l' Hl'. simpl. rewrite lookup_insert_ne.
      * apply Hfresh. set_solver.
      * intros Heq. apply Hnew. change (Line_number l) with (Bits_value (number l)).
        rewrite Heq. by apply (list_elem_of_fmap_2 Line_number).
Qed.

(** [skip_whitespace] in front of any text. *)
Lemma skip_whitespace_rest rest : forall input p,
  At input p rest ->
  exists w r, rest = w ++ r
    /\ skip_whitespace input p = p + length w
    /\ At input (p + length w) r
    /\ next_character r = next_character rest.
Proof.
  induction rest as [|c rest IH]; intros input p HAt.
  - exists [], []. apply At_nil in HAt as [Hlength Hnone].
    rewrite (skip_whitespace_end _ _ Hnone). simpl. rewrite Nat.add_0_r.
    split; [done|]. split; [done|]. split; [|done].
    exists input. by rewrite app_nil_r.
  - destruct (At_cons _ _ _ _ HAt) as (Hc & HAt' & _).
    destruct (is_whitespace c) eqn:Hw.
    + destruct (IH _ _ HAt') as (w & r & -> & Hskip & HAtr & Hnext).
      exists (c :: w), r. rewrite (skip_whitespace_step _ _ _ Hc Hw), Hskip. simpl.
      rewrite Hw. replace (p + S (length w)) with (S p + length w) by lia. done.
    + exists [], (c :: rest). rewrite (skip_whitespace_stop _ _ _ Hc Hw). simpl.
      by rewrite Nat.add_0_r.
Qed.

(** The table of the lines after the loop holds every number that was
    entered. *)
Lemma lines_fold_is_Some (others : list Line) : forall (node : CodeNode) (n : Z),
  is_Some (lines node !! n) \/ n ∈ Line_number <$> others ->
  is_Some (lines (fold_left (fun node (l : Line) => add_line (Line_node l) node)
                    others node) !! n).
Proof.
  induction others as [|l ls IH]; intros node n H; simpl.
  - destruct H as [H|H]; [done|]. by apply elem_of_nil in H.
  - apply IH. destruct H as [H|H].
    + left. simpl. apply lookup_insert_is_Some. destruct (decide (Bits_value (number l) = n));
        [by left|by right].
    + rewrite fmap_cons in H. apply elem_of_cons in H as [->|H]; [|by right].
      left. simpl. apply lookup_insert_is_Some. by left.
Qed.

(** [parse_code] up to the test of its loop behind the last of the lines:
    the first line, the whitespace behind it, and the other lines when the
    loop has rounds for them. *)
Lemma parse_code_lines (first : Line) (others : list Line) (fuel rounds : nat)
    input t rest :
  fuel = length others + rounds ->
  NoDup (Line_number <$> first :: others) ->
  Forall (fun l : Line => Instruction_fits fuel (body l) = true) (first :: others) ->
  spells (program_symbol (first :: others)) t = true ->
  At input 0 (t ++ rest) ->
  line_ends rest = true ->
  parse_code fuel input 0 =
  parse_code_loop rounds fuel input
    (match others with
     | [] => skip_whitespace input (length t)
     | _ :: _ => length t
     end)
    (program_node first others).
Proof.
  intros Hfuel Hdistinct Hfits Hs HAt Hend.
  rewrite program_symbol_cons in Hs.
  apply spells_app in Hs as (tf & ts & -> & Hsf & Hss).
  rewrite <- app_assoc in HAt.
  pose proof (At_app _ _ _ _ HAt) as HAts. simpl in HAts.
  apply Forall_cons in Hfits as [Hfit Hfits].
  rewrite fmap_cons in Hdistinct. apply NoDup_cons in Hdistinct as [Hnew Hdistinct].
  unfold parse_code.
  rewrite (parse_line_reads fuel first input (ts ++ rest) Hfit
             (program_symbol_line_ends others ts rest Hss Hend) tf 0 Hsf HAt).
  simpl.
  change (line_number (Line_node first)) with (Bits_value (number first)).
  assert (Hfresh : forall l : Line, l ∈ others ->
            lines {| lines := <[Bits_value (number first) := Line_node first]> ∅;
                     first_line_number := Bits_value (number first) |}
              !! Bits_value (number l) = None).
  { intros l Hl. simpl. rewrite lookup_insert_ne; [done|].
    intros Heq. apply Hnew. change (Line_number first) with (Bits_value (number first)).
    rewrite Heq. by apply (list_elem_of_fmap_2 Line_number). }
  destruct others as [|l ls].
  - destruct ts; [|done]. rewrite app_nil_r. simpl in Hfuel. by subst rounds.
  - destruct (skip_whitespace_spelled (program_symbol (l :: ls)) ts input (length tf) rest)
      as (w & ts0 & -> & Hs0 & Hskip & HAt0 & _); [|done..|].
    { rewrite program_symbol_cons. by destruct (Line_symbol_head l) as [tail ->]. }
    rewrite Hskip, Hfuel.
    rewrite (parse_code_loop_lines (l :: ls) rounds (length (l :: ls) + rounds) input _ _
               ts0 rest); [|by rewrite <- Hfuel|done..].
    do 2 f_equal. rewrite !length_app. lia.
Qed.

(** X17: [parse] accepts every program of the grammar and returns its
    tree.  The program is a line and more lines, each LINE NUMBER, a bit
    string, CODE, an instruction and an optional goto, written with any
    whitespace in front of any character; the numbers of the lines are
    all different; a computed target of an assignment does not start like
    a variable; and the bound covers the depth of the parentheses and the
    number of the lines.  What follows the program starts nothing that
    continues it. *)
Theorem parse_grammar (first : Line) (others : list Line) (fuel : nat) (t rest : list char) :
  NoDup (Line_number <$> first :: others) ->
  Forall (fun l : Line => Instruction_fits fuel (body l) = true) (first :: others) ->
  length others <= fuel ->
  spells (program_symbol (first :: others)) t = true ->
  program_ends rest = true ->
  parse fuel (t ++ rest) = Some (Ok (program_node first others)).
Proof.
  intros Hdistinct Hfits Hrounds Hs Hend.
  destruct (program_ends_next _ Hend) as [Hline HL].
  pose proof (At_intro [] (t ++ rest)) as HAt. simpl in HAt.
  pose proof (At_app _ _ _ _ HAt) as HAtr. simpl in HAtr.
  unfold parse.
  rewrite (parse_code_lines first others fuel (fuel - length others) (t ++ rest) t rest);
    [|lia|done..].
  rewrite parse_code_loop_unfold.
  destruct others as [|l ls].
  - destruct (skip_whitespace_rest rest _ _ HAtr) as (w & r & Hrest & -> & HAtw & Hnext).
    rewrite (check_other LINE_NUMBER "L"%char (text "INENUMBER") r);
      [done|done| |done].
    by rewrite Hnext.
  - by rewrite (check_other LINE_NUMBER "L"%char (text "INENUMBER") rest).
Qed.

Lemma parse_grammar_witness :
  parse 2 (text "LINE NUMBER ZERO CODE READ GOTO ONE IF THE JUMP REGISTER IS ONE GOTO ONE ZERO"
           ++ text " IF THE JUMP REGISTER IS EQUAL TO ZERO LINE NUMBER ONE CODE PRINT ONE"
           ++ text " LINE NUMBER ONE ZERO CODE VARIABLE ONE EQUALS THE JUMP REGISTER NAND ONE") =
  Some (Ok
    {| lines :=
         <[2%Z := {| line_number := 2;
                   instruction :=
                     Assignment
                       {| address := 1; address_expression := None;
                          expression :=
                            Expression1Node (VariableNode jump_register_address)
                                            (Some (Expression5Node 1)) |};
                   go := None |}]>
         (<[1%Z := {| line_number := 1; instruction := Command {| print_value := 1 |};
                    go := None |}]>
          (<[0%Z := {| line_number := 0; instruction := Command {| print_value := -1 |};
                     go := Some {| next := {| value := -1; type := BIT |};
                                   next_if_zero := 2; next_if_one := 1 |} |}]> ∅));
       first_line_number := 0 |}).
Proof.
  rewrite !app_assoc, <- (app_nil_r (_ ++ _)).
  apply (parse_grammar
           {| number := (false, []); body := IRead;
              jump := Some (GTwoArms false (true, []) false true (true, [false]) true) |}
           [ {| number := (true, []); body := IPrint true; jump := None |};
             {| number := (true, [false]);
                body := IAssignment (TVariable (true, []))
                          (mkExpression (mkPrefixes false false false) LJumpRegister
                             (Some (mkPrefixes false false false, LConstant true [])));
                jump := None |} ]
           2 _ []).
  - compute_done.
  - repeat constructor.
  - simpl. lia.
  - reflexivity.
  - reflexivity.
Defined.

Lemma parse_code_loop_again (again : Line) (rounds fuel : nat) input p (node : CodeNode)
    t rest :
  Instruction_fits fuel (body again) = true ->
  is_Some (lines node !! Line_number again) ->
  spells (Line_symbol again) t = true ->
  At input p (t ++ rest) ->
  line_ends rest = true ->
  parse_code_loop (S rounds) fuel input p node =
  Some (Err (ParseError
    ("Line number is " +:+ to_string (Line_number again) +:+ " already defined.")
    (p + length t))).
Proof.
  intros Hfit [line Hline] Hs HAt Hend.
  rewrite parse_code_loop_unfold.
  destruct (Line_symbol_head again) as [tail Hhead].
  pose proof Hs as Hs'. rewrite Hhead in Hs'.
  destruct (check_head LINE_NUMBER (text LINE_NUMBER) tail _ _ _ _ Hs' HAt) as [Hcheck _].
  rewrite Hcheck by done.
  rewrite (parse_line_reads fuel again input rest Hfit Hend t p Hs HAt).
  change (line_number (Line_node again)) with (Line_number again).
  by rewrite Hline.
Qed.

Lemma parse_code_number_twice (first : Line) (others : list Line) (again : Line)
    (fuel : nat) input t rest :
  NoDup (Line_number <$> first :: others) ->
  Line_number again ∈ Line_number <$> first :: others ->
  Forall (fun l : Line => Instruction_fits fuel (body l) = true)
         (first :: others ++ [again]) ->
  length others < fuel ->
  spells (program_symbol (first :: others ++ [again])) t = true ->
  At input 0 (t ++ rest) ->
  line_ends rest = true ->
  parse_code fuel input 0 =
  Some (Err (ParseError
    ("Line number is " +:+ to_string (Line_number again) +:+ " already defined.")
    (length t))).
Proof.
  intros Hdistinct Hin Hfits Hrounds Hs HAt Hend.
  rewrite app_comm_cons in Hs, Hfits.
  apply Forall_app in Hfits as [Hfits Hfit]. rewrite Forall_singleton in Hfit.
  rewrite program_symbol_snoc in Hs.
  apply spells_app in Hs as (tp & ta & -> & Hsp & Hsa).
  rewrite <- app_assoc in HAt.
  pose proof (At_app _ _ _ _ HAt) as HAta. simpl in HAta.
  assert (Hnext : line_ends (ta ++ rest) = true).
  { destruct (Line_symbol_head again) as [tail Hhead]. rewrite Hhead in Hsa.
    by apply (line_ends_spelled "L"%char (text "INENUMBER" ++ tail)). }
  assert (Hnode : is_Some (lines (program_node first others) !! Line_number again)).
  { apply lines_fold_is_Some. rewrite fmap_cons in Hin.
    apply elem_of_cons in Hin as [->|Hin]; [|by right].
    left. simpl. apply lookup_insert_is_Some. by left. }
  rewrite (parse_code_lines first others fuel (fuel - length others) input tp (ta ++ rest));
    [|lia|done..].
  replace (fuel - length others) with (S (fuel - length others - 1)) by lia.
  destruct others as [|l ls].
  - destruct (skip_whitespace_spelled (Line_symbol again) ta input (length tp) rest)
      as (w & ta0 & -> & Hs0 & Hskip & HAt0 & _); [| done..|].
    { by destruct (Line_symbol_head again) as [tail ->]. }
    rewrite Hskip.
    rewrite (parse_code_loop_again again _ fuel input _ _ ta0 rest); [|done..].
    do 3 f_equal. rewrite !length_app. lia.
  - rewrite (parse_code_loop_again again _ fuel input _ _ ta rest); [|done..].
    do 3 f_equal. rewrite !length_app. lia.
Qed.

(** X18: a line that repeats the number of an earlier line is refused:
    when the lines before it are read and have different numbers, [parse]
    stops behind the repeated line with the parse error "Line number is
    <n> already defined.", whatever the line says. *)
Theorem parse_number_twice (first : Line) (others : list Line) (again : Line)
    (fuel : nat) (t rest : list char) :
  NoDup (Line_number <$> first :: others) ->
  Line_number again ∈ Line_number <$> first :: others ->
  Forall (fun l : Line => Instruction_fits fuel (body l) = true)
         (first :: others ++ [again]) ->
  length others < fuel ->
  spells (program_symbol (first :: others ++ [again])) t = true ->
  line_ends rest = true ->
  parse fuel (t ++ rest) =
  Some (Err (ParseError
    ("Line number is " +:+ to_string (Line_number again) +:+ " already defined.")
    (length t))).
Proof.
  intros Hdistinct Hin Hfits Hrounds Hs Hend.
  pose proof (At_intro [] (t ++ rest)) as HAt. simpl in HAt.
  unfold parse.
  by rewrite (parse_code_number_twice first others again fuel _ t rest).
Qed.

Lemma parse_number_twice_witness :
  parse 2 (text "LINE NUMBER ONE CODE PRINT ONE GOTO ONE LINE NUMBER ZERO ONE CODE READ") =
  Some (Err (ParseError "Line number is 1 already defined." 70)).
Proof.
  pose proof (parse_number_twice
           {| number := (true, []); body := IPrint true;
              jump := Some (GDirect false (true, [])) |}
           []
           {| number := (false, [true]); body := IRead; jump := None |}
           2 (text "LINE NUMBER ONE CODE PRINT ONE GOTO ONE LINE NUMBER ZERO ONE CODE READ")
           []) as H.
  rewrite app_nil_r in H. apply H.
  - compute_done.
  - compute_done.
  - repeat constructor.
  - simpl. lia.
  - reflexivity.
  - reflexivity.
Defined.

End ProgramGrammar.

(** * An invariant of the memory *)

Section Invariant.

Lemma memory_read_sound (x : Z) s v s' :
  memory_read x s = Ok (v, s') -> memory_sound s -> memory_sound s'.
Proof.
  unfold memory_read, jump_register_address. intros H Hsound.
  destruct (x =? -1); [by simplify_eq|].
  destruct (x >? -1) eqn:Hx; [|done].
  destruct (memory s !! x) as [w|] eqn:Hw; simplify_eq; [done|].
  intros y w. simpl. intros [[-> <-]|[_ Hy]]%lookup_insert_Some.
  - split; [lia|done].
  - by apply Hsound.
Qed.

Lemma memory_write_sound (x : Z) v s s' :
  memory_write x v s = Ok s' -> memory_sound s -> memory_sound s'.
Proof.
  unfold memory_write, jump_register_address. intros H Hsound.
  destruct (ValueType_eqb (type v) BIT && negb (value v =? 0) && negb (value v =? 1))
    eqn:Hguard; [done|].
  destruct (x =? -1).
  { destruct (ValueType_eqb (type v) ADDRESS_OF_A_BIT); by simplify_eq. }
  destruct (x >? -1) eqn:Hx; [|done]. simplify_eq.
  intros y w. simpl. intros [[-> <-]|[_ Hy]]%lookup_insert_Some.
  - split; [lia|]. intros Htype. rewrite Htype in Hguard. simpl in Hguard.
    destruct (value v =? 0) eqn:E0; [lia|]. destruct (value v =? 1) eqn:E1; [lia|done].
  - by apply Hsound.
Qed.

(** What every [memory_read] preserves, every evaluation preserves. *)
Lemma ExpressionNode_value_preserves (P : State -> Prop) :
  (forall (x : Z) s v s', memory_read x s = Ok (v, s') -> P s -> P s') ->
  forall e s v s', ExpressionNode_value e s = Ok (v, s') -> P s -> P s'.
Proof.
  intros Hread.
  induction e as [l IHl|l r IHl IHr|c IH|c IH|c IH|k|a] using ExpressionNode_induction;
    intros s v s'; simpl.
  - unfold Expression1Node_value.
    destruct (ExpressionNode_value l s) as [[w s1]|err] eqn:El; simpl; [|done].
    intros [= <- <-]. by eapply IHl.
  - unfold Expression1Node_value.
    destruct (ExpressionNode_value l s) as [[w s1]|err] eqn:El; simpl; [|done].
    destruct (ExpressionNode_value r s1) as [[w' s2]|err] eqn:Er; simpl; [|done].
    case_match; [done|]. intros [= <- <-] HP. eapply IHr; [done|]. by eapply IHl.
  - unfold Expression2Node_value.
    destruct (ExpressionNode_value c s) as [[w s1]|err] eqn:Ec; simpl; [|done].
    repeat (case_match; [done|]). intros [= <- <-]. by eapply IH.
  - unfold Expression3Node_value.
    destruct (ExpressionNode_value c s) as [[w s1]|err] eqn:Ec; simpl; [|done].
    repeat (case_match; [done|]).
    destruct (memory_read _ s1) as [[w' s2]|err] eqn:Em; simpl; [|done].
    case_match; [done|]. intros [= <- <-] HP. eapply Hread; [done|]. by eapply IH.
  - unfold Expression4Node_value.
    destruct (ExpressionNode_value c s) as [[w s1]|err] eqn:Ec; simpl; [|done].
    repeat (case_match; [done|]).
    destruct (memory_read _ s1) as [[w' s2]|err] eqn:Em; simpl; [|done].
    case_match; [done|]. intros [= <- <-] HP. eapply Hread; [done|]. by eapply IH.
  - by intros [= <- <-].
  - unfold VariableNode_value. destruct (a >=? jump_register_address); [|done].
    apply Hread.
Qed.

Lemma InstructionNode_run_sound (order : ArgumentOrder) (i : InstructionNode) s s' :
  InstructionNode_run order i s = Ok s' -> memory_sound s -> memory_sound s'.
Proof.
  pose proof (ExpressionNode_value_preserves memory_sound memory_read_sound) as Hvalue.
  destruct i as [c|a]; simpl.
  - unfold CommandNode_run. destruct (_ || _); [by intros [= <-]|].
    unfold read_bit. destruct (cin s) as [|b rest]; [done|].
    destruct (negb (b =? 0) && negb (b =? 1)); [done|]. simpl.
    intros Hwrite Hsound. by eapply memory_write_sound.
  - unfold AssignmentNode_run, AssignmentNode_arguments.
    destruct (address a >=? jump_register_address).
    + destruct (ExpressionNode_value (expression a) s) as [[v s1]|err] eqn:He; [|done].
      simpl. intros Hwrite Hsound. eapply memory_write_sound; [done|]. by eapply Hvalue.
    + destruct (address_expression a) as [e|]; [|done]. destruct order.
      * destruct (ExpressionNode_value e s) as [[t s1]|err] eqn:Ht; [|done]. simpl.
        destruct (ExpressionNode_value (expression a) s1) as [[v s2]|err] eqn:He; [|done].
        simpl. intros Hwrite Hsound. eapply memory_write_sound; [done|].
        eapply Hvalue; [done|]. by eapply Hvalue.
      * destruct (ExpressionNode_value (expression a) s) as [[v s1]|err] eqn:He; [|done].
        simpl.
        destruct (ExpressionNode_value e s1) as [[t s2]|err] eqn:Ht; [|done].
        simpl. intros Hwrite Hsound. eapply memory_write_sound; [done|].
        eapply Hvalue; [done|]. by eapply Hvalue.
Qed.

Lemma GotoNode_next_line_number_sound (g : GotoNode) s (n : Z) s' :
  GotoNode_next_line_number g s = Ok (n, s') -> memory_sound s -> memory_sound s'.
Proof.
  unfold GotoNode_next_line_number. intros H Hsound.
  repeat (case_match; simplify_eq; simpl in * ); try done.
  destruct (memory_read (value (next g)) s) as [[v s1]|err] eqn:Hread; [|done].
  simpl in H. simplify_eq. by eapply memory_read_sound.
Qed.

Lemma CodeNode_run_loop_sound fuel (order : ArgumentOrder) (program : gmap Z LineNode) :
  forall (n : Z) s,
  memory_sound s ->
  match CodeNode_run_loop fuel order program n s with
  | Finished s' | Unfinished _ s' => memory_sound s'
  | Aborted _ => True
  end.
Proof.
  induction fuel as [|fuel IH]; intros n s Hsound; simpl.
  - by destruct (n >=? 0).
  - destruct (n >=? 0); [|done].
    destruct (program !! n) as [line|]; [|done].
    destruct (InstructionNode_run order (instruction line) s) as [s1|err] eqn:Hi; [|done].
    apply InstructionNode_run_sound in Hi; [|done].
    destruct (go line) as [g|]; [|done].
    destruct (GotoNode_next_line_number g s1) as [[n' s2]|err] eqn:Hg; [|done].
    apply IH. by eapply GotoNode_next_line_number_sound.
Qed.

(** X19: a run keeps the memory sound: when the memory map holds ordinary
    addresses (0 and above) only and every cell of kind Bit holds 0 or 1,
    as in the empty memory that [parse] leaves behind, the same is true
    when the run has finished and at every line it reaches. *)
Theorem CodeNode_run_memory fuel (order : ArgumentOrder) (code : CodeNode) s :
  memory_sound s ->
  match CodeNode_run fuel order code s with
  | Finished s' | Unfinished _ s' => memory_sound s'
  | Aborted _ => True
  end.
Proof.
  intros Hsound. unfold CodeNode_run.
  destruct (lines code !! first_line_number code) as [line|]; [|done].
  destruct (InstructionNode_run order (instruction line) s) as [s1|err] eqn:Hi; [|done].
  apply InstructionNode_run_sound in Hi; [|done].
  destruct (go line) as [g|]; [|done].
  destruct (GotoNode_next_line_number g s1) as [[n' s2]|err] eqn:Hg; [|done].
  apply CodeNode_run_loop_sound. by eapply GotoNode_next_line_number_sound.
Qed.

Lemma CodeNode_run_memory_witness :
  match CodeNode_run 1 LeftToRight read_and_branch (initial_state [1]) with
  | Finished s' | Unfinished _ s' => memory_sound s'
  | Aborted _ => True
  end.
Proof.
  apply (CodeNode_run_memory 1 LeftToRight read_and_branch (initial_state [1])).
  intros x v H. simpl in H. by rewrite lookup_empty in H.
Defined.

End Invariant.
